(** * dzcp: a shallow embedding of [dzcp.c] and its verified properties

    [dzcp] copies one large file with [num_processes] forked workers.
    Worker [process_num] moves the blocks [process_num],
    [process_num + num_processes], ... of [block_size] bytes each with
    [sendfile(2)].  This file embeds the arithmetic, the worker loop
    ([copy_blocks]), the parent ([perform_copy]), the benchmark sweep
    ([find_optimal_settings]) and the command line handling ([main]) and
    proves the properties of the design document about them.

    Conventions of the embedding:
    - C integers are mathematical integers ([Z]) together with the explicit
      conversion of the C type they are stored in ([to_int], [to_off],
      [to_size]);
    - system calls take their outcome from an environment record, so that
      every path of the C code (including the error paths) can be taken;
    - a process is described by the list of events it performs and by the
      status it ends with;
    - loops that C does not bound (the retry loop around [sendfile]) take a
      [fuel] argument; running out of fuel is the status [WRunning]. *)

From Stdlib Require Import ZArith List Lia Bool QArith Permutation Sorted.
Import ListNotations.
Open Scope Z_scope.

(* ================================================================= *)
(** ** C integer types of the LP64 Linux targets [sendfile(2)] exists on *)

Module CInt.

Definition INT_MAX : Z := 2 ^ 31 - 1.
Definition INT_MIN : Z := - 2 ^ 31.
Definition OFF_MAX : Z := 2 ^ 63 - 1.
Definition SIZE_MAX : Z := 2 ^ 64 - 1.

(** [int]: 32 bits, two's complement. *)
Definition to_int (z : Z) : Z := (z + 2 ^ 31) mod 2 ^ 32 - 2 ^ 31.

(** [off_t] and [ssize_t]: 64 bits, two's complement. *)
Definition to_off (z : Z) : Z := (z + 2 ^ 63) mod 2 ^ 64 - 2 ^ 63.

(** [size_t]: 64 bits, unsigned. *)
Definition to_size (z : Z) : Z := z mod 2 ^ 64.

(** [a * b] where one operand is a [size_t]: both operands are converted
    to [size_t] and the product is reduced modulo [2^64]. *)
Definition size_mul (a b : Z) : Z := to_size (to_size a * to_size b).

(** [o += s] for an [off_t o] and a [size_t s]: the sum is computed on
    [size_t] and converted back to [off_t]. *)
Definition off_add_size (o s : Z) : Z := to_off (to_size (to_size o + to_size s)).

(** [a << k] on [int].  The shift count must lie in [0..31]; outside, C
    leaves the value undefined ([None]).  A result that does not fit is
    reduced to 32 bits. *)
Definition int_shl (a k : Z) : option Z :=
  if (0 <=? k) && (k <? 32) then Some (to_int (Z.shiftl a k)) else None.

(** [a * b] on [int], reduced to 32 bits. *)
Definition int_mul (a b : Z) : Z := to_int (a * b).

End CInt.
Import CInt.

(* ================================================================= *)
(** ** The worker: [copy_blocks] *)

Definition EINTR : Z := 4.
Definition EAGAIN : Z := 11.
Definition EIO : Z := 5.

(** What one call of [sendfile] does.  [SfMoved k]: the kernel is ready to
    move up to [k] bytes; the call moves as many of them as the request and
    the remaining source allow (a short count is possible).  [SfError e]:
    the call returns [-1] and sets [errno] to [e].  [SfEof e]: the call
    returns [0]; [errno] keeps the value [e] it had before. *)
Inductive sf_resp : Type :=
| SfMoved (k : positive)
| SfError (e : Z)
| SfEof (e : Z).

(** Return value of [sendfile(dest_fd, source_fd, &offset, count)] on a
    source of [file_size] bytes. *)
Definition sendfile_ret (file_size offset count : Z) (r : sf_resp) : Z :=
  match r with
  | SfMoved k => Z.min (Z.pos k) (Z.min count (file_size - offset))
  | SfError _ => -1
  | SfEof _ => 0
  end.

(** The value of [errno] recorded with the call.  The code reads [errno]
    only after a call that returned zero or less; after a call that moved
    data the value is of no consequence and recorded as 0. *)
Definition sendfile_errno (r : sf_resp) : Z :=
  match r with
  | SfMoved _ => 0
  | SfError e => e
  | SfEof e => e
  end.

Inductive fd : Type := SourceFd | DestFd.

(** The messages a worker hands to [perror] (lines 73, 79, 90 and 105). *)
Inductive worker_error : Type :=
| ErrOpenSource     (* "Error opening source file in child process" *)
| ErrOpenDest       (* "Error opening destination file in child process" *)
| ErrSeek           (* "Error seeking in destination file" *)
| ErrSendfile.      (* "Error during sendfile" *)

(** Events of a worker.  [EvSeek offset dest_offset ok] is the call
    [lseek(dest_fd, dest_offset, SEEK_SET)] at the head of a block, made
    while the source cursor is [offset].  [EvSendfile dest_pos offset count
    bytes_sent errno] is one call of [sendfile]: [dest_pos] is the file
    position of [dest_fd], [offset] the source cursor handed in, [count]
    the request, [bytes_sent] the return value.  [EvPerror msg] is a line
    on the worker's [stderr]. *)
Inductive event : Type :=
| EvOpen (f : fd) (ok : bool)
| EvSeek (offset dest_offset : Z) (ok : bool)
| EvSendfile (dest_pos offset count bytes_sent errno : Z)
| EvClose (f : fd)
| EvPerror (msg : worker_error).

(** How the worker's calls turn out. *)
Record worker_env : Type := {
  open_source_ok : bool;
  open_dest_ok : bool;
  dest_seekable : bool;
  sendfile_oracle : nat -> sf_resp
}.

(** [lseek(fd, pos, SEEK_SET)] fails on a negative position and on a file
    that cannot seek. *)
Definition lseek_ok (seekable : bool) (pos : Z) : bool := seekable && (0 <=? pos).

Definition oracle_tail (o : nat -> sf_resp) : nat -> sf_resp := fun k => o (S k).

Inductive wstatus : Type :=
| WReturned            (* [copy_blocks] returned; the child then calls [exit(0)] *)
| WExited (code : Z)   (* [exit(code)] inside [copy_blocks] *)
| WRunning.            (* still running when the fuel ran out *)

Inductive send_result : Type :=
| SendDone (oracle : nat -> sf_resp) (dest_pos offset to_send : Z)
| SendFatal
| SendRunning.

Definition is_transient (errno : Z) : bool := (errno =? EINTR) || (errno =? EAGAIN).

Definition with_event {A : Type} (e : event) (r : list event * A) : list event * A :=
  (e :: fst r, snd r).

(** The inner loop, lines 98-112:
    [while (to_send > 0 && offset < file_size) { bytes_sent = sendfile(...); ... }] *)
Fixpoint sendfile_loop (fuel : nat) (file_size : Z) (oracle : nat -> sf_resp)
         (dest_pos offset to_send : Z) : list event * send_result :=
  if (0 <? to_send) && (offset <? file_size) then
    match fuel with
    | O => ([], SendRunning)
    | S fuel' =>
        let r := oracle O in
        let bytes_sent := sendfile_ret file_size offset (to_size to_send) r in
        let ev := EvSendfile dest_pos offset to_send bytes_sent (sendfile_errno r) in
        if bytes_sent <=? 0 then
          if is_transient (sendfile_errno r) then
            with_event ev
              (sendfile_loop fuel' file_size (oracle_tail oracle) dest_pos offset to_send)
          else ([ev], SendFatal)
        else
          with_event ev
            (sendfile_loop fuel' file_size (oracle_tail oracle)
               (dest_pos + bytes_sent) (offset + bytes_sent)
               (to_off (to_send - bytes_sent)))
    end
  else ([], SendDone oracle dest_pos offset to_send).

(** The outer loop, lines 87-119. *)
Fixpoint block_loop (fuel : nat) (seekable : bool) (file_size num_processes block_size : Z)
         (oracle : nat -> sf_resp) (offset dest_offset : Z) : list event * wstatus :=
  if offset <? file_size then
    match fuel with
    | O => ([], WRunning)
    | S fuel' =>
        if lseek_ok seekable dest_offset then
          match sendfile_loop fuel' file_size oracle dest_offset offset (to_off block_size) with
          | (tr, SendDone oracle' _ offset' _) =>
              let dest_offset' := off_add_size dest_offset (size_mul num_processes block_size) in
              let offset'' := off_add_size offset' (size_mul (to_int (num_processes - 1)) block_size) in
              let rest := block_loop fuel' seekable file_size num_processes block_size
                                     oracle' offset'' dest_offset' in
              (EvSeek offset dest_offset true :: tr ++ fst rest, snd rest)
          | (tr, SendFatal) =>
              (EvSeek offset dest_offset true
                 :: tr ++ [EvPerror ErrSendfile; EvClose SourceFd; EvClose DestFd],
               WExited 1)
          | (tr, SendRunning) =>
              (EvSeek offset dest_offset true :: tr, WRunning)
          end
        else
          ([EvSeek offset dest_offset false; EvPerror ErrSeek;
            EvClose SourceFd; EvClose DestFd], WExited 1)
    end
  else ([EvClose SourceFd; EvClose DestFd], WReturned).

(** [copy_blocks], lines 63-124. *)
Definition copy_blocks (fuel : nat) (env : worker_env)
           (file_size process_num num_processes block_size : Z) : list event * wstatus :=
  let offset := to_off (size_mul process_num block_size) in
  let dest_offset := offset in
  if open_source_ok env then
    if open_dest_ok env then
      let run := block_loop fuel (dest_seekable env) file_size num_processes block_size
                            (sendfile_oracle env) offset dest_offset in
      (EvOpen SourceFd true :: EvOpen DestFd true :: fst run, snd run)
    else ([EvOpen SourceFd true; EvOpen DestFd false; EvPerror ErrOpenDest;
           EvClose SourceFd], WExited 1)
  else ([EvOpen SourceFd false; EvPerror ErrOpenSource], WExited 1).

(** *** Reading a trace *)

(** Bytes moved by the [sendfile] calls at the head of a trace. *)
Fixpoint block_moved (tr : list event) : Z :=
  match tr with
  | EvSendfile _ _ _ n _ :: tr' => Z.max n 0 + block_moved tr'
  | _ => 0
  end.

(** The byte ranges [(source offset, length)] a trace processes, one for
    each block it starts. *)
Fixpoint ranges_of (tr : list event) : list (Z * Z) :=
  match tr with
  | [] => []
  | EvSeek o _ true :: tr' => (o, block_moved tr') :: ranges_of tr'
  | _ :: tr' => ranges_of tr'
  end.

(** Number of [sendfile] calls in a trace. *)
Fixpoint transfer_calls (tr : list event) : nat :=
  match tr with
  | [] => O
  | EvSendfile _ _ _ _ _ :: tr' => S (transfer_calls tr')
  | _ :: tr' => transfer_calls tr'
  end.

(** Length of the destination file after the writes of a trace, starting
    from length [len]. *)
Fixpoint dest_length (len : Z) (tr : list event) : Z :=
  match tr with
  | [] => len
  | EvSendfile p _ _ n _ :: tr' =>
      dest_length (if 0 <? n then Z.max len (p + n) else len) tr'
  | _ :: tr' => dest_length len tr'
  end.

(** An environment in which nothing fails and every [sendfile] moves all
    it is asked for. *)
Definition ideal_env : worker_env :=
  {| open_source_ok := true; open_dest_ok := true; dest_seekable := true;
     sendfile_oracle := fun _ => SfMoved (Z.to_pos OFF_MAX) |}.


(* ================================================================= *)
(** ** The partition plan, in the words of the design document *)

(** Ranges [(offset, length)] from [off] on: one range of
    [min(block_size, file_size - off)] bytes at [off], the next one [stride]
    further, until the offset reaches [file_size].  [fuel] bounds the number
    of ranges; [plan_complete] below shows that the bound is never met. *)
Fixpoint planner_from (fuel : nat) (file_size block_size stride off : Z) : list (Z * Z) :=
  match fuel with
  | O => []
  | S fuel' =>
      if off <? file_size then
        (off, Z.min block_size (file_size - off))
          :: planner_from fuel' file_size block_size stride (off + stride)
      else []
  end.

(** The plan of worker [worker_index]: first offset
    [worker_index * block_size], stride [worker_count * block_size]. *)
Definition planner (file_size block_size worker_count worker_index : Z) : list (Z * Z) :=
  planner_from (Z.to_nat file_size) file_size block_size
               (worker_count * block_size) (worker_index * block_size).

(** Byte [b] lies in the range [r]. *)
Definition in_range (b : Z) (r : Z * Z) : Prop := fst r <= b < fst r + snd r.

(** An event is a [sendfile] call whose destination position is [delta]
    ahead of its source offset. *)
Definition is_transfer_from (delta : Z) (e : event) : Prop :=
  match e with
  | EvSendfile p o _ _ _ => p - o = delta
  | _ => False
  end.

(** The loop invariant the C comments describe: the destination offset is
    the source offset. *)
Definition aligned (e : event) : Prop :=
  match e with
  | EvSeek o d _ => o = d
  | EvSendfile p o _ _ _ => p = o
  | _ => True
  end.

(** Every [sendfile] of the oracle moves data. *)
Definition always_moves (oracle : nat -> sf_resp) : Prop :=
  forall k, exists p, oracle k = SfMoved p.

(** The offsets [(source, destination)] at the head of each block. *)
Fixpoint seeks_of (tr : list event) : list (Z * Z) :=
  match tr with
  | [] => []
  | EvSeek o d _ :: tr' => (o, d) :: seeks_of tr'
  | _ :: tr' => seeks_of tr'
  end.


(* ================================================================= *)
(** ** Processes: events, children and the way a process ends *)

Record timeval : Type := { tv_sec : Z; tv_usec : Z }.

(** [RunResult], lines 42-47.  [elapsed_time] is a [double] in C; it is kept
    here as the rational number it stands for, and only its order is used. *)
Record RunResult : Type := {
  num_processes : Z;
  block_size : Z;
  elapsed_time : Q;
  shift_value : Z
}.

(** The messages on [stderr]. *)
Inductive error : Type :=
| ErrUsage          (* "Usage: ..." *)
| ErrNotRoot        (* "You need to be root to run with -o option." *)
| ErrDropCaches     (* "Error opening /proc/sys/vm/drop_caches" *)
| ErrStat           (* "Error getting file status" *)
| ErrCreateDest     (* "Error creating destination file" *)
| ErrFork           (* "Error forking process" *)
| ErrUnlink         (* "Error deleting destination file" *)
| ErrMaxRuns        (* "Exceeded maximum runs." *)
| ErrMalloc.        (* "Failed to allocate memory for results" *)

(** Events of the parent process.  [PFork i (Some run)] is a successful
    [fork]: the child is worker [i] and [run] is what it does. *)
Inductive pevent : Type :=
| PBanner
| PStderr (e : error)
| PDropCaches
| PStat (size : Z)
| PCreateDest                    (* [open(O_WRONLY|O_CREAT|O_TRUNC)], [close] *)
| PTime (t : timeval)
| PFork (i : Z) (child : option (list event * wstatus))
| PWait
| PCompleted (elapsed : Q)       (* "Operation completed in ... seconds." *)
| PThroughput                    (* "Throughput: ... MiB/s" *)
| PUnlink
| PTesting (nproc shift kib : Z) (* "Testing with -p ... and -s ... (... KiB)" *)
| PStarting (nproc kib : Z)      (* "Starting ... processes ..." *)
| PFastest (runs : list (Z * RunResult))
| PSlowest (runs : list (Z * RunResult)).

(** How a piece of the parent's code ends: it goes on with a value, it
    calls [exit], it blocks for ever in [wait], or it uses a value C does
    not define. *)
Inductive outcome (A : Type) : Type :=
| Returned (a : A)
| Exited (code : Z)
| Blocked
| Undefined.
Arguments Returned {A} a.
Arguments Exited {A} code.
Arguments Blocked {A}.
Arguments Undefined {A}.

Record proc (A : Type) : Type := {
  p_events : list pevent;
  p_out : outcome A
}.
Arguments p_events {A} p.
Arguments p_out {A} p.

Definition ret {A : Type} (a : A) : proc A := {| p_events := []; p_out := Returned a |}.

Definition bind {A B : Type} (m : proc A) (f : A -> proc B) : proc B :=
  match p_out m with
  | Returned a =>
      let r := f a in
      {| p_events := p_events m ++ p_events r; p_out := p_out r |}
  | Exited c => {| p_events := p_events m; p_out := Exited c |}
  | Blocked => {| p_events := p_events m; p_out := Blocked |}
  | Undefined => {| p_events := p_events m; p_out := Undefined |}
  end.

Notation "x <- m ;; k" := (bind m (fun x => k))
  (at level 61, m at next level, right associativity).
Notation "m ;;; k" := (bind m (fun _ => k))
  (at level 61, right associativity).

Definition emit (e : pevent) : proc unit := {| p_events := [e]; p_out := Returned tt |}.

(** [perror(...); exit(1)] and the like. *)
Definition die {A : Type} (e : error) : proc A :=
  {| p_events := [PStderr e]; p_out := Exited 1 |}.

Definition stop {A : Type} (o : outcome A) : proc A := {| p_events := []; p_out := o |}.

(* ================================================================= *)
(** ** The parent of one copy: [perform_copy] *)

(** How the calls of one [perform_copy] turn out. *)
Record copy_env : Type := {
  stat_size : option Z;          (* [st_size] of the source, [None]: [stat] fails *)
  create_dest_ok : bool;
  fork_ok : Z -> bool;           (* does the fork of worker [i] succeed *)
  worker : Z -> worker_env;      (* the calls of worker [i] *)
  worker_fuel : nat;
  start_time : timeval;
  end_time : timeval
}.

(** Lines 151-162: [for (int i = 0; i < num_processes; i++)]; [count] is
    the number of rounds left, [i] the loop variable. *)
Fixpoint fork_loop (count : nat) (env : copy_env) (file_size i num_processes block_size : Z)
  : proc unit :=
  match count with
  | O => ret tt
  | S count' =>
      if fork_ok env i then
        emit (PFork i (Some (copy_blocks (worker_fuel env) (worker env i)
                                         file_size i num_processes block_size))) ;;;
        fork_loop count' env file_size (i + 1) num_processes block_size
      else
        emit (PFork i None) ;;; die ErrFork
  end.

(** What the children of a run do. *)
Fixpoint children (evs : list pevent) : list (Z * (list event * wstatus)) :=
  match evs with
  | [] => []
  | PFork i (Some run) :: evs' => (i, run) :: children evs'
  | _ :: evs' => children evs'
  end.

Definition terminated (st : wstatus) : bool :=
  match st with
  | WRunning => false
  | _ => true
  end.

(** The status a child process ends with: [copy_blocks] returns and the
    child calls [exit(0)], or [copy_blocks] called [exit] itself. *)
Definition exit_status (st : wstatus) : option Z :=
  match st with
  | WReturned => Some 0
  | WExited c => Some c
  | WRunning => None
  end.

(** Lines 165-167: one [wait(NULL)] for each child; the status is thrown
    away.  The loop gets through when every child has ended. *)
Fixpoint wait_loop (count : nat) : proc unit :=
  match count with
  | O => ret tt
  | S count' => emit PWait ;;; wait_loop count'
  end.

Definition wait_all (forked : list (Z * (list event * wstatus))) (count : nat) : proc unit :=
  if forallb (fun c => terminated (snd (snd c))) forked then wait_loop count
  else stop Blocked.

Definition elapsed (t0 t1 : timeval) : Q :=
  (inject_Z (tv_sec t1 - tv_sec t0) + ((tv_usec t1 - tv_usec t0) # 1000000))%Q.

(** [perform_copy], lines 126-178.  The three fields of [*result] it
    assigns are assigned in [result]. *)
Definition perform_copy (env : copy_env) (num_processes block_size : Z) (result : RunResult)
  : proc RunResult :=
  match stat_size env with
  | None => die ErrStat
  | Some file_size =>
      emit (PStat file_size) ;;;
      (if create_dest_ok env then emit PCreateDest else die ErrCreateDest) ;;;
      emit (PTime (start_time env)) ;;;
      let forks := fork_loop (Z.to_nat num_processes) env file_size 0 num_processes block_size in
      forks ;;;
      wait_all (children (p_events forks)) (Z.to_nat num_processes) ;;;
      emit (PTime (end_time env)) ;;;
      let result' := {| num_processes := num_processes;
                        block_size := block_size;
                        elapsed_time := elapsed (start_time env) (end_time env);
                        shift_value := shift_value result |} in
      emit (PCompleted (elapsed_time result')) ;;;
      emit PThroughput ;;;
      ret result'
  end.

(** *** Reading the events of the parent *)

(** Length of the destination file after the events, [None] when there is
    no such file.  Before them the state is [st]. *)
Fixpoint dest_after (st : option Z) (evs : list pevent) : option Z :=
  match evs with
  | [] => st
  | PCreateDest :: evs' => dest_after (Some 0) evs'
  | PUnlink :: evs' => dest_after None evs'
  | PFork _ (Some run) :: evs' =>
      dest_after (option_map (fun len => dest_length len (fst run)) st) evs'
  | _ :: evs' => dest_after st evs'
  end.

(** Number of [sendfile] calls made by all children. *)
Definition all_transfer_calls (evs : list pevent) : nat :=
  fold_right (fun c acc => (transfer_calls (fst (snd c)) + acc)%nat) O (children evs).

Definition stderr_of (evs : list pevent) : list error :=
  flat_map (fun e => match e with PStderr x => [x] | _ => [] end) evs.

(* ================================================================= *)
(** ** The benchmark sweep: [find_optimal_settings] *)

Definition MAX_RUNS : Z := 1000.

Definition Qlt_bool (x y : Q) : bool := negb (Qle_bool y x).

Definition Z_of_bool (b : bool) : Z := if b then 1 else 0.

(** [compare_run_results], lines 180-184. *)
Definition compare_run_results (a b : RunResult) : Z :=
  Z_of_bool (Qlt_bool (elapsed_time b) (elapsed_time a))
  - Z_of_bool (Qlt_bool (elapsed_time a) (elapsed_time b)).

(** [qsort] of the C library with the comparison above.  C fixes neither
    the algorithm nor the order of equal elements; an insertion sort stands
    for it, and nothing below depends on the order it gives to ties. *)
Fixpoint qsort_insert (x : RunResult) (l : list RunResult) : list RunResult :=
  match l with
  | [] => [x]
  | y :: l' => if compare_run_results x y <=? 0 then x :: l else y :: qsort_insert x l'
  end.

Definition qsort (l : list RunResult) : list RunResult := fold_right qsort_insert [] l.

Definition zero_result : RunResult :=
  {| num_processes := 0; block_size := 0; elapsed_time := 0%Q; shift_value := 0 |}.

(** [results[i]]. *)
Definition result_at (results : list RunResult) (i : Z) : RunResult :=
  nth (Z.to_nat i) results zero_result.

(** Lines 233-236: [for (i = 0; i < 5 && i < run_index; i++)]; each line
    printed is the pair of its number [i + 1] and [results[i]]. *)
Fixpoint fastest_loop (fuel : nat) (i run_index : Z) (results : list RunResult)
  : list (Z * RunResult) :=
  match fuel with
  | O => []
  | S fuel' =>
      if (i <? 5) && (i <? run_index) then
        (i + 1, result_at results i) :: fastest_loop fuel' (i + 1) run_index results
      else []
  end.

(** Lines 239-242: [for (i = run_index - 1; i >= run_index - 5 && i >= 0; i--)];
    the number printed is [run_index - i]. *)
Fixpoint slowest_loop (fuel : nat) (i run_index : Z) (results : list RunResult)
  : list (Z * RunResult) :=
  match fuel with
  | O => []
  | S fuel' =>
      if (run_index - 5 <=? i) && (0 <=? i) then
        (run_index - i, result_at results i) :: slowest_loop fuel' (i - 1) run_index results
      else []
  end.

(** Lines 229-242: sort the first [run_index] results, print both lists.
    Either loop takes five rounds at most. *)
Definition report (results : list RunResult) : proc unit :=
  let run_index := Z.of_nat (length results) in
  let sorted := qsort results in
  emit (PFastest (fastest_loop 5 0 run_index sorted)) ;;;
  emit (PSlowest (slowest_loop 5 (run_index - 1) run_index sorted)).

(** How the calls of one round of the sweep turn out. *)
Record run_env : Type := {
  drop_caches_ok : bool;
  copy : copy_env;
  unlink_ok : bool
}.

(** [block_sizes[]], line 189. *)
Definition block_sizes : list Z :=
  [64 * 1024; 128 * 1024; 256 * 1024; 512 * 1024; 1024 * 1024].

(** [drop_caches], lines 53-61. *)
Definition drop_caches (ok : bool) : proc unit :=
  if ok then emit PDropCaches else die ErrDropCaches.

(** The inner loop, lines 203-226, over the indices [is] still to come.
    [results] holds [results[0 .. run_index - 1]], the entries written so
    far; [env k] describes the calls of round [k]. *)
Fixpoint sweep_sizes (env : nat -> run_env) (num_processes : Z) (indices : list Z)
         (results : list RunResult) : proc (list RunResult) :=
  match indices with
  | [] => ret results
  | i :: indices' =>
      let run_index := Z.of_nat (length results) in
      if MAX_RUNS <=? run_index then
        emit (PStderr ErrMaxRuns) ;;; ret results
      else
        let e := env (length results) in
        let size := nth (Z.to_nat i) block_sizes 0 in
        drop_caches (drop_caches_ok e) ;;;
        let shift := to_int (6 + i) in
        emit (PTesting num_processes shift (size / 1024)) ;;;
        r <- perform_copy (copy e) num_processes size
               {| num_processes := 0; block_size := 0; elapsed_time := 0%Q;
                  shift_value := shift |} ;;
        (if unlink_ok e then emit PUnlink else die ErrUnlink) ;;;
        sweep_sizes env num_processes indices' (results ++ [r])
  end.

(** The outer loop, lines 201-227, over the values of [processes_per_cpu]
    still to come. *)
Fixpoint sweep_counts (env : nat -> run_env) (num_cpus : Z) (per_cpu : list Z)
         (results : list RunResult) : proc (list RunResult) :=
  match per_cpu with
  | [] => ret results
  | processes_per_cpu :: per_cpu' =>
      let num_processes := int_mul processes_per_cpu num_cpus in
      results' <- sweep_sizes env num_processes [0; 1; 2; 3; 4] results ;;
      sweep_counts env num_cpus per_cpu' results'
  end.

(** The two loops alone: the runs collected. *)
Definition sweep (env : nat -> run_env) (num_cpus : Z) : proc (list RunResult) :=
  sweep_counts env num_cpus [1; 2; 3; 4; 5; 6] [].

(** How the calls of the whole sweep turn out: the [malloc] of the table
    of results, and the calls of round [k]. *)
Record sweep_env : Type := {
  malloc_ok : bool;
  rounds : nat -> run_env
}.

(** [find_optimal_settings], lines 186-245: the table is allocated (lines
    193-198), filled by the two loops, sorted and reported. *)
Definition find_optimal_settings (env : sweep_env) (num_cpus : Z) : proc unit :=
  if malloc_ok env then
    results <- sweep (rounds env) num_cpus ;;
    report results
  else die ErrMalloc.

(* ================================================================= *)
(** ** The command line: [main] *)

(** What [getopt(argc, argv, "p:s:o")] returns, with the value of
    [atoi(optarg)] where there is an argument.  [OptBad] is ['?']. *)
Inductive option_arg : Type :=
| OptP (n : Z)
| OptS (n : Z)
| OptO
| OptBad.

Record cmdline : Type := {
  options : list option_arg;
  operands : Z                  (* [argc - optind] after the options *)
}.

Record main_env : Type := {
  euid : Z;
  nprocs : Z;                   (* [get_nprocs()] *)
  the_copy : copy_env;
  the_sweep : sweep_env
}.

(** The locals of [main].  [m_block_size] is [None] until it is assigned,
    and after the assignment of a value C does not define. *)
Record main_state : Type := {
  m_num_processes : Z;
  m_shift_value : Z;
  m_optimize : Z;
  m_block_size : option Z
}.

(** [64 * 1024 * (1 << (shift_value - 6))], lines 265 and 293: computed on
    [int], then converted to [size_t]. *)
Definition block_size_of_shift (shift : Z) : option Z :=
  match int_shl 1 (to_int (shift - 6)) with
  | Some v => Some (to_size (int_mul (int_mul 64 1024) v))
  | None => None
  end.

(** The [getopt] loop, lines 257-278. *)
Fixpoint parse_options (env : main_env) (opts : list option_arg) (st : main_state)
  : proc main_state :=
  match opts with
  | [] => ret st
  | OptP n :: opts' =>
      parse_options env opts'
        {| m_num_processes := n; m_shift_value := m_shift_value st;
           m_optimize := m_optimize st; m_block_size := m_block_size st |}
  | OptS n :: opts' =>
      parse_options env opts'
        {| m_num_processes := m_num_processes st; m_shift_value := n;
           m_optimize := m_optimize st; m_block_size := block_size_of_shift n |}
  | OptO :: opts' =>
      if euid env =? 0 then
        parse_options env opts'
          {| m_num_processes := m_num_processes st; m_shift_value := m_shift_value st;
             m_optimize := 1; m_block_size := m_block_size st |}
      else die ErrNotRoot
  | OptBad :: _ => emit (PStderr ErrUsage) ;;; stop (Exited 1)
  end.

(** Lines 285-294: the defaults. *)
Definition apply_defaults (env : main_env) (st : main_state) : main_state :=
  let num_processes :=
    if m_num_processes st =? 0 then int_mul (nprocs env) 4 else m_num_processes st in
  if m_shift_value st =? 0 then
    {| m_num_processes := num_processes; m_shift_value := 10;
       m_optimize := m_optimize st; m_block_size := block_size_of_shift 10 |}
  else
    {| m_num_processes := num_processes; m_shift_value := m_shift_value st;
       m_optimize := m_optimize st; m_block_size := m_block_size st |}.

Definition initial_state : main_state :=
  {| m_num_processes := 0; m_shift_value := 0; m_optimize := 0; m_block_size := None |}.

(** [main], lines 247-305.  The value returned is the exit code. *)
Definition main (env : main_env) (cmd : cmdline) : proc Z :=
  emit PBanner ;;;
  st <- parse_options env (options cmd) initial_state ;;
  if operands cmd <? 2 then
    emit (PStderr ErrUsage) ;;; ret 1
  else
    let st' := apply_defaults env st in
    if negb (m_optimize st' =? 0) then
      find_optimal_settings (the_sweep env) (nprocs env) ;;; ret 0
    else
      match m_block_size st' with
      | None => stop Undefined
      | Some size =>
          emit (PStarting (m_num_processes st') (size / 1024)) ;;;
          perform_copy (the_copy env) (m_num_processes st') size zero_result ;;;
          ret 0
      end.

(** The code the process ends with. *)
Definition exit_code (p : proc Z) : option Z :=
  match p_out p with
  | Returned c => Some c
  | Exited c => Some c
  | Blocked => None
  | Undefined => None
  end.

(** The calls of a worker all succeed; a [sendfile] may still move less
    than it was asked for. *)
Definition calls_succeed (env : worker_env) : Prop :=
  open_source_ok env = true /\ open_dest_ok env = true /\
  dest_seekable env = true /\ always_moves (sendfile_oracle env).

(** An environment in which every [sendfile] moves one byte. *)
Definition bytewise_env : worker_env :=
  {| open_source_ok := true; open_dest_ok := true; dest_seekable := true;
     sendfile_oracle := fun _ => SfMoved 1 |}.

(** [i; i + 1; ...], [count] numbers: the values of a loop variable. *)
Fixpoint zrange (i : Z) (count : nat) : list Z :=
  match count with
  | O => []
  | S count' => i :: zrange (i + 1) count'
  end.

(** *** Reading a command line *)

(** The value the last [-p] leaves in [num_processes] ([d] when there is
    none), and likewise for [-s]. *)
Fixpoint last_count (opts : list option_arg) (d : Z) : Z :=
  match opts with
  | [] => d
  | OptP n :: opts' => last_count opts' n
  | _ :: opts' => last_count opts' d
  end.

Fixpoint last_shift (opts : list option_arg) (d : Z) : Z :=
  match opts with
  | [] => d
  | OptS n :: opts' => last_shift opts' n
  | _ :: opts' => last_shift opts' d
  end.

Fixpoint last_size (opts : list option_arg) (d : option Z) : option Z :=
  match opts with
  | [] => d
  | OptS n :: opts' => last_size opts' (block_size_of_shift n)
  | _ :: opts' => last_size opts' d
  end.

(** Only [-p] and [-s] are given. *)
Definition plain (o : option_arg) : bool :=
  match o with
  | OptP _ | OptS _ => true
  | _ => false
  end.

(** *** Fatal errors *)

Definition is_fatal (e : error) : bool :=
  match e with
  | ErrMaxRuns => false
  | _ => true
  end.

(** The parent printed a fatal error. *)
Definition has_fatal (evs : list pevent) : bool := existsb is_fatal (stderr_of evs).

(** A worker ended with a status other than 0. *)
Definition worker_failed (evs : list pevent) : bool :=
  existsb (fun c => match exit_status (snd (snd c)) with
                    | Some code => negb (code =? 0)
                    | None => false
                    end) (children evs).

(** The parent's part of one copy goes through: [stat], the creation of the
    destination and every [fork] succeed, and the children end. *)
Definition parent_calls_succeed (env : copy_env) (num_processes block_size : Z) : Prop :=
  exists file_size,
    stat_size env = Some file_size /\
    create_dest_ok env = true /\
    (forall i, 0 <= i < num_processes -> fork_ok env i = true) /\
    (forall i, 0 <= i < num_processes ->
               terminated (snd (copy_blocks (worker_fuel env) (worker env i)
                                            file_size i num_processes block_size)) = true).

(** How a trace treats the [sendfile] calls that return zero or less: when
    [errno] is [EINTR] or [EAGAIN] the next event is the same call again
    (or the trace ends there, the worker still running); with any other
    [errno] the worker prints its message, closes both descriptors and
    exits with status 1, and nothing else follows. *)
Fixpoint retry_discipline (tr : list event) (st : wstatus) : Prop :=
  match tr with
  | [] => True
  | EvSendfile p o c r e :: rest =>
      (r <= 0 -> e = EINTR \/ e = EAGAIN ->
       match rest with
       | [] => st = WRunning
       | next :: _ => exists r' e', next = EvSendfile p o c r' e'
       end) /\
      (r <= 0 -> e <> EINTR -> e <> EAGAIN ->
       rest = [EvPerror ErrSendfile; EvClose SourceFd; EvClose DestFd] /\ st = WExited 1) /\
      retry_discipline rest st
  | _ :: rest => retry_discipline rest st
  end.

(** A worker whose [sendfile] is interrupted, then would block, then
    returns 0 with the [errno] of the call before, and then moves data. *)
Definition flaky_env : worker_env :=
  {| open_source_ok := true; open_dest_ok := true; dest_seekable := true;
     sendfile_oracle := fun k => match k with
                                 | O => SfError EINTR
                                 | S O => SfError EAGAIN
                                 | S (S O) => SfEof EAGAIN
                                 | _ => SfMoved 4
                                 end |}.

(** The oracle that answers [r] to the first [k] calls and goes on as
    [oracle]. *)
Fixpoint after_failures (k : nat) (r : sf_resp) (oracle : nat -> sf_resp) : nat -> sf_resp :=
  match k with
  | O => oracle
  | S k' => fun j => match j with
                     | O => r
                     | S j' => after_failures k' r oracle j'
                     end
  end.

(** Sample environments. *)
Definition sample_copy_env (size : option Z) (w : Z -> worker_env) : copy_env :=
  {| stat_size := size; create_dest_ok := true; fork_ok := fun _ => true;
     worker := w; worker_fuel := 8;
     start_time := {| tv_sec := 100; tv_usec := 250000 |};
     end_time := {| tv_sec := 101; tv_usec := 750000 |} |}.

(** A worker whose first [sendfile] fails with [EIO]. *)
Definition failing_env : worker_env :=
  {| open_source_ok := true; open_dest_ok := true; dest_seekable := true;
     sendfile_oracle := fun _ => SfError EIO |}.

(** Worker 0 is interrupted before it copies, every other worker fails
    with [EIO]. *)
Definition mixed_workers : Z -> worker_env :=
  fun j => if j =? 0 then flaky_env else failing_env.

(** The block size [main] hands on for [-s 21]: [64 * 1024 * (1 << 15)]
    leaves [int], and the conversion to [size_t] gives [2^64 - 2^31]. *)
Definition shift_21_block : Z := 18446744071562067968.

(** The shift value [main] settles on: 10 when [-s] leaves 0. *)
Definition resolved_shift (opts : list option_arg) : Z :=
  if last_shift opts 0 =? 0 then 10 else last_shift opts 0.

(** The worker count [main] settles on. *)
Definition resolved_count (env : main_env) (opts : list option_arg) : Z :=
  if last_count opts 0 =? 0 then int_mul (nprocs env) 4 else last_count opts 0.

(** The event of the fork of worker [j]. *)
Definition fork_event (env : copy_env) (fs n bs : Z) (j : Z) : pevent :=
  PFork j (Some (copy_blocks (worker_fuel env) (worker env j) fs j n bs)).

(** A piece of the parent's code keeps the rule of the exit codes: it ends
    with [exit(1)] after a fatal message, and goes on without one. *)
Definition clean {A : Type} (p : proc A) : Prop :=
  match p_out p with
  | Returned _ => has_fatal (p_events p) = false
  | Exited c => c = 1 /\ has_fatal (p_events p) = true
  | _ => True
  end.

(** The same for [main], whose value is the exit code. *)
Definition good (p : proc Z) : Prop :=
  match p_out p with
  | Returned c | Exited c =>
      (c = 0 \/ c = 1) /\ (c = 1 <-> has_fatal (p_events p) = true)
  | _ => True
  end.

(** A sample machine: not root, four processors. *)
Definition sample_main_env (c : copy_env) : main_env :=
  {| euid := 1000; nprocs := 4; the_copy := c;
     the_sweep :=
       {| malloc_ok := true;
          rounds := fun _ => {| drop_caches_ok := true; copy := c; unlink_ok := true |} |} |}.

(** What identifies a run of the sweep: worker count, shift value, block
    size. *)
Definition run_key (r : RunResult) : Z * Z * Z :=
  (num_processes r, shift_value r, block_size r).

(** The calls of one round of the sweep succeed. *)
Definition run_ok (e : run_env) (num_processes block_size : Z) : Prop :=
  drop_caches_ok e = true /\ unlink_ok e = true /\
  parent_calls_succeed (copy e) num_processes block_size.

(** The cell of the grid at index [i] of the inner loop, for a worker
    count. *)
Definition grid_cell (num_processes i : Z) : Z * Z * Z :=
  (num_processes, to_int (6 + i), nth (Z.to_nat i) block_sizes 0).

(** Run [a] took no longer than run [b]. *)
Definition no_slower (a b : RunResult) : Prop := (elapsed_time a <= elapsed_time b)%Q.

(** A sample sweep: an empty source, nothing fails. *)
Definition sample_sweep_env : nat -> run_env :=
  fun _ => {| drop_caches_ok := true;
              copy := sample_copy_env (Some 0) (fun _ => ideal_env);
              unlink_ok := true |}.

Definition sample_sweep : sweep_env :=
  {| malloc_ok := true; rounds := sample_sweep_env |}.

(** The events of round [k] of the sweep on the cell
    [(num_processes, shift_value, block_size)]: the cache drop, the line
    "Testing with ...", the copy with that worker count and block size,
    and the unlink of the destination. *)
Definition round_events (env : nat -> run_env) (k : nat) (cell : Z * Z * Z) : list pevent :=
  PDropCaches
    :: PTesting (fst (fst cell)) (snd (fst cell)) (snd cell / 1024)
    :: p_events (perform_copy (copy (env k)) (fst (fst cell)) (snd cell)
                   {| num_processes := 0; block_size := 0; elapsed_time := 0%Q;
                      shift_value := snd (fst cell) |})
    ++ [PUnlink].

(** The rounds [k], [k + 1], ... on the cells of a list, one after the
    other. *)
Fixpoint rounds_events (env : nat -> run_env) (k : nat) (cells : list (Z * Z * Z))
  : list pevent :=
  match cells with
  | [] => []
  | cell :: cells' => round_events env k cell ++ rounds_events env (S k) cells'
  end.

Definition sample_result (n : Z) (t : Q) : RunResult :=
  {| num_processes := n; block_size := 65536; elapsed_time := t; shift_value := 6 |}.

(* ================================================================= *)
(** ** File contents *)

(** The source holds a byte at every position below its size; the
    destination holds, at each position, the byte written there since it
    was created, if any. *)
Definition source_file : Type := Z -> Byte.byte.
Definition dest_file : Type := Z -> option Byte.byte.

Definition created : dest_file := fun _ => None.

(** The effect of a [sendfile] that moved [n] bytes from source offset [o]
    to the destination position [p]. *)
Definition write_bytes (src : source_file) (p o n : Z) (dst : dest_file) : dest_file :=
  fun b => if (p <=? b) && (b <? p + n) then Some (src (b - p + o)) else dst b.

(** The destination after the [sendfile] calls of a trace, in the order of
    the trace. *)
Fixpoint apply_trace (src : source_file) (tr : list event) (dst : dest_file) : dest_file :=
  match tr with
  | [] => dst
  | EvSendfile p o _ n _ :: tr' =>
      apply_trace src tr' (if 0 <? n then write_bytes src p o n dst else dst)
  | _ :: tr' => apply_trace src tr' dst
  end.

(** The event writes the destination position [b]. *)
Definition covers (b : Z) (e : event) : Prop :=
  match e with
  | EvSendfile p _ _ n _ => p <= b < p + n
  | _ => False
  end.

(** A [sendfile] that moves data reads inside [[lo, hi)] and writes where it
    reads. *)
Definition faithful (lo hi : Z) (e : event) : Prop :=
  match e with
  | EvSendfile p o _ n _ => 0 < n -> p = o /\ lo <= o /\ o + n <= hi
  | _ => True
  end.

(** The events of all workers of one copy, worker after worker. *)
Definition all_events (fuel : nat) (envs : Z -> worker_env) (fs n bs : Z) : list event :=
  flat_map (fun i => fst (copy_blocks fuel (envs i) fs i n bs)) (zrange 0 (Z.to_nat n)).

(** A sample source: ['A'] at the even positions, ['B'] at the odd ones. *)
Definition sample_source : source_file :=
  fun b => if Z.even b then Byte.x41 else Byte.x42.

(** A [sendfile] that moves data writes where it reads, inside one of the
    blocks at [off + k * stride], cut at the end of the file. *)
Definition owned (fs bs stride off : Z) (e : event) : Prop :=
  match e with
  | EvSendfile p o _ n _ =>
      0 < n ->
      p = o /\
      exists k : nat,
        off + Z.of_nat k * stride < fs /\
        off + Z.of_nat k * stride <= o /\
        o + n <= off + Z.of_nat k * stride + Z.min bs (fs - (off + Z.of_nat k * stride))
  | _ => True
  end.

(* ================================================================= *)
(** ** Descriptors *)

(** Which of the two descriptors are open, [(source, destination)], and
    what an event does to them.  [None]: the event uses a descriptor that
    is not open, or opens one that is. *)
Definition fd_step (st : bool * bool) (e : event) : option (bool * bool) :=
  match e, st with
  | EvOpen SourceFd ok, (false, d) => Some (ok, d)
  | EvOpen DestFd ok, (s, false) => Some (s, ok)
  | EvClose SourceFd, (true, d) => Some (false, d)
  | EvClose DestFd, (s, true) => Some (s, false)
  | EvSeek _ _ _, (true, true) => Some st
  | EvSendfile _ _ _ _ _, (true, true) => Some st
  | EvPerror _, _ => Some st
  | _, _ => None
  end.

Fixpoint fd_run (st : bool * bool) (tr : list event) : option (bool * bool) :=
  match tr with
  | [] => Some st
  | e :: tr' =>
      match fd_step st e with
      | Some st' => fd_run st' tr'
      | None => None
      end
  end.

(** A worker whose [sendfile] is interrupted once and then moves data. *)
Definition interrupted_env : worker_env :=
  {| open_source_ok := true; open_dest_ok := true; dest_seekable := true;
     sendfile_oracle := after_failures 1 (SfError EINTR) (fun _ => SfMoved 2) |}.

(* ================================================================= *)
(** ** Reading the events of the sweep *)

(** Events only [find_optimal_settings] itself can produce: the warning
    about the cap and the two lists of the report. *)
Definition cap_or_report (e : pevent) : bool :=
  match e with
  | PStderr ErrMaxRuns => true
  | PFastest _ => true
  | PSlowest _ => true
  | _ => false
  end.

Definition is_report (e : pevent) : bool :=
  match e with
  | PFastest _ => true
  | PSlowest _ => true
  | _ => false
  end.

Definition is_wait (e : pevent) : bool :=
  match e with
  | PWait => true
  | _ => false
  end.

(** [P] holds of no event of the list. *)
Definition absent (P : pevent -> bool) (evs : list pevent) : Prop :=
  forallb (fun e => negb (P e)) evs = true.

(** A copy in which the first [j] forks succeed and the next one fails. *)
Definition fork_limited_env (j : Z) : copy_env :=
  {| stat_size := Some 4096; create_dest_ok := true; fork_ok := fun i => i <? j;
     worker := fun _ => ideal_env; worker_fuel := 8;
     start_time := {| tv_sec := 7; tv_usec := 0 |};
     end_time := {| tv_sec := 9; tv_usec := 0 |} |}.

(** A root user on two processors. *)
Definition root_env (sweep_runs : nat -> run_env) : main_env :=
  {| euid := 0; nprocs := 2;
     the_copy := sample_copy_env (Some 0) (fun _ => ideal_env);
     the_sweep := {| malloc_ok := true; rounds := sweep_runs |} |}.

Definition is_cap_warning (e : pevent) : bool :=
  match e with
  | PStderr ErrMaxRuns => true
  | _ => false
  end.

(** Every [sendfile] of the oracle fails with a transient [errno]. *)
Definition always_transient (oracle : nat -> sf_resp) : Prop :=
  forall k, exists e, is_transient e = true /\ (oracle k = SfError e \/ oracle k = SfEof e).

(** A worker whose every [sendfile] would block. *)
Definition blocking_env : worker_env :=
  {| open_source_ok := true; open_dest_ok := true; dest_seekable := true;
     sendfile_oracle := fun _ => SfError EAGAIN |}.

(** *** The rounds of the sweep *)

(** Where a round of the sweep stands: nothing begun, the page cache
    dropped, the copy under way, the copy done and timed. *)
Inductive round_phase : Type :=
| Idle
| CacheDropped
| Copying
| Timed.

(** The order the events of the sweep have to keep.  A message on [stderr]
    is allowed anywhere; the banner and the line of a plain copy are not
    part of a sweep. *)
Definition round_step (ph : round_phase) (e : pevent) : option round_phase :=
  match e, ph with
  | PStderr _, _ => Some ph
  | PDropCaches, Idle => Some CacheDropped
  | PTesting _ _ _, CacheDropped => Some CacheDropped
  | PStat _, CacheDropped => Some Copying
  | PCreateDest, Copying => Some Copying
  | PTime _, Copying => Some Copying
  | PFork _ _, Copying => Some Copying
  | PWait, Copying => Some Copying
  | PCompleted _, Copying => Some Copying
  | PThroughput, Copying => Some Timed
  | PUnlink, Timed => Some Idle
  | PFastest _, Idle => Some Idle
  | PSlowest _, Idle => Some Idle
  | _, _ => None
  end.

Fixpoint round_run (ph : round_phase) (evs : list pevent) : option round_phase :=
  match evs with
  | [] => Some ph
  | e :: evs' =>
      match round_step ph e with
      | Some ph' => round_run ph' evs'
      | None => None
      end
  end.

(** The events of [m] keep the order from [ph] on and, when [m] goes on,
    leave the round in [ph']. *)
Definition keeps_rounds {A : Type} (ph : round_phase) (m : proc A) (ph' : round_phase) : Prop :=
  exists last,
    round_run ph (p_events m) = Some last /\
    (forall a, p_out m = Returned a -> last = ph').

Definition count_events (P : pevent -> bool) (evs : list pevent) : nat :=
  length (filter P evs).

Definition is_drop (e : pevent) : bool :=
  match e with PDropCaches => true | _ => false end.

Definition is_stat (e : pevent) : bool :=
  match e with PStat _ => true | _ => false end.

Definition is_unlink (e : pevent) : bool :=
  match e with PUnlink => true | _ => false end.

(** A copy whose source cannot be inspected. *)
Definition missing_source : copy_env :=
  {| stat_size := None; create_dest_ok := true;
     fork_ok := fun _ => true; worker := fun _ => ideal_env;
     worker_fuel := 8;
     start_time := {| tv_sec := 0; tv_usec := 0 |};
     end_time := {| tv_sec := 1; tv_usec := 0 |} |}.
(* ================================================================= *)
(** ** Facts about the integer conversions *)

Section Conversions.

Lemma to_off_small z : - 2 ^ 63 <= z <= OFF_MAX -> to_off z = z.
Proof.
  unfold to_off, OFF_MAX. intros H.
  rewrite Z.mod_small by lia. lia.
Qed.

Lemma to_size_small z : 0 <= z <= SIZE_MAX -> to_size z = z.
Proof.
  unfold to_size, SIZE_MAX. intros H. apply Z.mod_small. lia.
Qed.

Lemma to_int_small z : INT_MIN <= z <= INT_MAX -> to_int z = z.
Proof.
  unfold to_int, INT_MIN, INT_MAX. intros H.
  rewrite Z.mod_small by lia. lia.
Qed.

Lemma size_mul_small a b :
  0 <= a -> 0 <= b -> a * b <= OFF_MAX -> size_mul a b = a * b.
Proof.
  intros Ha Hb Hab. unfold size_mul.
  assert (Hmax : OFF_MAX <= SIZE_MAX) by (unfold OFF_MAX, SIZE_MAX; lia).
  destruct (Z.eq_dec a 0) as [-> | Hna].
  { change (to_size 0) with 0. rewrite !Z.mul_0_l. reflexivity. }
  destruct (Z.eq_dec b 0) as [-> | Hnb].
  { change (to_size 0) with 0. rewrite !Z.mul_0_r. reflexivity. }
  assert (a <= a * b) by nia.
  assert (b <= a * b) by nia.
  rewrite (to_size_small a) by lia.
  rewrite (to_size_small b) by lia.
  apply to_size_small. nia.
Qed.

Lemma off_add_size_small o s :
  0 <= o -> 0 <= s -> o + s <= OFF_MAX -> off_add_size o s = o + s.
Proof.
  intros Ho Hs Hos. unfold off_add_size.
  assert (Hmax : OFF_MAX <= SIZE_MAX) by (unfold OFF_MAX, SIZE_MAX; lia).
  rewrite (to_size_small o) by lia.
  rewrite (to_size_small s) by lia.
  rewrite to_size_small by lia.
  apply to_off_small. unfold OFF_MAX in *. lia.
Qed.

Lemma to_off_range z : - 2 ^ 63 <= to_off z <= OFF_MAX.
Proof.
  unfold to_off, OFF_MAX.
  pose proof (Z.mod_pos_bound (z + 2 ^ 63) (2 ^ 64) ltac:(lia)). lia.
Qed.

End Conversions.

(* ================================================================= *)
(** ** The inner loop *)


Lemma sendfile_ret_bounds fs off ts r :
  0 < ts <= OFF_MAX -> off < fs ->
  0 < sendfile_ret fs off (to_size ts) r ->
  sendfile_ret fs off (to_size ts) r <= ts /\
  sendfile_ret fs off (to_size ts) r <= fs - off.
Proof.
  intros Hts Hoff Hpos.
  rewrite to_size_small in * by (unfold OFF_MAX, SIZE_MAX in *; lia).
  destruct r; simpl in *; lia.
Qed.

Lemma sendfile_loop_events fuel fs :
  forall oracle dp off ts,
    Forall (is_transfer_from (dp - off)) (fst (sendfile_loop fuel fs oracle dp off ts)).
Proof.
  induction fuel as [| fuel IH]; intros oracle dp off ts; simpl.
  - destruct ((0 <? ts) && (off <? fs)); constructor.
  - destruct ((0 <? ts) && (off <? fs)); [| constructor].
    destruct (sendfile_ret fs off (to_size ts) (oracle O) <=? 0).
    + destruct (is_transient (sendfile_errno (oracle O))); simpl.
      * constructor; [reflexivity | apply IH].
      * constructor; [reflexivity | constructor].
    + simpl. constructor; [reflexivity |].
      replace (dp - off)
        with (dp + sendfile_ret fs off (to_size ts) (oracle O)
              - (off + sendfile_ret fs off (to_size ts) (oracle O))) by lia.
      apply IH.
Qed.

Lemma block_moved_app [delta tr] rest :
  Forall (is_transfer_from delta) tr ->
  block_moved (tr ++ rest) = block_moved tr + block_moved rest.
Proof.
  induction 1 as [| e tr He _ IH]; simpl; [reflexivity |].
  destruct e; simpl in He; try contradiction.
  rewrite IH. lia.
Qed.

Lemma ranges_of_app [delta tr] rest :
  Forall (is_transfer_from delta) tr -> ranges_of (tr ++ rest) = ranges_of rest.
Proof.
  induction 1 as [| e tr He _ IH]; simpl; [reflexivity |].
  destruct e; simpl in He; try contradiction. exact IH.
Qed.

Lemma transfer_calls_app tr rest :
  transfer_calls (tr ++ rest) = (transfer_calls tr + transfer_calls rest)%nat.
Proof.
  induction tr as [| e tr IH]; simpl; [reflexivity |].
  destruct e; simpl; rewrite IH; reflexivity.
Qed.

(** When the inner loop ends normally it has moved exactly
    [min(to_send, file_size - offset)] bytes, and the source cursor, the
    destination position and the remaining request moved by that much. *)
Lemma sendfile_loop_done fuel fs :
  forall oracle dp off ts tr oracle' dp' off' ts',
    0 <= ts <= OFF_MAX -> off <= fs ->
    sendfile_loop fuel fs oracle dp off ts = (tr, SendDone oracle' dp' off' ts') ->
    block_moved tr = Z.min ts (fs - off) /\
    off' = off + block_moved tr /\
    dp' = dp + block_moved tr /\
    ts' = ts - block_moved tr.
Proof.
  induction fuel as [| fuel IH]; intros oracle dp off ts tr oracle' dp' off' ts' Hts Hoff H;
    simpl in H.
  - destruct ((0 <? ts) && (off <? fs)) eqn:Hc; [discriminate |].
    inversion H; subst; simpl.
    apply andb_false_iff in Hc. destruct Hc as [Hc | Hc];
      [apply Z.ltb_ge in Hc | apply Z.ltb_ge in Hc]; lia.
  - destruct ((0 <? ts) && (off <? fs)) eqn:Hc.
    + apply andb_true_iff in Hc. destruct Hc as [Hc1 Hc2].
      apply Z.ltb_lt in Hc1. apply Z.ltb_lt in Hc2.
      set (b := sendfile_ret fs off (to_size ts) (oracle O)) in *.
      destruct (b <=? 0) eqn:Hb.
      * destruct (is_transient (sendfile_errno (oracle O))); [| discriminate].
        destruct (sendfile_loop fuel fs (oracle_tail oracle) dp off ts) as [tr0 res] eqn:Hs.
        unfold with_event in H; simpl in H. inversion H; subst; clear H.
        apply Z.leb_le in Hb.
        destruct (IH _ _ _ _ _ _ _ _ _ Hts Hoff Hs) as (Hm & Ho & Hd & Ht).
        simpl. rewrite Z.max_r by lia. lia.
      * apply Z.leb_gt in Hb.
        destruct (@sendfile_ret_bounds fs off ts (oracle O) ltac:(lia) Hc2 Hb) as [Hb1 Hb2].
        fold b in Hb1, Hb2.
        rewrite to_off_small in H by (unfold OFF_MAX in *; lia).
        destruct (sendfile_loop fuel fs (oracle_tail oracle) (dp + b) (off + b) (ts - b))
          as [tr0 res] eqn:Hs.
        unfold with_event in H; simpl in H. inversion H; subst; clear H.
        assert (Hts' : 0 <= ts - b <= OFF_MAX) by lia.
        assert (Hoff' : off + b <= fs) by lia.
        destruct (IH _ _ _ _ _ _ _ _ _ Hts' Hoff' Hs) as (Hm & Ho & Hd & Ht).
        simpl. rewrite Z.max_l by lia. lia.
    + inversion H; subst; simpl.
      apply andb_false_iff in Hc. destruct Hc as [Hc | Hc];
        [apply Z.ltb_ge in Hc | apply Z.ltb_ge in Hc]; lia.
Qed.

(* ================================================================= *)
(** ** The outer loop *)



Lemma always_moves_tail oracle : always_moves oracle -> always_moves (oracle_tail oracle).
Proof. intros H k. apply (H (S k)). Qed.

Lemma transfer_aligned tr : Forall (is_transfer_from 0) tr -> Forall aligned tr.
Proof.
  apply Forall_impl. intros [] H; simpl in *; try contradiction. lia.
Qed.

Lemma planner_from_past fuel fs bs stride off :
  fs <= off -> planner_from fuel fs bs stride off = [].
Proof.
  intros H. destruct fuel; simpl; [reflexivity |].
  destruct (off <? fs) eqn:E; [apply Z.ltb_lt in E; lia | reflexivity].
Qed.

Lemma block_loop_head fuel seekable fs n bs oracle off doff :
  block_moved (fst (block_loop fuel seekable fs n bs oracle off doff)) = 0.
Proof.
  destruct fuel; simpl; destruct (off <? fs); try reflexivity.
  destruct (lseek_ok seekable doff); try reflexivity.
  destruct (sendfile_loop fuel fs oracle doff off (to_off bs)) as [tr [| |]]; reflexivity.
Qed.

Lemma sendfile_loop_moves fuel fs :
  forall oracle dp off ts,
    always_moves oracle -> 0 <= ts <= OFF_MAX ->
    (Z.to_nat (fs - off) <= fuel)%nat ->
    exists tr oracle' dp' off' ts',
      sendfile_loop fuel fs oracle dp off ts = (tr, SendDone oracle' dp' off' ts') /\
      always_moves oracle'.
Proof.
  induction fuel as [| fuel IH]; intros oracle dp off ts Hor Hts Hfuel; simpl.
  - destruct ((0 <? ts) && (off <? fs)) eqn:Hc.
    + apply andb_true_iff in Hc. destruct Hc as [_ Hc]. apply Z.ltb_lt in Hc. lia.
    + eauto 8.
  - destruct ((0 <? ts) && (off <? fs)) eqn:Hc; [| eauto 8].
    apply andb_true_iff in Hc. destruct Hc as [Hc1 Hc2].
    apply Z.ltb_lt in Hc1. apply Z.ltb_lt in Hc2.
    destruct (Hor O) as [p Hp]. rewrite Hp.
    assert (Hsz : to_size ts = ts)
      by (apply to_size_small; unfold OFF_MAX, SIZE_MAX in *; lia).
    rewrite Hsz.
    set (b := sendfile_ret fs off ts (SfMoved p)).
    assert (Hb : 1 <= b <= ts /\ b <= fs - off) by (subst b; simpl; lia).
    destruct (b <=? 0) eqn:Hle; [apply Z.leb_le in Hle; lia |].
    rewrite to_off_small by (unfold OFF_MAX in *; lia).
    destruct (IH (oracle_tail oracle) (dp + b) (off + b) (ts - b))
      as (tr & o' & dp' & off' & ts' & Hrun & Ho');
      [apply always_moves_tail; assumption | lia | lia |].
    rewrite Hrun. unfold with_event; simpl. eauto 8.
Qed.

Section BlockLoop.

Variables (seekable : bool) (fs n bs : Z).
Hypothesis Hfs : 0 <= fs.
Hypothesis Hbs : 0 < bs.
Hypothesis Hn : 0 < n <= INT_MAX.
Hypothesis Hfit : fs + n * bs <= OFF_MAX.

Lemma stride_ge : bs <= n * bs.
Proof. nia. Qed.

Lemma block_size_off : to_off bs = bs.
Proof. pose proof stride_ge. apply to_off_small. unfold OFF_MAX in *. lia. Qed.

Lemma stride_size : size_mul n bs = n * bs.
Proof. pose proof stride_ge. apply size_mul_small; lia. Qed.

Lemma skip_size : size_mul (to_int (n - 1)) bs = n * bs - bs.
Proof.
  pose proof stride_ge.
  rewrite to_int_small by (unfold INT_MIN, INT_MAX in *; lia).
  rewrite size_mul_small; nia.
Qed.

(** One pass of the loop body: where the two offsets stand afterwards. *)
Lemma next_offsets off off' m :
  0 <= off < fs -> m = Z.min bs (fs - off) -> off' = off + m ->
  off_add_size off (size_mul n bs) = off + n * bs /\
  off_add_size off' (size_mul (to_int (n - 1)) bs) = off' + (n * bs - bs) /\
  off < off' + (n * bs - bs) /\
  (off' + (n * bs - bs) < fs -> off' + (n * bs - bs) = off + n * bs).
Proof.
  intros Hoff Hm Hoff'. pose proof stride_ge.
  rewrite stride_size, skip_size.
  rewrite !off_add_size_small by lia. lia.
Qed.

Lemma block_loop_aligned fuel :
  forall oracle off doff,
    0 <= off -> (off < fs -> off = doff) ->
    Forall aligned (fst (block_loop fuel seekable fs n bs oracle off doff)).
Proof.
  induction fuel as [| fuel IH]; intros oracle off doff Hoff Heq; simpl.
  - destruct (off <? fs); simpl; repeat constructor.
  - destruct (off <? fs) eqn:E; [| simpl; repeat constructor].
    apply Z.ltb_lt in E. rewrite <- (Heq E).
    destruct (lseek_ok seekable off); [| simpl; repeat constructor].
    pose proof (sendfile_loop_events fuel fs oracle off off (to_off bs)) as Hev.
    rewrite Z.sub_diag in Hev. apply transfer_aligned in Hev.
    destruct (sendfile_loop fuel fs oracle off off (to_off bs)) as [tr res] eqn:Hs.
    simpl in Hev.
    destruct res as [oracle' dp' off' ts' | |]; simpl.
    + constructor; [reflexivity |]. apply Forall_app. split; [exact Hev |].
      rewrite block_size_off in Hs.
      pose proof stride_ge.
      eapply sendfile_loop_done in Hs; [| lia | lia].
      destruct Hs as (Hm & Ho & _ & _).
      destruct (@next_offsets off off' (block_moved tr)) as (E1 & E2 & E3 & E4);
        [lia | lia | lia |].
      rewrite E1, E2. apply IH; lia.
    + constructor; [reflexivity |]. apply Forall_app. split; [exact Hev |].
      repeat constructor.
    + constructor; [reflexivity | exact Hev].
Qed.

Lemma block_loop_ranges fuel :
  forall oracle off doff pf tr,
    0 <= off -> (off < fs -> off = doff) ->
    (Z.to_nat (fs - off) <= pf)%nat ->
    block_loop fuel seekable fs n bs oracle off doff = (tr, WReturned) ->
    ranges_of tr = planner_from pf fs bs (n * bs) off.
Proof.
  induction fuel as [| fuel IH]; intros oracle off doff pf tr Hoff Heq Hpf H; simpl in H.
  - destruct (off <? fs) eqn:E; [discriminate |].
    apply Z.ltb_ge in E. inversion H; subst; simpl.
    symmetry. apply planner_from_past. exact E.
  - destruct (off <? fs) eqn:E.
    + pose proof E as E'. apply Z.ltb_lt in E'. rewrite <- (Heq E') in H.
      destruct (lseek_ok seekable off); [| discriminate].
      pose proof (sendfile_loop_events fuel fs oracle off off (to_off bs)) as Hev.
      destruct (sendfile_loop fuel fs oracle off off (to_off bs)) as [tr1 res] eqn:Hs.
      simpl in Hev.
      destruct res as [oracle' dp' off' ts' | |]; try discriminate.
      rewrite block_size_off in Hs.
      pose proof stride_ge.
      eapply sendfile_loop_done in Hs; [| lia | lia].
      destruct Hs as (Hm & Ho & _ & _).
      destruct (@next_offsets off off' (block_moved tr1)) as (E1 & E2 & E3 & E4);
        [lia | lia | lia |].
      rewrite E1, E2 in H.
      destruct (block_loop fuel seekable fs n bs oracle'
                  (off' + (n * bs - bs)) (off + n * bs)) as [tr2 st2] eqn:Hr.
      simpl in H. inversion H; subst tr st2; clear H.
      destruct pf as [| pf]; [lia |].
      simpl. rewrite E.
      rewrite (block_moved_app tr2 Hev), (ranges_of_app tr2 Hev).
      replace tr2 with (fst (block_loop fuel seekable fs n bs oracle'
                               (off' + (n * bs - bs)) (off + n * bs)))
        at 1 by (rewrite Hr; reflexivity).
      rewrite block_loop_head, Z.add_0_r, Hm. f_equal.
      assert (Hpf' : (Z.to_nat (fs - (off' + (n * bs - bs))) <= pf)%nat) by lia.
      assert (Hoff' : 0 <= off' + (n * bs - bs)) by lia.
      rewrite (IH _ _ _ pf _ Hoff' E4 Hpf' Hr).
      destruct (Z_lt_ge_dec (off' + (n * bs - bs)) fs) as [Hlt | Hge].
      * rewrite (E4 Hlt). reflexivity.
      * rewrite !planner_from_past by lia. reflexivity.
    + apply Z.ltb_ge in E. inversion H; subst; simpl.
      symmetry. apply planner_from_past. exact E.
Qed.

Lemma block_loop_returns fuel :
  forall oracle off doff,
    seekable = true -> always_moves oracle ->
    0 <= off -> (off < fs -> off = doff) ->
    (Z.to_nat (fs - off) < fuel)%nat ->
    snd (block_loop fuel seekable fs n bs oracle off doff) = WReturned.
Proof.
  induction fuel as [| fuel IH]; intros oracle off doff Hseek Hor Hoff Heq Hfuel; [lia |].
  simpl. destruct (off <? fs) eqn:E; [| reflexivity].
  apply Z.ltb_lt in E. rewrite <- (Heq E).
  assert (Hl : lseek_ok seekable off = true)
    by (unfold lseek_ok; rewrite Hseek; apply Z.leb_le; lia).
  rewrite Hl.
  rewrite block_size_off. pose proof stride_ge.
  destruct (@sendfile_loop_moves fuel fs oracle off off bs Hor ltac:(lia) ltac:(lia))
    as (tr & o' & dp' & off' & ts' & Hrun & Ho').
  rewrite Hrun.
  eapply sendfile_loop_done in Hrun; [| lia | lia].
  destruct Hrun as (Hm & Ho & _ & _).
  destruct (@next_offsets off off' (block_moved tr)) as (E1 & E2 & E3 & E4);
    [lia | lia | lia |].
  rewrite E1, E2. simpl. apply IH; try assumption; lia.
Qed.

End BlockLoop.

(* ================================================================= *)
(** ** The plan covers the file *)

Section Plan.

Variables (fs bs : Z).
Hypothesis Hbs : 0 < bs.

(** The ranges of a plan are those at [off + k * stride] below
    [file_size]; none is cut off by the fuel. *)
Lemma plan_complete stride fuel :
  0 < stride ->
  forall off o l,
    (Z.to_nat (fs - off) <= fuel)%nat ->
    In (o, l) (planner_from fuel fs bs stride off) <->
    exists k, 0 <= k /\ o = off + k * stride /\ o < fs /\ l = Z.min bs (fs - o).
Proof.
  intros Hst. induction fuel as [| fuel IH]; intros off o l Hfuel; simpl.
  - split; [contradiction |]. intros (k & Hk & Ho & Hlt & _). nia.
  - destruct (off <? fs) eqn:E.
    + apply Z.ltb_lt in E. simpl. rewrite IH by lia. split.
      * intros [Heq | (k & Hk & Ho & Hlt & Hl)].
        -- inversion Heq; subst. exists 0. repeat split; lia.
        -- exists (k + 1). repeat split; (lia || nia).
      * intros (k & Hk & Ho & Hlt & Hl).
        destruct (Z.eq_dec k 0) as [-> | Hk0].
        -- left. subst. rewrite Z.mul_0_l, Z.add_0_r. reflexivity.
        -- right. exists (k - 1). repeat split; (lia || nia).
    + apply Z.ltb_ge in E. split; [contradiction |].
      intros (k & Hk & Ho & Hlt & _). nia.
Qed.

Lemma plan_nodup stride fuel :
  0 < stride ->
  forall off, NoDup (planner_from fuel fs bs stride off).
Proof.
  intros Hst. induction fuel as [| fuel IH]; intros off; simpl; [constructor |].
  destruct (off <? fs); [| constructor].
  constructor; [| apply IH].
  assert (Hfar : forall f o' off' l',
             off < off' -> In (o', l') (planner_from f fs bs stride off') -> off < o').
  { induction f as [| f IHf]; intros o' off' l' Hlt Hin; simpl in Hin; [contradiction |].
    destruct (off' <? fs); [| contradiction].
    destruct Hin as [Heq | Hin]; [inversion Heq; subst; exact Hlt |].
    apply (IHf _ (off' + stride) l'); [lia | exact Hin]. }
  intros Hin. apply Hfar in Hin; lia.
Qed.

Variable n : Z.
Hypothesis Hn : 0 < n.

Lemma planner_In i o l :
  0 <= i ->
  In (o, l) (planner fs bs n i) <->
  exists k, 0 <= k /\ o = (i + k * n) * bs /\ o < fs /\ l = Z.min bs (fs - o).
Proof.
  intros Hi. unfold planner.
  rewrite plan_complete by nia.
  split; intros (k & Hk & Ho & Hlt & Hl); exists k; repeat split; (assumption || nia).
Qed.

(** The block a byte lies in. *)
Lemma block_unique q q' b :
  q * bs <= b < q * bs + bs -> q' * bs <= b < q' * bs + bs -> q = q'.
Proof.
  intros H H'.
  destruct (Z.lt_trichotomy q q') as [Hlt | [Heq | Hgt]]; [| exact Heq |].
  - assert ((q + 1) * bs <= q' * bs) by (apply Z.mul_le_mono_nonneg_r; lia). lia.
  - assert ((q' + 1) * bs <= q * bs) by (apply Z.mul_le_mono_nonneg_r; lia). lia.
Qed.

Lemma owner_unique i j k k' :
  0 <= i < n -> 0 <= j < n -> i + k * n = j + k' * n -> i = j /\ k = k'.
Proof.
  intros Hi Hj H.
  assert (k = k').
  { destruct (Z.lt_trichotomy k k') as [Hlt | [Heq | Hgt]]; [| exact Heq |].
    - assert ((k + 1) * n <= k' * n) by (apply Z.mul_le_mono_nonneg_r; lia). lia.
    - assert ((k' + 1) * n <= k * n) by (apply Z.mul_le_mono_nonneg_r; lia). lia. }
  subst. split; lia.
Qed.

(** No gap: every byte of the file lies in a range of some worker. *)
Lemma plan_covers b :
  0 <= b < fs ->
  exists i r, 0 <= i < n /\ In r (planner fs bs n i) /\ in_range b r.
Proof.
  intros Hb.
  set (q := b / bs).
  assert (Hq : q * bs <= b < q * bs + bs).
  { pose proof (Z.div_mod b bs ltac:(lia)).
    pose proof (Z.mod_pos_bound b bs Hbs). subst q. lia. }
  assert (Hq0 : 0 <= q) by (apply Z.div_pos; lia).
  pose proof (Z.div_mod q n ltac:(lia)) as Hdm.
  pose proof (Z.mod_pos_bound q n Hn) as Hmod.
  assert (Hk0 : 0 <= q / n) by (apply Z.div_pos; lia).
  exists (q mod n), (q * bs, Z.min bs (fs - q * bs)).
  split; [lia |]. split.
  - apply planner_In; [lia |]. exists (q / n).
    repeat split; (lia || (f_equal; lia)).
  - unfold in_range. simpl. lia.
Qed.

(** Every range lies inside the file and is not empty. *)
Lemma plan_within i r :
  0 <= i -> In r (planner fs bs n i) ->
  0 <= fst r /\ 0 < snd r /\ fst r + snd r <= fs.
Proof.
  intros Hi Hin. destruct r as [o l].
  apply planner_In in Hin; [| exact Hi].
  destruct Hin as (k & Hk & Ho & Hlt & Hl). simpl. subst l.
  repeat split; (lia || nia).
Qed.

(** No overlap: a byte lies in one range of one worker only. *)
Lemma plan_disjoint i j r r' b :
  0 <= i < n -> 0 <= j < n ->
  In r (planner fs bs n i) -> In r' (planner fs bs n j) ->
  in_range b r -> in_range b r' -> i = j /\ r = r'.
Proof.
  intros Hi Hj Hin Hin' Hb Hb'. destruct r as [o l], r' as [o' l'].
  apply planner_In in Hin; [| lia]. apply planner_In in Hin'; [| lia].
  destruct Hin as (k & Hk & Ho & Hlt & Hl).
  destruct Hin' as (k' & Hk' & Ho' & Hlt' & Hl').
  unfold in_range in *. simpl in *.
  assert (Hq : i + k * n = j + k' * n).
  { apply (@block_unique _ _ b); lia. }
  destruct (@owner_unique i j k k' Hi Hj Hq) as [-> ->].
  split; [reflexivity |]. subst. reflexivity.
Qed.

End Plan.

(** The [k]-th range of a plan, by position. *)
Lemma planner_from_nth fs bs stride fuel :
  0 < stride ->
  forall off (k : nat),
    (Z.to_nat (fs - off) <= fuel)%nat ->
    nth_error (planner_from fuel fs bs stride off) k =
    (let o := off + Z.of_nat k * stride in
     if o <? fs then Some (o, Z.min bs (fs - o)) else None).
Proof.
  intros Hst. induction fuel as [| fuel IH]; intros off k Hfuel; simpl.
  - destruct (off + Z.of_nat k * stride <? fs) eqn:E; [apply Z.ltb_lt in E; nia |].
    destruct k; reflexivity.
  - destruct (off <? fs) eqn:E.
    + apply Z.ltb_lt in E. destruct k as [| k]; simpl.
      * rewrite Z.add_0_r. apply Z.ltb_lt in E. rewrite E. reflexivity.
      * rewrite IH by lia.
        replace (off + stride + Z.of_nat k * stride)
          with (off + Z.pos (Pos.of_succ_nat k) * stride) by lia.
        reflexivity.
    + apply Z.ltb_ge in E.
      destruct (off + Z.of_nat k * stride <? fs) eqn:E'; [apply Z.ltb_lt in E'; nia |].
      destruct k; reflexivity.
Qed.


Lemma seeks_of_app [delta tr] rest :
  Forall (is_transfer_from delta) tr -> seeks_of (tr ++ rest) = seeks_of rest.
Proof.
  induction 1 as [| e tr He _ IH]; simpl; [reflexivity |].
  destruct e; simpl in He; try contradiction. exact IH.
Qed.

Lemma seeks_of_only [delta tr] :
  Forall (is_transfer_from delta) tr -> seeks_of tr = [].
Proof.
  intros H. rewrite <- (app_nil_r tr). rewrite (seeks_of_app [] H). reflexivity.
Qed.

Lemma block_loop_past fuel seekable fs n bs oracle off doff :
  fs <= off ->
  block_loop fuel seekable fs n bs oracle off doff = ([EvClose SourceFd; EvClose DestFd], WReturned).
Proof.
  intros H. destruct fuel; simpl;
    (destruct (off <? fs) eqn:E; [apply Z.ltb_lt in E; lia | reflexivity]).
Qed.

Section Worker.

Variables (fs n bs : Z).
Hypothesis Hfs : 0 <= fs.
Hypothesis Hbs : 0 < bs.
Hypothesis Hn : 0 < n <= INT_MAX.
Hypothesis Hfit : fs + n * bs <= OFF_MAX.

Lemma block_loop_seeks seekable fuel :
  forall oracle off doff (k : nat) o d,
    0 <= off -> (off < fs -> off = doff) ->
    nth_error (seeks_of (fst (block_loop fuel seekable fs n bs oracle off doff))) k
      = Some (o, d) ->
    o = off + Z.of_nat k * (n * bs) /\ d = o.
Proof.
  induction fuel as [| fuel IH]; intros oracle off doff k o d Hoff Heq H; simpl in H.
  - destruct (off <? fs); simpl in H; destruct k; discriminate.
  - destruct (off <? fs) eqn:E; [| simpl in H; destruct k; discriminate].
    apply Z.ltb_lt in E. rewrite <- (Heq E) in H.
    destruct (lseek_ok seekable off).
    + pose proof (sendfile_loop_events fuel fs oracle off off (to_off bs)) as Hev.
      destruct (sendfile_loop fuel fs oracle off off (to_off bs)) as [tr res] eqn:Hs.
      simpl in Hev.
      destruct res as [oracle' dp' off' ts' | |]; simpl in H.
      * rewrite (seeks_of_app _ Hev) in H.
        destruct k as [| k]; simpl in H; [inversion H; subst; lia |].
        rewrite (block_size_off _ _ _ Hfs Hbs Hn Hfit) in Hs.
        pose proof (stride_ge _ _ Hbs Hn).
        eapply sendfile_loop_done in Hs; [| lia | lia].
        destruct Hs as (Hm & Ho & _ & _).
        destruct (@next_offsets fs n bs Hfs Hbs Hn Hfit off off' (block_moved tr))
          as (E1 & E2 & E3 & E4); [lia | lia | lia |].
        rewrite E1, E2 in H.
        destruct (Z_lt_ge_dec (off' + (n * bs - bs)) fs) as [Hlt | Hge].
        -- rewrite (E4 Hlt) in H.
           apply IH in H; [| lia | lia]. lia.
        -- rewrite block_loop_past in H by lia. simpl in H.
           destruct k; discriminate.
      * rewrite (seeks_of_app _ Hev) in H. simpl in H.
        destruct k as [| k]; simpl in H; [inversion H; subst; lia |].
        destruct k; discriminate.
      * rewrite (seeks_of_only Hev) in H.
        destruct k as [| k]; simpl in H; [inversion H; subst; lia |].
        destruct k; discriminate.
    + simpl in H.
      destruct k as [| k]; simpl in H; [inversion H; subst; lia |].
      destruct k; discriminate.
Qed.

Variable i : Z.
Hypothesis Hi : 0 <= i < n.

Lemma first_offset : to_off (size_mul i bs) = i * bs.
Proof.
  assert (i * bs <= n * bs) by (apply Z.mul_le_mono_nonneg_r; lia).
  rewrite size_mul_small by nia.
  apply to_off_small. unfold OFF_MAX in *. nia.
Qed.

Lemma copy_blocks_ranges fuel env tr :
  copy_blocks fuel env fs i n bs = (tr, WReturned) ->
  ranges_of tr = planner fs bs n i.
Proof.
  unfold copy_blocks. rewrite first_offset.
  destruct (open_source_ok env); [| discriminate].
  destruct (open_dest_ok env); [| discriminate].
  destruct (block_loop fuel (dest_seekable env) fs n bs (sendfile_oracle env)
                       (i * bs) (i * bs)) as [tr' st] eqn:Hr.
  simpl. intros H. inversion H; subst. simpl.
  eapply (block_loop_ranges _ _ _ _ Hfs Hbs Hn Hfit) with (pf := Z.to_nat fs) in Hr;
    [exact Hr | nia | reflexivity | nia].
Qed.

Lemma copy_blocks_aligned fuel env :
  Forall aligned (fst (copy_blocks fuel env fs i n bs)).
Proof.
  unfold copy_blocks. rewrite first_offset.
  destruct (open_source_ok env); [| repeat constructor].
  destruct (open_dest_ok env); [| repeat constructor].
  simpl. do 2 (constructor; [exact I |]).
  apply (block_loop_aligned _ _ _ _ Hfs Hbs Hn Hfit); [nia | reflexivity].
Qed.

Lemma copy_blocks_seeks fuel env (k : nat) o d :
  nth_error (seeks_of (fst (copy_blocks fuel env fs i n bs))) k = Some (o, d) ->
  o = i * bs + Z.of_nat k * (n * bs) /\ d = o.
Proof.
  unfold copy_blocks. rewrite first_offset.
  destruct (open_source_ok env); [| simpl; destruct k; discriminate].
  destruct (open_dest_ok env); [| simpl; destruct k; discriminate].
  simpl. apply block_loop_seeks; [nia | reflexivity].
Qed.

Lemma copy_blocks_returns fuel env :
  open_source_ok env = true -> open_dest_ok env = true ->
  dest_seekable env = true -> always_moves (sendfile_oracle env) ->
  (Z.to_nat fs < fuel)%nat ->
  snd (copy_blocks fuel env fs i n bs) = WReturned.
Proof.
  intros Hs Hd Hseek Hor Hfuel.
  unfold copy_blocks. rewrite first_offset, Hs, Hd. simpl.
  apply (block_loop_returns _ _ _ _ Hfs Hbs Hn Hfit); try assumption; try reflexivity; nia.
Qed.

End Worker.

(* ================================================================= *)
(** ** The partition: claims about [copy_blocks] *)

Lemma ideal_env_succeeds : calls_succeed ideal_env.
Proof.
  repeat split. intros k. eexists. reflexivity.
Qed.

Lemma bytewise_env_succeeds : calls_succeed bytewise_env.
Proof.
  repeat split. intros k. eexists. reflexivity.
Qed.

(** With the block size of [-s 21] the one worker of a copy of 8 bytes
    starts its block at offset 0, asks [sendfile] for nothing (the block
    size is negative as an [ssize_t]), moves its destination offset to
    [-2^31], leaves the source offset at 0 and fails in the next [lseek],
    although every call it makes would succeed. *)
Lemma shift_21_run fuel :
  copy_blocks (S (S fuel)) ideal_env 8 0 1 shift_21_block =
  ([EvOpen SourceFd true; EvOpen DestFd true; EvSeek 0 0 true;
    EvSeek 0 (-2147483648) false; EvPerror ErrSeek;
    EvClose SourceFd; EvClose DestFd], WExited 1).
Proof. reflexivity. Qed.

(** C2, as the code has it.  When the offsets fit [off_t] ([n <= INT_MAX]
    and [fs + n * bs <= OFF_MAX]) worker [i] of [n] processes its ranges in
    the order of the plan: the [k]-th range starts at
    [i * bs + k * (n * bs)], is [min(bs, fs - offset)] bytes long, and
    exists exactly when that offset is below [fs]; so the sequence stops at
    the first offset that reaches [fs] and is empty when [i * bs] already
    does.  This holds for every run that gets through, and a run whose
    calls succeed does get through (a [sendfile] may move fewer bytes than
    requested). *)
Theorem worker_ranges_follow_plan fs bs n i :
  0 <= fs -> 0 < bs -> 0 < n <= INT_MAX -> 0 <= i < n -> fs + n * bs <= OFF_MAX ->
  (forall fuel env,
      snd (copy_blocks fuel env fs i n bs) = WReturned ->
      ranges_of (fst (copy_blocks fuel env fs i n bs)) = planner fs bs n i /\
      forall k : nat,
        nth_error (ranges_of (fst (copy_blocks fuel env fs i n bs))) k =
        (let o := i * bs + Z.of_nat k * (n * bs) in
         if o <? fs then Some (o, Z.min bs (fs - o)) else None)) /\
  (forall fuel env,
      calls_succeed env -> (Z.to_nat fs < fuel)%nat ->
      snd (copy_blocks fuel env fs i n bs) = WReturned).
Proof.
  intros Hfs Hbs Hn Hi Hfit. split.
  - intros fuel env Hret.
    assert (Hr : ranges_of (fst (copy_blocks fuel env fs i n bs)) = planner fs bs n i).
    { apply (copy_blocks_ranges _ _ _ Hfs Hbs Hn Hfit _ Hi fuel env).
      destruct (copy_blocks fuel env fs i n bs); simpl in *; subst; reflexivity. }
    split; [exact Hr |].
    intros k. rewrite Hr. unfold planner.
    apply planner_from_nth; nia.
  - intros fuel env (Hs & Hd & Hseek & Hor) Hfuel.
    apply copy_blocks_returns; assumption.
Qed.

Lemma worker_ranges_follow_plan_witness :
  ranges_of (fst (copy_blocks 9 bytewise_env 10 1 2 3)) = planner 10 3 2 1 /\
  nth_error (ranges_of (fst (copy_blocks 9 bytewise_env 10 1 2 3))) 1 = Some (9, 1) /\
  snd (copy_blocks 11 bytewise_env 10 1 2 3) = WReturned.
Proof.
  assert (H0 : 0 <= 10) by lia.
  assert (H1 : 0 < 3) by lia.
  assert (H2 : 0 < 2 <= INT_MAX) by (unfold INT_MAX; lia).
  assert (H3 : 0 <= 1 < 2) by lia.
  assert (H4 : 10 + 2 * 3 <= OFF_MAX) by (unfold OFF_MAX; lia).
  destruct (worker_ranges_follow_plan 10 3 2 1 H0 H1 H2 H3 H4) as [Hplan Hret].
  destruct (Hplan 9%nat bytewise_env) as [Hr Hk]; [vm_compute; reflexivity |].
  split; [exact Hr |]. split.
  - rewrite Hk. vm_compute. reflexivity.
  - apply Hret; [exact bytewise_env_succeeds | vm_compute; lia].
Defined.

(** The plan is not followed at every block size.  At the one of [-s 21]
    the plan of the only worker of 8 bytes is the range [(0, 8)]; the
    worker starts one range, moves no byte of it and exits with status
    1. *)
Lemma shift_21_off_plan :
  block_size_of_shift 21 = Some shift_21_block /\
  0 < shift_21_block /\
  planner 8 shift_21_block 1 0 = [(0, 8)] /\
  (forall fuel,
      ranges_of (fst (copy_blocks (S (S fuel)) ideal_env 8 0 1 shift_21_block)) = [(0, 0)] /\
      snd (copy_blocks (S (S fuel)) ideal_env 8 0 1 shift_21_block) = WExited 1).
Proof.
  split; [reflexivity |]. split; [reflexivity |]. split; [reflexivity |].
  intros fuel. rewrite shift_21_run. split; reflexivity.
Qed.

(** C1, as the code has it.  With [fs > 0], [bs > 0] and [n > 0] workers,
    and offsets that fit [off_t] ([n <= INT_MAX] and
    [fs + n * bs <= OFF_MAX]), the ranges of the
    workers [0 .. n-1] cover [[0, fs)] exactly: every byte of the file lies
    in a range of some worker, every range lies inside the file, a byte
    lies in one range of one worker only, and no worker is given a range
    twice.  The ranges are read off the runs of [copy_blocks]; the runs get
    through when the calls of the workers succeed. *)
Theorem partition_covers_file fs bs n :
  0 < fs -> 0 < bs -> 0 < n <= INT_MAX -> fs + n * bs <= OFF_MAX ->
  (forall fuel (envs : Z -> worker_env),
      (forall i, 0 <= i < n -> snd (copy_blocks fuel (envs i) fs i n bs) = WReturned) ->
      let assigned i := ranges_of (fst (copy_blocks fuel (envs i) fs i n bs)) in
      (forall b, 0 <= b < fs ->
                 exists i r, 0 <= i < n /\ In r (assigned i) /\ in_range b r) /\
      (forall i r b, 0 <= i < n -> In r (assigned i) -> in_range b r -> 0 <= b < fs) /\
      (forall i j r r' b,
          0 <= i < n -> 0 <= j < n -> In r (assigned i) -> In r' (assigned j) ->
          in_range b r -> in_range b r' -> i = j /\ r = r') /\
      (forall i, 0 <= i < n -> NoDup (assigned i))) /\
  (forall fuel (envs : Z -> worker_env),
      (forall i, 0 <= i < n -> calls_succeed (envs i)) -> (Z.to_nat fs < fuel)%nat ->
      forall i, 0 <= i < n -> snd (copy_blocks fuel (envs i) fs i n bs) = WReturned).
Proof.
  intros Hfs Hbs Hn Hfit. split.
  - intros fuel envs Hret assigned.
    assert (Hfs0 : 0 <= fs) by lia.
    assert (Hn0 : 0 < n) by lia.
    assert (Hplan : forall i, 0 <= i < n -> assigned i = planner fs bs n i).
    { intros i Hi. subst assigned. simpl.
      apply (copy_blocks_ranges _ _ _ Hfs0 Hbs Hn Hfit _ Hi fuel (envs i)).
      specialize (Hret i Hi).
      destruct (copy_blocks fuel (envs i) fs i n bs); simpl in *; subst; reflexivity. }
    split; [| split; [| split]].
    + intros b Hb.
      destruct (@plan_covers fs bs Hbs n Hn0 b Hb) as (i & r & Hi & Hin & Hr).
      exists i, r. rewrite (Hplan i Hi). auto.
    + intros i r b Hi Hin Hr. rewrite (Hplan i Hi) in Hin.
      apply (@plan_within fs bs Hbs n Hn0) in Hin; [| lia].
      unfold in_range in Hr. lia.
    + intros i j r r' b Hi Hj Hin Hin' Hr Hr'.
      rewrite (Hplan i Hi) in Hin. rewrite (Hplan j Hj) in Hin'.
      apply (@plan_disjoint fs bs Hbs n Hn0 i j r r' b Hi Hj Hin Hin' Hr Hr').
    + intros i Hi. rewrite (Hplan i Hi). unfold planner. apply plan_nodup. nia.
  - intros fuel envs Hok Hfuel i Hi.
    destruct (Hok i Hi) as (Hs & Hd & Hseek & Hor).
    apply copy_blocks_returns; (assumption || lia).
Qed.

Lemma partition_covers_file_witness :
  exists i r, 0 <= i < 2 /\
              In r (ranges_of (fst (copy_blocks 11 bytewise_env 10 i 2 3))) /\
              in_range 7 r.
Proof.
  assert (H0 : 0 < 10) by lia.
  assert (H1 : 0 < 3) by lia.
  assert (H2 : 0 < 2 <= INT_MAX) by (unfold INT_MAX; lia).
  assert (H3 : 10 + 2 * 3 <= OFF_MAX) by (unfold OFF_MAX; lia).
  assert (H7 : 0 <= 7 < 10) by lia.
  destruct (partition_covers_file 10 3 2 H0 H1 H2 H3) as [Hcov Hret].
  destruct (Hcov 11%nat (fun _ => bytewise_env)) as [H _].
  - intros i Hi.
    apply (Hret 11%nat (fun _ => bytewise_env));
      [intros; exact bytewise_env_succeeds | vm_compute; lia | exact Hi].
  - exact (H 7 H7).
Defined.

(** The file is not covered at every block size.  At the one of [-s 21]
    the only worker of a file of 8 bytes covers no byte, and it never
    returns. *)
Lemma shift_21_covers_nothing :
  block_size_of_shift 21 = Some shift_21_block /\
  0 < shift_21_block /\
  (forall fuel,
      snd (copy_blocks (S (S fuel)) ideal_env 8 0 1 shift_21_block) = WExited 1 /\
      forall b r,
        0 <= b < 8 ->
        In r (ranges_of (fst (copy_blocks (S (S fuel)) ideal_env 8 0 1 shift_21_block))) ->
        ~ in_range b r).
Proof.
  split; [reflexivity |]. split; [reflexivity |].
  intros fuel. rewrite shift_21_run. split; [reflexivity |].
  intros b r Hb [<- | []]. unfold in_range. simpl. lia.
Qed.

(** The example of the design document: 3 MiB in blocks of 1 MiB, two
    workers. *)
Example three_blocks_two_workers :
  ranges_of (fst (copy_blocks 4 ideal_env 3145728 0 2 1048576))
    = [(0, 1048576); (2097152, 1048576)] /\
  ranges_of (fst (copy_blocks 4 ideal_env 3145728 1 2 1048576))
    = [(1048576, 1048576)].
Proof. split; vm_compute; reflexivity. Qed.

(** The two offsets do not stay together at every block size.  At the one
    of [-s 21] the second block of the only worker is begun with the source
    offset 0 and the destination offset [-2^31]; the source offset has not
    moved by [n * bs]. *)
Lemma shift_21_offsets_part :
  block_size_of_shift 21 = Some shift_21_block /\
  0 < shift_21_block /\
  (forall fuel,
      seeks_of (fst (copy_blocks (S (S fuel)) ideal_env 8 0 1 shift_21_block))
      = [(0, 0); (0, -2147483648)]).
Proof.
  split; [reflexivity |]. split; [reflexivity |].
  intros fuel. rewrite shift_21_run. reflexivity.
Qed.

(** C9, as the code has it.  When the offsets fit [off_t] ([n <= INT_MAX]
    and [fs + n * bs <= OFF_MAX]), in every run of a worker, finished or
    not, the destination offset
    equals the source offset at the head of every block, the [k]-th block
    starts at [i * bs + k * (n * bs)] on both sides, and every [sendfile]
    writes at the destination position it reads from in the source. *)
Theorem transfers_keep_offsets fs bs n i :
  0 <= fs -> 0 < bs -> 0 < n <= INT_MAX -> 0 <= i < n -> fs + n * bs <= OFF_MAX ->
  forall fuel env,
    (forall o d ok, In (EvSeek o d ok) (fst (copy_blocks fuel env fs i n bs)) -> d = o) /\
    (forall (k : nat) o d,
        nth_error (seeks_of (fst (copy_blocks fuel env fs i n bs))) k = Some (o, d) ->
        o = i * bs + Z.of_nat k * (n * bs) /\ d = o) /\
    (forall p o c r e,
        In (EvSendfile p o c r e) (fst (copy_blocks fuel env fs i n bs)) -> p = o).
Proof.
  intros Hfs Hbs Hn Hi Hfit fuel env.
  pose proof (copy_blocks_aligned _ _ _ Hfs Hbs Hn Hfit _ Hi fuel env) as Hal.
  rewrite Forall_forall in Hal.
  split; [| split].
  - intros o d ok Hin. apply Hal in Hin. simpl in Hin. congruence.
  - intros k o d Hk. apply (copy_blocks_seeks _ _ _ Hfs Hbs Hn Hfit _ Hi fuel env _ _ _ Hk).
  - intros p o c r e Hin. apply Hal in Hin. exact Hin.
Qed.

Lemma transfers_keep_offsets_witness :
  exists o d,
    nth_error (seeks_of (fst (copy_blocks 5 bytewise_env 10 1 2 3))) 1 = Some (o, d) /\
    o = 1 * 3 + Z.of_nat 1 * (2 * 3) /\ d = o.
Proof.
  assert (H0 : 0 <= 10) by lia.
  assert (H1 : 0 < 3) by lia.
  assert (H2 : 0 < 2 <= INT_MAX) by (unfold INT_MAX; lia).
  assert (H3 : 0 <= 1 < 2) by lia.
  assert (H4 : 10 + 2 * 3 <= OFF_MAX) by (unfold OFF_MAX; lia).
  exists 9, 9. split; [vm_compute; reflexivity |].
  apply (proj1 (proj2 (transfers_keep_offsets 10 3 2 1 H0 H1 H2 H3 H4 5%nat bytewise_env))
               1%nat 9 9).
  vm_compute. reflexivity.
Defined.

(* ================================================================= *)
(** ** The parent: [perform_copy] *)

Lemma bind_returned {A B : Type} (m : proc A) (f : A -> proc B) [a] :
  p_out m = Returned a ->
  bind m f = {| p_events := p_events m ++ p_events (f a); p_out := p_out (f a) |}.
Proof. intros H. unfold bind. rewrite H. reflexivity. Qed.

Lemma bind_exited {A B : Type} (m : proc A) (f : A -> proc B) [c] :
  p_out m = Exited c ->
  bind m f = {| p_events := p_events m; p_out := Exited c |}.
Proof. intros H. unfold bind. rewrite H. reflexivity. Qed.

Lemma bind_emit {B : Type} e (f : unit -> proc B) :
  bind (emit e) f = {| p_events := e :: p_events (f tt); p_out := p_out (f tt) |}.
Proof. reflexivity. Qed.

Lemma wait_loop_run count :
  wait_loop count = {| p_events := repeat PWait count; p_out := Returned tt |}.
Proof.
  induction count as [| count IH]; simpl; [reflexivity |].
  rewrite bind_emit, IH. reflexivity.
Qed.

Lemma zrange_In j :
  forall count i, In j (zrange i count) -> i <= j < i + Z.of_nat count.
Proof.
  induction count as [| count IH]; intros i Hin; simpl in Hin; [contradiction |].
  destruct Hin as [<- | Hin]; [lia |]. apply IH in Hin. lia.
Qed.

Lemma fork_loop_run env fs n bs :
  forall count i,
    (forall j, i <= j < i + Z.of_nat count -> fork_ok env j = true) ->
    fork_loop count env fs i n bs =
    {| p_events := map (fork_event env fs n bs) (zrange i count); p_out := Returned tt |}.
Proof.
  induction count as [| count IH]; intros i Hok; simpl; [reflexivity |].
  rewrite Hok by lia. rewrite bind_emit, IH; [reflexivity |].
  intros j Hj. apply Hok. lia.
Qed.

Lemma children_forks env fs n bs l :
  children (map (fork_event env fs n bs) l) =
  map (fun j => (j, copy_blocks (worker_fuel env) (worker env j) fs j n bs)) l.
Proof.
  induction l as [| j l IH]; simpl; [reflexivity |]. rewrite IH. reflexivity.
Qed.

(** The run of [perform_copy] when the parent's calls succeed. *)
Lemma perform_copy_run env n bs r fs :
  stat_size env = Some fs -> create_dest_ok env = true ->
  (forall i, 0 <= i < n -> fork_ok env i = true) ->
  (forall i, 0 <= i < n ->
             terminated (snd (copy_blocks (worker_fuel env) (worker env i) fs i n bs)) = true) ->
  perform_copy env n bs r =
  {| p_events :=
       PStat fs :: PCreateDest :: PTime (start_time env)
         :: map (fork_event env fs n bs) (zrange 0 (Z.to_nat n))
         ++ repeat PWait (Z.to_nat n)
         ++ [PTime (end_time env);
             PCompleted (elapsed (start_time env) (end_time env)); PThroughput];
     p_out := Returned {| num_processes := n; block_size := bs;
                          elapsed_time := elapsed (start_time env) (end_time env);
                          shift_value := shift_value r |} |}.
Proof.
  intros Hstat Hcreate Hfork Hterm.
  unfold perform_copy. rewrite Hstat, Hcreate.
  rewrite fork_loop_run by (intros j Hj; apply Hfork; lia).
  rewrite !bind_emit. cbn [p_events p_out].
  unfold wait_all. cbn [p_events].
  rewrite children_forks.
  assert (Hall : forallb (fun c : Z * (list event * wstatus) => terminated (snd (snd c)))
                   (map (fun j => (j, copy_blocks (worker_fuel env) (worker env j) fs j n bs))
                        (zrange 0 (Z.to_nat n))) = true).
  { apply forallb_forall. intros c Hin. apply in_map_iff in Hin.
    destruct Hin as (j & <- & Hj). simpl. apply Hterm.
    apply zrange_In in Hj. lia. }
  rewrite Hall, wait_loop_run.
  unfold bind. cbn. reflexivity.
Qed.

Lemma children_app l1 l2 : children (l1 ++ l2) = children l1 ++ children l2.
Proof.
  induction l1 as [| e l1 IH]; simpl; [reflexivity |].
  destruct e; try exact IH. destruct child; [simpl; rewrite IH; reflexivity | exact IH].
Qed.

Lemma children_waits k : children (repeat PWait k) = [].
Proof. induction k; simpl; auto. Qed.

Lemma stderr_of_app l1 l2 : stderr_of (l1 ++ l2) = stderr_of l1 ++ stderr_of l2.
Proof. unfold stderr_of. apply flat_map_app. Qed.

Lemma stderr_of_forks env fs n bs l : stderr_of (map (fork_event env fs n bs) l) = [].
Proof. induction l; simpl; auto. Qed.

Lemma stderr_of_waits k : stderr_of (repeat PWait k) = [].
Proof. induction k; simpl; auto. Qed.

Lemma dest_after_waits st k rest :
  dest_after st (repeat PWait k ++ rest) = dest_after st rest.
Proof. induction k; simpl; auto. Qed.

Lemma dest_after_idle_forks env fs n bs rest :
  (forall j len,
      dest_length len (fst (copy_blocks (worker_fuel env) (worker env j) fs j n bs)) = len) ->
  forall l st,
    dest_after (Some st) (map (fork_event env fs n bs) l ++ rest) = dest_after (Some st) rest.
Proof.
  intros Hidle. induction l as [| j l IH]; intros st; simpl; [reflexivity |].
  rewrite Hidle. apply IH.
Qed.

Lemma transfer_calls_forks env fs n bs l :
  (forall j, transfer_calls (fst (copy_blocks (worker_fuel env) (worker env j) fs j n bs)) = O) ->
  all_transfer_calls (map (fork_event env fs n bs) l ++ repeat PWait (Z.to_nat n)
                          ++ [PTime (end_time env);
                              PCompleted (elapsed (start_time env) (end_time env));
                              PThroughput]) = O.
Proof.
  intros Hnone. unfold all_transfer_calls.
  rewrite !children_app, children_waits, children_forks. simpl. rewrite app_nil_r.
  induction l as [| j l IH]; simpl; [reflexivity |].
  rewrite Hnone, IH. reflexivity.
Qed.

(** A worker on an empty file calls [sendfile] never and ends at once. *)
Lemma copy_blocks_empty_file fuel env i n bs :
  (1 <= fuel)%nat ->
  transfer_calls (fst (copy_blocks fuel env 0 i n bs)) = O /\
  terminated (snd (copy_blocks fuel env 0 i n bs)) = true /\
  forall len, dest_length len (fst (copy_blocks fuel env 0 i n bs)) = len.
Proof.
  intros Hfuel. unfold copy_blocks.
  destruct (open_source_ok env); [| simpl; auto].
  destruct (open_dest_ok env); [| simpl; auto].
  set (off := to_off (size_mul i bs)).
  destruct fuel as [| fuel]; [lia |]. simpl.
  destruct (off <? 0) eqn:E; [| simpl; auto].
  apply Z.ltb_lt in E.
  assert (Hl : lseek_ok (dest_seekable env) off = false).
  { unfold lseek_ok. destruct (0 <=? off) eqn:E0; [apply Z.leb_le in E0; lia |].
    apply andb_false_r. }
  rewrite Hl. simpl. auto.
Qed.

(** A worker on an empty file whose offsets fit [off_t] and whose two
    [open] calls succeed opens, closes and returns: no seek, no transfer,
    no message. *)
Lemma copy_blocks_empty_quiet fuel env i n bs :
  0 <= bs -> n * bs <= OFF_MAX -> 0 <= i < n ->
  open_source_ok env = true -> open_dest_ok env = true ->
  copy_blocks fuel env 0 i n bs =
  ([EvOpen SourceFd true; EvOpen DestFd true; EvClose SourceFd; EvClose DestFd],
   WReturned).
Proof.
  intros Hbs Hfit Hi Hs Hd. unfold copy_blocks. rewrite Hs, Hd.
  assert (Hoff : 0 <= to_off (size_mul i bs)).
  { destruct (Z.eq_dec bs 0) as [-> | Hne].
    - unfold size_mul, to_size, to_off. rewrite Z.mul_0_r. vm_compute. discriminate.
    - rewrite size_mul_small by nia. rewrite to_off_small; [nia |].
      unfold OFF_MAX in *. nia. }
  assert (Hlt : (to_off (size_mul i bs) <? 0) = false) by (apply Z.ltb_ge; exact Hoff).
  destruct fuel as [| fuel]; cbn [block_loop]; rewrite Hlt; reflexivity.
Qed.

(** With an empty source and the block size of [-s 21], the second of two
    workers starts at the offset [-2^31]: it enters its loop, fails in
    [lseek], prints an error and exits with status 1. *)
Lemma shift_21_empty_source :
  block_size_of_shift 21 = Some shift_21_block /\
  children (p_events (main (sample_main_env (sample_copy_env (Some 0) (fun _ => ideal_env)))
                           {| options := [OptP 2; OptS 21]; operands := 2 |})) =
  [(0, ([EvOpen SourceFd true; EvOpen DestFd true; EvClose SourceFd; EvClose DestFd],
        WReturned));
   (1, ([EvOpen SourceFd true; EvOpen DestFd true;
         EvSeek (-2147483648) (-2147483648) false; EvPerror ErrSeek;
         EvClose SourceFd; EvClose DestFd],
        WExited 1))] /\
  worker_failed
    (p_events (main (sample_main_env (sample_copy_env (Some 0) (fun _ => ideal_env)))
                    {| options := [OptP 2; OptS 21]; operands := 2 |})) = true.
Proof. vm_compute. repeat split. Qed.

(** C8, as the code has it.  On a source of length 0, whatever the worker
    count and the block size: the copy creates the destination with length
    0 and no worker calls [sendfile]; the parent reads the clock before the
    forks and after the waits, reports the difference of the two readings
    as the time, writes nothing to [stderr] and returns its result.  The
    workers are free of errors too when their offsets fit [off_t]
    ([n * bs <= OFF_MAX]) and their [open] calls succeed: each of them
    opens, closes and returns. *)
Theorem empty_file_copy env n bs r :
  stat_size env = Some 0 -> create_dest_ok env = true ->
  (forall i, 0 <= i < n -> fork_ok env i = true) -> (1 <= worker_fuel env)%nat ->
  let measured :=
    (inject_Z (tv_sec (end_time env) - tv_sec (start_time env))
     + ((tv_usec (end_time env) - tv_usec (start_time env)) # 1000000))%Q in
  perform_copy env n bs r =
    {| p_events :=
         PStat 0 :: PCreateDest :: PTime (start_time env)
           :: map (fork_event env 0 n bs) (zrange 0 (Z.to_nat n))
           ++ repeat PWait (Z.to_nat n)
           ++ [PTime (end_time env); PCompleted measured; PThroughput];
       p_out := Returned {| num_processes := n; block_size := bs;
                            elapsed_time := measured;
                            shift_value := shift_value r |} |} /\
  all_transfer_calls (p_events (perform_copy env n bs r)) = O /\
  dest_after None (p_events (perform_copy env n bs r)) = Some 0 /\
  stderr_of (p_events (perform_copy env n bs r)) = [] /\
  (0 <= bs -> n * bs <= OFF_MAX ->
   forall i, 0 <= i < n ->
     open_source_ok (worker env i) = true -> open_dest_ok (worker env i) = true ->
     copy_blocks (worker_fuel env) (worker env i) 0 i n bs =
     ([EvOpen SourceFd true; EvOpen DestFd true; EvClose SourceFd; EvClose DestFd],
      WReturned)).
Proof.
  intros Hstat Hcreate Hfork Hfuel measured.
  pose proof (fun i => @copy_blocks_empty_file _ (worker env i) i n bs Hfuel) as Hw.
  rewrite (@perform_copy_run env n bs r 0 Hstat Hcreate Hfork
             (fun i _ => proj1 (proj2 (Hw i)))).
  cbn [p_out p_events]. split; [reflexivity |]. split; [| split; [| split]].
  - unfold all_transfer_calls. cbn [children].
    apply transfer_calls_forks. intros j. apply (Hw j).
  - cbn [dest_after].
    rewrite dest_after_idle_forks by (intros j len; apply (Hw j)).
    rewrite dest_after_waits. reflexivity.
  - unfold stderr_of at 1. cbn [flat_map app].
    fold (stderr_of (map (fork_event env 0 n bs) (zrange 0 (Z.to_nat n))
                         ++ repeat PWait (Z.to_nat n)
                         ++ [PTime (end_time env);
                             PCompleted (elapsed (start_time env) (end_time env));
                             PThroughput])).
    rewrite !stderr_of_app, stderr_of_forks, stderr_of_waits. reflexivity.
  - intros Hbs Hfit i Hi Hs Hd. apply copy_blocks_empty_quiet; assumption.
Qed.

(** Three workers and blocks of 64 KiB on an empty source; the clock reads
    100.25 s before and 101.75 s after. *)
Lemma empty_file_copy_witness :
  p_events (perform_copy (sample_copy_env (Some 0) (fun _ => ideal_env))
                         3 65536 zero_result) =
  PStat 0 :: PCreateDest :: PTime {| tv_sec := 100; tv_usec := 250000 |}
    :: map (fun j => PFork j (Some ([EvOpen SourceFd true; EvOpen DestFd true;
                                     EvClose SourceFd; EvClose DestFd], WReturned)))
           [0; 1; 2]
    ++ [PWait; PWait; PWait;
        PTime {| tv_sec := 101; tv_usec := 750000 |};
        PCompleted (1500000 # 1000000); PThroughput] /\
  all_transfer_calls
    (p_events (perform_copy (sample_copy_env (Some 0) (fun _ => ideal_env))
                            3 65536 zero_result)) = O /\
  dest_after None
    (p_events (perform_copy (sample_copy_env (Some 0) (fun _ => ideal_env))
                            3 65536 zero_result)) = Some 0.
Proof.
  destruct (@empty_file_copy (sample_copy_env (Some 0) (fun _ => ideal_env))
              3 65536 zero_result) as (Hrun & Hcalls & Hdest & _).
  - reflexivity.
  - reflexivity.
  - intros i _. reflexivity.
  - simpl. lia.
  - split; [| split; assumption].
    rewrite Hrun. vm_compute. reflexivity.
Defined.

(* ================================================================= *)
(** ** Failures of [sendfile] *)

Lemma sendfile_loop_head fuel fs oracle dp off ts :
  0 < ts -> off < fs ->
  exists r e tl,
    fst (sendfile_loop (S fuel) fs oracle dp off ts) = EvSendfile dp off ts r e :: tl.
Proof.
  intros Hts Hoff. simpl.
  assert (Hc : (0 <? ts) && (off <? fs) = true).
  { apply andb_true_iff. split; apply Z.ltb_lt; assumption. }
  rewrite Hc.
  destruct (sendfile_ret fs off (to_size ts) (oracle O) <=? 0).
  - destruct (is_transient (sendfile_errno (oracle O))); simpl; eauto.
  - simpl. eauto.
Qed.

Lemma is_transient_true e : is_transient e = true -> e = EINTR \/ e = EAGAIN.
Proof.
  unfold is_transient. intros H. apply orb_true_iff in H.
  destruct H as [H | H]; apply Z.eqb_eq in H; auto.
Qed.

Lemma is_transient_false e : is_transient e = false -> e <> EINTR /\ e <> EAGAIN.
Proof.
  unfold is_transient. intros H. apply orb_false_iff in H.
  destruct H as [H1 H2]. apply Z.eqb_neq in H1. apply Z.eqb_neq in H2. auto.
Qed.

(** A failed call that is retried, at the head of a trace. *)
Lemma discipline_retry p o c r e rest st :
  is_transient e = true ->
  match rest with
  | [] => st = WRunning
  | next :: _ => exists r' e', next = EvSendfile p o c r' e'
  end ->
  retry_discipline rest st ->
  retry_discipline (EvSendfile p o c r e :: rest) st.
Proof.
  intros Ht Hnext Hrest. cbn [retry_discipline].
  apply is_transient_true in Ht.
  split; [intros _ _; exact Hnext |].
  split; [| exact Hrest].
  intros _ H1 H2. destruct Ht; contradiction.
Qed.

(** A failed call that ends the worker. *)
Lemma discipline_fatal p o c r e :
  is_transient e = false ->
  retry_discipline
    [EvSendfile p o c r e; EvPerror ErrSendfile; EvClose SourceFd; EvClose DestFd]
    (WExited 1).
Proof.
  intros Ht. cbn [retry_discipline].
  apply is_transient_false in Ht. destruct Ht as [H1 H2].
  split; [intros _ [H | H]; contradiction |].
  split; [intros _ _ _; split; reflexivity | exact I].
Qed.

(** A call that moved data. *)
Lemma discipline_moved p o c r e rest st :
  0 < r -> retry_discipline rest st ->
  retry_discipline (EvSendfile p o c r e :: rest) st.
Proof.
  intros Hr Hrest. cbn [retry_discipline].
  split; [intros Hle; lia |]. split; [intros Hle; lia | exact Hrest].
Qed.

Lemma sendfile_loop_discipline fuel fs :
  forall oracle dp off ts rest st,
    match snd (sendfile_loop fuel fs oracle dp off ts) with
    | SendDone _ _ _ _ =>
        retry_discipline rest st ->
        retry_discipline (fst (sendfile_loop fuel fs oracle dp off ts) ++ rest) st
    | SendFatal =>
        retry_discipline (fst (sendfile_loop fuel fs oracle dp off ts)
                              ++ [EvPerror ErrSendfile; EvClose SourceFd; EvClose DestFd])
                         (WExited 1)
    | SendRunning =>
        retry_discipline (fst (sendfile_loop fuel fs oracle dp off ts)) WRunning
    end.
Proof.
  induction fuel as [| fuel IH]; intros oracle dp off ts rest st.
  - simpl. destruct ((0 <? ts) && (off <? fs)); simpl; auto.
  - simpl.
    destruct ((0 <? ts) && (off <? fs)) eqn:Hc; [| simpl; auto].
    pose proof Hc as Hc'.
    apply andb_true_iff in Hc. destruct Hc as [Hc1 Hc2].
    apply Z.ltb_lt in Hc1. apply Z.ltb_lt in Hc2.
    set (b := sendfile_ret fs off (to_size ts) (oracle O)).
    destruct (b <=? 0) eqn:Hb.
    + destruct (is_transient (sendfile_errno (oracle O))) eqn:Ht.
      * (* transient: the same call again *)
        pose proof (IH (oracle_tail oracle) dp off ts rest st) as IHretry.
        destruct fuel as [| fuel'].
        { simpl. rewrite Hc'. cbn [fst snd].
          exact (discipline_retry dp off ts b _ [] WRunning Ht eq_refl I). }
        destruct (@sendfile_loop_head fuel' fs (oracle_tail oracle) dp off ts Hc1 Hc2)
          as (r' & e' & tl & Hhead).
        remember (sendfile_loop (S fuel') fs (oracle_tail oracle) dp off ts) as again.
        unfold with_event. cbn [fst snd].
        destruct (snd again).
        -- intros Hrest. cbn [app].
           apply discipline_retry; [exact Ht | | apply IHretry; exact Hrest].
           rewrite Hhead. cbn [app]. eauto.
        -- cbn [app].
           apply discipline_retry; [exact Ht | | exact IHretry].
           rewrite Hhead. cbn [app]. eauto.
        -- apply discipline_retry; [exact Ht | | exact IHretry].
           rewrite Hhead. eauto.
      * cbn [fst snd app]. apply discipline_fatal. exact Ht.
    + apply Z.leb_gt in Hb.
      pose proof (IH (oracle_tail oracle) (dp + b) (off + b) (to_off (ts - b)) rest st) as IHgo.
      unfold with_event. cbn [fst snd].
      destruct (snd (sendfile_loop fuel fs (oracle_tail oracle) (dp + b) (off + b)
                                   (to_off (ts - b)))).
      * intros Hrest. cbn [app].
        apply discipline_moved; [exact Hb | apply IHgo; exact Hrest].
      * cbn [app]. apply discipline_moved; [exact Hb | exact IHgo].
      * apply discipline_moved; [exact Hb | exact IHgo].
Qed.

Lemma block_loop_discipline fuel seekable fs n bs :
  forall oracle off doff,
    retry_discipline (fst (block_loop fuel seekable fs n bs oracle off doff))
                     (snd (block_loop fuel seekable fs n bs oracle off doff)).
Proof.
  induction fuel as [| fuel IH]; intros oracle off doff; simpl.
  - destruct (off <? fs); simpl; exact I.
  - destruct (off <? fs); [| simpl; exact I].
    destruct (lseek_ok seekable doff); [| simpl; exact I].
    pose proof (fun rest st =>
                  sendfile_loop_discipline fuel fs oracle doff off (to_off bs) rest st) as Hin.
    destruct (sendfile_loop fuel fs oracle doff off (to_off bs)) as [tr res].
    cbn [fst snd] in Hin.
    destruct res as [oracle' dp' off' ts' | |]; cbn [fst snd retry_discipline].
    + apply Hin. apply IH.
    + apply (Hin [] WReturned).
    + apply (Hin [] WReturned).
Qed.

Lemma copy_blocks_discipline fuel env fs i n bs :
  retry_discipline (fst (copy_blocks fuel env fs i n bs))
                   (snd (copy_blocks fuel env fs i n bs)).
Proof.
  unfold copy_blocks.
  destruct (open_source_ok env); [| simpl; exact I].
  destruct (open_dest_ok env); [| simpl; exact I].
  cbn [fst snd retry_discipline]. apply block_loop_discipline.
Qed.

Lemma retries_unbounded fs dp off ts r oracle fuel :
  0 < ts -> off < fs ->
  sendfile_ret fs off (to_size ts) r <= 0 ->
  is_transient (sendfile_errno r) = true ->
  forall k : nat,
    sendfile_loop (k + fuel) fs (after_failures k r oracle) dp off ts =
    (repeat (EvSendfile dp off ts (sendfile_ret fs off (to_size ts) r) (sendfile_errno r)) k
       ++ fst (sendfile_loop fuel fs oracle dp off ts),
     snd (sendfile_loop fuel fs oracle dp off ts)).
Proof.
  intros Hts Hoff Hret Htr.
  assert (Hc : (0 <? ts) && (off <? fs) = true)
    by (apply andb_true_iff; split; apply Z.ltb_lt; assumption).
  induction k as [| k IH].
  - simpl. destruct (sendfile_loop fuel fs oracle dp off ts); reflexivity.
  - cbn [Nat.add sendfile_loop]. rewrite Hc.
    cbn [after_failures].
    apply Z.leb_le in Hret. rewrite Hret, Htr.
    change (oracle_tail (fun j : nat => match j with
                                        | O => r
                                        | S j' => after_failures k r oracle j'
                                        end))
      with (after_failures k r oracle).
    rewrite IH. reflexivity.
Qed.

Lemma perform_copy_children env n bs r fs :
  stat_size env = Some fs -> create_dest_ok env = true ->
  (forall i, 0 <= i < n -> fork_ok env i = true) ->
  (forall i, 0 <= i < n ->
             terminated (snd (copy_blocks (worker_fuel env) (worker env i) fs i n bs)) = true) ->
  children (p_events (perform_copy env n bs r)) =
  map (fun j => (j, copy_blocks (worker_fuel env) (worker env j) fs j n bs))
      (zrange 0 (Z.to_nat n)).
Proof.
  intros Hstat Hcreate Hfork Hterm.
  rewrite (perform_copy_run env n bs r fs Hstat Hcreate Hfork Hterm).
  cbn [p_events children].
  rewrite !children_app, children_waits, children_forks. simpl.
  rewrite app_nil_r. reflexivity.
Qed.

Lemma perform_copy_quiet env n bs r fs :
  stat_size env = Some fs -> create_dest_ok env = true ->
  (forall i, 0 <= i < n -> fork_ok env i = true) ->
  (forall i, 0 <= i < n ->
             terminated (snd (copy_blocks (worker_fuel env) (worker env i) fs i n bs)) = true) ->
  stderr_of (p_events (perform_copy env n bs r)) = [].
Proof.
  intros Hstat Hcreate Hfork Hterm.
  rewrite (perform_copy_run env n bs r fs Hstat Hcreate Hfork Hterm).
  cbn [p_events].
  change (stderr_of (map (fork_event env fs n bs) (zrange 0 (Z.to_nat n))
                         ++ repeat PWait (Z.to_nat n)
                         ++ [PTime (end_time env);
                             PCompleted (elapsed (start_time env) (end_time env));
                             PThroughput]) = []).
  rewrite !stderr_of_app, stderr_of_forks, stderr_of_waits. reflexivity.
Qed.

(** C3.  (1) In every run of a worker, a [sendfile] that returns zero or
    less with [errno] [EINTR] or [EAGAIN] is followed by the same call (same
    destination position, same source offset, same count), and one that
    returns zero or less with any other [errno] is followed by the
    worker's error message, the closing of both descriptors and [exit(1)],
    and by nothing else.  (2) There is no cap and no delay: after any
    number [k] of failures with [EINTR] or [EAGAIN] the loop has made [k]
    calls, all the same, and goes on as if none had happened.  (3) The
    parent does not look at the status of its children: when its own calls
    succeed and the children end, it returns its result and prints no
    error whatever the statuses are, and worker [j] runs [copy_blocks] on
    its own descriptors only. *)
Theorem transfer_failures_are_local :
  (forall fuel env fs i n bs,
      retry_discipline (fst (copy_blocks fuel env fs i n bs))
                       (snd (copy_blocks fuel env fs i n bs))) /\
  (forall (k : nat) fuel fs oracle dp off ts r,
      0 < ts -> off < fs ->
      sendfile_ret fs off (to_size ts) r <= 0 ->
      sendfile_errno r = EINTR \/ sendfile_errno r = EAGAIN ->
      sendfile_loop (k + fuel) fs (after_failures k r oracle) dp off ts =
      (repeat (EvSendfile dp off ts (sendfile_ret fs off (to_size ts) r) (sendfile_errno r)) k
         ++ fst (sendfile_loop fuel fs oracle dp off ts),
       snd (sendfile_loop fuel fs oracle dp off ts))) /\
  (forall env n bs r fs,
      stat_size env = Some fs -> create_dest_ok env = true ->
      (forall i, 0 <= i < n -> fork_ok env i = true) ->
      (forall i, 0 <= i < n ->
                 terminated (snd (copy_blocks (worker_fuel env) (worker env i) fs i n bs))
                 = true) ->
      p_out (perform_copy env n bs r)
        = Returned {| num_processes := n; block_size := bs;
                      elapsed_time := elapsed (start_time env) (end_time env);
                      shift_value := shift_value r |} /\
      stderr_of (p_events (perform_copy env n bs r)) = [] /\
      children (p_events (perform_copy env n bs r)) =
      map (fun j => (j, copy_blocks (worker_fuel env) (worker env j) fs j n bs))
          (zrange 0 (Z.to_nat n))).
Proof.
  split; [| split].
  - intros. apply copy_blocks_discipline.
  - intros k fuel fs oracle dp off ts r Hts Hoff Hret Htr.
    apply retries_unbounded; try assumption.
    unfold is_transient. destruct Htr as [-> | ->]; reflexivity.
  - intros env n bs r fs Hstat Hcreate Hfork Hterm. split; [| split].
    + rewrite (perform_copy_run env n bs r fs Hstat Hcreate Hfork Hterm). reflexivity.
    + apply (perform_copy_quiet env n bs r fs Hstat Hcreate Hfork Hterm).
    + apply (perform_copy_children env n bs r fs Hstat Hcreate Hfork Hterm).
Qed.

(** Two workers on 8 bytes in blocks of 4.  Worker 0 is interrupted, would
    block, gets 0 with the same [errno], and then copies its block: four
    calls, all the same.  Worker 1 fails with [EIO], prints its message and
    exits with status 1.  A thousand failures with [EAGAIN] are a thousand
    calls before the one that copies.  The parent returns and prints
    nothing. *)
Lemma transfer_failures_are_local_witness :
  retry_discipline (fst (copy_blocks 8 flaky_env 8 0 2 4))
                   (snd (copy_blocks 8 flaky_env 8 0 2 4)) /\
  copy_blocks 8 flaky_env 8 0 2 4 =
    ([EvOpen SourceFd true; EvOpen DestFd true; EvSeek 0 0 true;
      EvSendfile 0 0 4 (-1) EINTR; EvSendfile 0 0 4 (-1) EAGAIN;
      EvSendfile 0 0 4 0 EAGAIN; EvSendfile 0 0 4 4 0;
      EvClose SourceFd; EvClose DestFd], WReturned) /\
  retry_discipline (fst (copy_blocks 8 failing_env 8 1 2 4))
                   (snd (copy_blocks 8 failing_env 8 1 2 4)) /\
  copy_blocks 8 failing_env 8 1 2 4 =
    ([EvOpen SourceFd true; EvOpen DestFd true; EvSeek 4 4 true;
      EvSendfile 4 4 4 (-1) EIO; EvPerror ErrSendfile;
      EvClose SourceFd; EvClose DestFd], WExited 1) /\
  fst (sendfile_loop (1000 + 1) 8 (after_failures 1000 (SfError EAGAIN) (fun _ => SfMoved 4))
                     0 0 4)
    = repeat (EvSendfile 0 0 4 (-1) EAGAIN) 1000 ++ [EvSendfile 0 0 4 4 0] /\
  map (fun c => exit_status (snd (snd c)))
      (children (p_events (perform_copy (sample_copy_env (Some 8) mixed_workers)
                                        2 4 zero_result))) = [Some 0; Some 1] /\
  stderr_of (p_events (perform_copy (sample_copy_env (Some 8) mixed_workers)
                                    2 4 zero_result)) = [].
Proof.
  destruct transfer_failures_are_local as (Hdisc & Hcap & Hparent).
  split; [apply Hdisc |]. split; [reflexivity |].
  split; [apply Hdisc |]. split; [reflexivity |].
  split.
  - assert (Hts : 0 < 4) by lia.
    assert (Hoff : 0 < 8) by lia.
    assert (Hret : sendfile_ret 8 0 (to_size 4) (SfError EAGAIN) <= 0) by (simpl; lia).
    rewrite (Hcap 1000%nat 1%nat 8 (fun _ => SfMoved 4) 0 0 4 (SfError EAGAIN)
                  Hts Hoff Hret (or_intror eq_refl)).
    reflexivity.
  - destruct (Hparent (sample_copy_env (Some 8) mixed_workers) 2 4 zero_result 8)
      as (_ & Hquiet & Hchildren).
    + reflexivity.
    + reflexivity.
    + intros i _. reflexivity.
    + intros i Hi. assert (Hcases : i = 0 \/ i = 1) by lia.
      destruct Hcases as [-> | ->]; vm_compute; reflexivity.
    + split; [| exact Hquiet].
      rewrite Hchildren. vm_compute. reflexivity.
Defined.

(* ================================================================= *)
(** ** The command line *)

Lemma bind_ret {A B : Type} (a : A) (f : A -> proc B) : bind (ret a) f = f a.
Proof. unfold bind, ret. simpl. destruct (f a); reflexivity. Qed.

Lemma parse_options_returned env :
  forall opts st st',
    p_out (parse_options env opts st) = Returned st' ->
    m_num_processes st' = last_count opts (m_num_processes st) /\
    m_shift_value st' = last_shift opts (m_shift_value st) /\
    m_block_size st' = last_size opts (m_block_size st).
Proof.
  induction opts as [| o opts IH]; intros st st' H; simpl in *.
  - inversion H; subst. auto.
  - destruct o.
    + apply IH in H. exact H.
    + apply IH in H. exact H.
    + destruct (euid env =? 0); [| discriminate]. apply IH in H. exact H.
    + discriminate.
Qed.

Lemma parse_options_plain env :
  forall opts st,
    forallb plain opts = true ->
    parse_options env opts st =
    ret {| m_num_processes := last_count opts (m_num_processes st);
           m_shift_value := last_shift opts (m_shift_value st);
           m_optimize := m_optimize st;
           m_block_size := last_size opts (m_block_size st) |}.
Proof.
  induction opts as [| o opts IH]; intros st H; simpl in *.
  - destruct st; reflexivity.
  - apply andb_true_iff in H. destruct H as [Ho H].
    destruct o; try discriminate; rewrite (IH _ H); reflexivity.
Qed.

Lemma last_size_shift :
  forall opts s d,
    (s <> 0 -> d = block_size_of_shift s) ->
    last_shift opts s <> 0 ->
    last_size opts d = block_size_of_shift (last_shift opts s).
Proof.
  induction opts as [| o opts IH]; intros s d Hd Hs; simpl in *.
  - apply Hd. exact Hs.
  - destruct o; try (apply IH; assumption).
    apply IH; [reflexivity | exact Hs].
Qed.

(** What [main] settles on after the options and the defaults. *)
Lemma settled_values env opts st :
  p_out (parse_options env opts initial_state) = Returned st ->
  m_num_processes (apply_defaults env st) = resolved_count env opts /\
  m_shift_value (apply_defaults env st) = resolved_shift opts /\
  m_block_size (apply_defaults env st) = block_size_of_shift (resolved_shift opts) /\
  m_optimize (apply_defaults env st) = m_optimize st.
Proof.
  intros H. apply parse_options_returned in H. simpl in H.
  destruct H as (Hn & Hs & Hb).
  unfold apply_defaults, resolved_count, resolved_shift. rewrite Hn, Hs.
  destruct (last_shift opts 0 =? 0) eqn:E; simpl.
  - auto.
  - repeat split; try reflexivity. rewrite Hb.
    apply last_size_shift; [intros Hc; contradiction Hc; reflexivity |].
    apply Z.eqb_neq. exact E.
Qed.

Lemma last_shift_omitted opts d :
  (forall n, ~ In (OptS n) opts) -> last_shift opts d = d.
Proof.
  revert d. induction opts as [| o opts IH]; intros d H; simpl; [reflexivity |].
  destruct o as [n | n | |];
    try (apply IH; intros m Hin; apply (H m); right; exact Hin).
  exfalso. apply (H n). left. reflexivity.
Qed.

Lemma block_size_of_small_shift s :
  6 <= s <= 20 -> block_size_of_shift s = Some (65536 * 2 ^ (s - 6)).
Proof.
  intros H.
  assert (Hcases : s = 6 \/ s = 7 \/ s = 8 \/ s = 9 \/ s = 10 \/ s = 11 \/ s = 12 \/ s = 13
                   \/ s = 14 \/ s = 15 \/ s = 16 \/ s = 17 \/ s = 18 \/ s = 19 \/ s = 20)
    by lia.
  repeat (destruct Hcases as [-> | Hcases]; [vm_compute; reflexivity |]).
  subst. vm_compute. reflexivity.
Qed.

(** C7, as the code has it.  For a shift value [s] from 6 to 20 the block
    size is [65536 * 2^(s-6)] bytes (65,536 for 6 and 1,048,576 for 10), and
    this is the size [main] settles on when the last [-s] gives such an [s];
    when [-s] is omitted, or gives 0, [main] settles on shift 10 and
    1,048,576 bytes. *)
Theorem block_size_from_shift :
  (forall s, 6 <= s <= 20 -> block_size_of_shift s = Some (65536 * 2 ^ (s - 6))) /\
  block_size_of_shift 6 = Some 65536 /\
  block_size_of_shift 10 = Some 1048576 /\
  (forall env opts st,
      p_out (parse_options env opts initial_state) = Returned st ->
      (6 <= last_shift opts 0 <= 20 ->
       m_shift_value (apply_defaults env st) = last_shift opts 0 /\
       m_block_size (apply_defaults env st) = Some (65536 * 2 ^ (last_shift opts 0 - 6))) /\
      (last_shift opts 0 = 0 ->
       m_shift_value (apply_defaults env st) = 10 /\
       m_block_size (apply_defaults env st) = Some 1048576)) /\
  (forall opts, (forall n, ~ In (OptS n) opts) -> last_shift opts 0 = 0).
Proof.
  split; [exact block_size_of_small_shift |].
  split; [reflexivity |]. split; [reflexivity |]. split.
  - intros env opts st H.
    destruct (settled_values env opts st H) as (_ & Hs & Hb & _).
    unfold resolved_shift in *. split.
    + intros Hrange.
      destruct (last_shift opts 0 =? 0) eqn:E; [apply Z.eqb_eq in E; lia |].
      rewrite Hs, Hb. split; [reflexivity | apply block_size_of_small_shift; exact Hrange].
    + intros Hzero. rewrite Hzero in *. simpl in *. rewrite Hs, Hb. split; reflexivity.
  - intros opts H. apply last_shift_omitted. exact H.
Qed.

Lemma block_size_from_shift_witness :
  block_size_of_shift 8 = Some (65536 * 2 ^ (8 - 6)) /\
  m_block_size
    (apply_defaults {| euid := 1000; nprocs := 4;
                       the_copy := sample_copy_env (Some 8) (fun _ => ideal_env);
                       the_sweep :=
                         {| malloc_ok := true;
                            rounds := fun _ =>
                              {| drop_caches_ok := true;
                                 copy := sample_copy_env None (fun _ => ideal_env);
                                 unlink_ok := true |} |} |}
                    {| m_num_processes := 2; m_shift_value := 0; m_optimize := 0;
                       m_block_size := None |}) = Some 1048576.
Proof.
  destruct block_size_from_shift as (Hsmall & _ & _ & Hmain & _).
  split.
  - apply Hsmall. lia.
  - refine (proj2 (proj2 (Hmain _ [OptP 2] _ _) _)); reflexivity.
Defined.

(** Shift 21 does not give [65536 * 2^15] bytes: the product leaves [int].
    Shift 5 asks for a shift by [-1], which C does not define. *)
Lemma shift_21_leaves_int :
  block_size_of_shift 21 = Some 18446744071562067968 /\
  block_size_of_shift 21 <> Some (65536 * 2 ^ (21 - 6)) /\
  block_size_of_shift 5 = None.
Proof.
  split; [vm_compute; reflexivity |]. split; [| vm_compute; reflexivity].
  vm_compute. discriminate.
Qed.

(* ================================================================= *)
(** ** Exit codes *)

Lemma has_fatal_app l1 l2 : has_fatal (l1 ++ l2) = has_fatal l1 || has_fatal l2.
Proof. unfold has_fatal. rewrite stderr_of_app. apply existsb_app. Qed.

Lemma clean_ret {A : Type} (a : A) : clean (ret a).
Proof. reflexivity. Qed.

Lemma clean_emit e : has_fatal [e] = false -> clean (emit e).
Proof. intros H. exact H. Qed.

Lemma clean_die {A : Type} e : is_fatal e = true -> clean (@die A e).
Proof.
  intros H. unfold clean, die, has_fatal. simpl. rewrite H. split; reflexivity.
Qed.

Lemma clean_blocked {A : Type} : clean (@stop A Blocked).
Proof. exact I. Qed.

Lemma clean_bind {A B : Type} (m : proc A) (f : A -> proc B) :
  clean m -> (forall a, clean (f a)) -> clean (bind m f).
Proof.
  unfold clean, bind. intros Hm Hf.
  destruct (p_out m) as [a | c | |]; simpl; try exact Hm; try exact I.
  specialize (Hf a).
  destruct (p_out (f a)) as [b | c | |]; try exact I; rewrite has_fatal_app, Hm; exact Hf.
Qed.

Ltac clean_steps :=
  repeat first
    [ apply clean_ret
    | apply clean_emit; reflexivity
    | apply clean_die; reflexivity
    | apply clean_bind; [| intros ?] ].

Lemma clean_fork_loop env fs n bs :
  forall count i, clean (fork_loop count env fs i n bs).
Proof.
  induction count as [| count IH]; intros i; simpl; [apply clean_ret |].
  destruct (fork_ok env i); clean_steps. apply IH.
Qed.

Lemma clean_wait_loop count : clean (wait_loop count).
Proof. induction count as [| count IH]; simpl; clean_steps. exact IH. Qed.

Lemma clean_perform_copy env n bs r : clean (perform_copy env n bs r).
Proof.
  unfold perform_copy. destruct (stat_size env) as [fs |]; [| apply clean_die; reflexivity].
  apply clean_bind; [apply clean_emit; reflexivity | intros _].
  apply clean_bind; [destruct (create_dest_ok env); clean_steps | intros _].
  apply clean_bind; [apply clean_emit; reflexivity | intros _].
  apply clean_bind; [apply clean_fork_loop | intros _].
  apply clean_bind; [| intros _; clean_steps].
  unfold wait_all.
  destruct (forallb _ _); [apply clean_wait_loop | apply clean_blocked].
Qed.

Lemma clean_sweep_sizes env np :
  forall indices results, clean (sweep_sizes env np indices results).
Proof.
  induction indices as [| i indices IH]; intros results; simpl; [apply clean_ret |].
  destruct (MAX_RUNS <=? Z.of_nat (length results)); [clean_steps |].
  apply clean_bind;
    [unfold drop_caches; destruct (drop_caches_ok _); clean_steps | intros _].
  apply clean_bind; [apply clean_emit; reflexivity | intros _].
  apply clean_bind; [apply clean_perform_copy | intros r].
  apply clean_bind; [destruct (unlink_ok _); clean_steps | intros _].
  apply IH.
Qed.

Lemma clean_sweep_counts env cpus :
  forall per_cpu results, clean (sweep_counts env cpus per_cpu results).
Proof.
  induction per_cpu as [| p per_cpu IH]; intros results; cbn [sweep_counts];
    [apply clean_ret |].
  apply clean_bind; [apply clean_sweep_sizes | intros r; apply IH].
Qed.

Lemma clean_find_optimal_settings env cpus : clean (find_optimal_settings env cpus).
Proof.
  unfold find_optimal_settings, sweep, report.
  destruct (malloc_ok env); [| apply clean_die; reflexivity].
  apply clean_bind; [apply clean_sweep_counts | intros r]. clean_steps.
Qed.

Lemma clean_parse_options env :
  forall opts st, clean (parse_options env opts st).
Proof.
  induction opts as [| o opts IH]; intros st; simpl; [apply clean_ret |].
  destruct o; try apply IH.
  - destruct (euid env =? 0); [apply IH | apply clean_die; reflexivity].
  - unfold clean. simpl. split; reflexivity.
Qed.

Lemma good_bind {A : Type} (m : proc A) (f : A -> proc Z) :
  clean m -> (forall a, good (f a)) -> good (bind m f).
Proof.
  unfold clean, good, bind. intros Hm Hf.
  destruct (p_out m) as [a | c | |]; simpl; try exact I.
  - specialize (Hf a).
    destruct (p_out (f a)) as [b | c | |]; try exact I; rewrite has_fatal_app, Hm; exact Hf.
  - destruct Hm as [-> Hm]. rewrite Hm. split; [right; reflexivity | tauto].
Qed.

Lemma good_then_zero {A : Type} (m : proc A) :
  clean m -> good (bind m (fun _ => ret 0)).
Proof.
  unfold clean, good, bind. intros Hm.
  destruct (p_out m) as [a | c | |]; simpl; try exact I.
  - rewrite app_nil_r, Hm. split; [left; reflexivity |].
    split; intros H; discriminate.
  - destruct Hm as [-> Hm]. rewrite Hm. split; [right; reflexivity | tauto].
Qed.

Lemma good_main env cmd : good (main env cmd).
Proof.
  unfold main.
  apply good_bind; [apply clean_emit; reflexivity | intros _].
  apply good_bind; [apply clean_parse_options | intros st].
  destruct (operands cmd <? 2).
  - unfold good. simpl. split; [right; reflexivity | tauto].
  - destruct (negb (m_optimize (apply_defaults env st) =? 0)).
    + apply good_then_zero. apply clean_find_optimal_settings.
    + destruct (m_block_size (apply_defaults env st)) as [size |]; [| exact I].
      apply good_bind; [apply clean_emit; reflexivity | intros _].
      apply good_then_zero. apply clean_perform_copy.
Qed.

Lemma exit_code_bind_emit e (f : unit -> proc Z) :
  exit_code (bind (emit e) f) = exit_code (f tt).
Proof. reflexivity. Qed.

Lemma parse_options_bad env :
  forall opts st, In OptBad opts -> p_out (parse_options env opts st) = Exited 1.
Proof.
  induction opts as [| o opts IH]; intros st Hin; [contradiction |].
  simpl. destruct Hin as [-> | Hin]; [reflexivity |].
  destruct o; try (apply IH; exact Hin); [| reflexivity].
  destruct (euid env =? 0); [apply IH; exact Hin | reflexivity].
Qed.

Lemma parse_options_not_root env :
  euid env <> 0 ->
  forall opts st, In OptO opts -> p_out (parse_options env opts st) = Exited 1.
Proof.
  intros Hroot. induction opts as [| o opts IH]; intros st Hin; [contradiction |].
  simpl. apply Z.eqb_neq in Hroot.
  destruct Hin as [-> | Hin]; [rewrite Hroot; reflexivity |].
  destruct o; try (apply IH; exact Hin); [| reflexivity].
  rewrite Hroot. reflexivity.
Qed.

Lemma parse_options_ends env :
  forall opts st,
    (exists st', p_out (parse_options env opts st) = Returned st') \/
    p_out (parse_options env opts st) = Exited 1.
Proof.
  induction opts as [| o opts IH]; intros st; simpl; [left; eauto |].
  destruct o; try apply IH; [| right; reflexivity].
  destruct (euid env =? 0); [apply IH | right; reflexivity].
Qed.

Lemma main_parse_exits env cmd :
  p_out (parse_options env (options cmd) initial_state) = Exited 1 ->
  exit_code (main env cmd) = Some 1.
Proof.
  intros H. unfold main. rewrite exit_code_bind_emit.
  rewrite (bind_exited _ _ H). reflexivity.
Qed.

(** [main] with only [-p] and [-s] on the command line, two operands and a
    block size C defines: one copy with the settled values. *)
Lemma main_copy_mode env cmd size :
  forallb plain (options cmd) = true ->
  2 <= operands cmd ->
  block_size_of_shift (resolved_shift (options cmd)) = Some size ->
  main env cmd =
  (emit PBanner ;;;
   emit (PStarting (resolved_count env (options cmd)) (size / 1024)) ;;;
   perform_copy (the_copy env) (resolved_count env (options cmd)) size zero_result ;;;
   ret 0).
Proof.
  intros Hplain Hops Hsize. unfold main.
  pose proof (parse_options_plain env (options cmd) initial_state Hplain) as Hparse.
  rewrite Hparse, bind_ret.
  destruct (operands cmd <? 2) eqn:E; [apply Z.ltb_lt in E; lia |].
  match goal with
  | |- context [apply_defaults env ?s] =>
      assert (Hst : p_out (parse_options env (options cmd) initial_state) = Returned s)
        by (rewrite Hparse; reflexivity);
      destruct (settled_values env (options cmd) s Hst) as (Hn & _ & Hb & Ho)
  end.
  rewrite Ho, Hb, Hsize, Hn. reflexivity.
Qed.

Lemma fork_loop_fails env fs n bs :
  forall count i,
    (exists j, i <= j < i + Z.of_nat count /\ fork_ok env j = false) ->
    p_out (fork_loop count env fs i n bs) = Exited 1.
Proof.
  induction count as [| count IH]; intros i (j & Hj & Hfail); [lia |].
  simpl. destruct (fork_ok env i) eqn:E; [| reflexivity].
  rewrite bind_emit. cbn [p_out]. apply IH.
  exists j. split; [| exact Hfail].
  destruct (Z.eq_dec i j) as [-> | Hne]; [congruence | lia].
Qed.

Lemma perform_copy_no_workers env n bs r fs :
  n <= 0 -> stat_size env = Some fs -> create_dest_ok env = true ->
  perform_copy env n bs r =
  {| p_events := [PStat fs; PCreateDest; PTime (start_time env); PTime (end_time env);
                  PCompleted (elapsed (start_time env) (end_time env)); PThroughput];
     p_out := Returned {| num_processes := n; block_size := bs;
                          elapsed_time := elapsed (start_time env) (end_time env);
                          shift_value := shift_value r |} |}.
Proof.
  intros Hn Hstat Hcreate. unfold perform_copy. rewrite Hstat, Hcreate.
  replace (Z.to_nat n) with O by lia. reflexivity.
Qed.

(** C10.  When only [-p] and [-s] are given, the last [-p] gives a negative
    count, there are two operands and the source can be inspected and the
    destination created: no error is printed, the count stays negative (the
    default is not put in its place), the destination is created, no
    worker is forked, no [sendfile] is called, the completion and the
    elapsed time are reported, the exit code is 0, and the destination is
    left with length 0 whatever the length of the source. *)
Theorem negative_worker_count env cmd size fs :
  forallb plain (options cmd) = true ->
  last_count (options cmd) 0 < 0 ->
  2 <= operands cmd ->
  block_size_of_shift (resolved_shift (options cmd)) = Some size ->
  stat_size (the_copy env) = Some fs ->
  create_dest_ok (the_copy env) = true ->
  exit_code (main env cmd) = Some 0 /\
  p_events (main env cmd) =
    [PBanner; PStarting (last_count (options cmd) 0) (size / 1024);
     PStat fs; PCreateDest; PTime (start_time (the_copy env)); PTime (end_time (the_copy env));
     PCompleted (elapsed (start_time (the_copy env)) (end_time (the_copy env)));
     PThroughput] /\
  stderr_of (p_events (main env cmd)) = [] /\
  children (p_events (main env cmd)) = [] /\
  all_transfer_calls (p_events (main env cmd)) = O /\
  dest_after None (p_events (main env cmd)) = Some 0.
Proof.
  intros Hplain Hneg Hops Hsize Hstat Hcreate.
  rewrite (main_copy_mode env cmd size Hplain Hops Hsize).
  assert (Hcount : resolved_count env (options cmd) = last_count (options cmd) 0).
  { unfold resolved_count.
    destruct (last_count (options cmd) 0 =? 0) eqn:E; [apply Z.eqb_eq in E; lia | reflexivity]. }
  rewrite Hcount.
  assert (Hle : last_count (options cmd) 0 <= 0) by lia.
  rewrite (@perform_copy_no_workers (the_copy env) _ size zero_result fs Hle Hstat Hcreate).
  repeat split.
Qed.

Lemma negative_worker_count_witness :
  exit_code (main (sample_main_env (sample_copy_env (Some 4096) (fun _ => ideal_env)))
                  {| options := [OptP (-3)]; operands := 2 |}) = Some 0 /\
  dest_after None
    (p_events (main (sample_main_env (sample_copy_env (Some 4096) (fun _ => ideal_env)))
                    {| options := [OptP (-3)]; operands := 2 |})) = Some 0.
Proof.
  destruct (@negative_worker_count
              (sample_main_env (sample_copy_env (Some 4096) (fun _ => ideal_env)))
              {| options := [OptP (-3)]; operands := 2 |} 1048576 4096)
    as (Hcode & _ & _ & _ & _ & Hdest).
  - reflexivity.
  - simpl. lia.
  - simpl. lia.
  - reflexivity.
  - reflexivity.
  - reflexivity.
  - split; assumption.
Defined.

Lemma main_copy_fails env cmd size :
  forallb plain (options cmd) = true ->
  2 <= operands cmd ->
  block_size_of_shift (resolved_shift (options cmd)) = Some size ->
  p_out (perform_copy (the_copy env) (resolved_count env (options cmd)) size zero_result)
    = Exited 1 ->
  exit_code (main env cmd) = Some 1.
Proof.
  intros Hplain Hops Hsize Hcopy.
  rewrite (main_copy_mode env cmd size Hplain Hops Hsize).
  rewrite !exit_code_bind_emit. unfold exit_code.
  rewrite (bind_exited _ _ Hcopy). reflexivity.
Qed.

Lemma perform_copy_fork_fails env n bs r fs j :
  stat_size env = Some fs -> create_dest_ok env = true ->
  0 <= j < n -> fork_ok env j = false ->
  p_out (perform_copy env n bs r) = Exited 1.
Proof.
  intros Hstat Hcreate Hj Hfail. unfold perform_copy. rewrite Hstat, Hcreate.
  rewrite !bind_emit. cbn [p_out].
  assert (Hforks : p_out (fork_loop (Z.to_nat n) env fs 0 n bs) = Exited 1).
  { apply fork_loop_fails. exists j. split; [lia | exact Hfail]. }
  rewrite (bind_exited _ _ Hforks). reflexivity.
Qed.

(** C4, as the code has it.  The exit code is 0 or 1, and it is 1 exactly
    when the parent process printed a fatal error.  Fatal in this sense are:
    an unknown option or a missing operand, [-o] without being root, a
    source that cannot be inspected, a destination that cannot be created,
    a failing [fork] (and, in the sweep, a failing allocation of the table,
    cache drop or [unlink]).
    A fatal error of a worker is not among them: when the calls of the
    parent succeed and the workers end, the exit code is 0 and no error is
    printed by the parent, whatever status the workers end with. *)
Theorem exit_code_reports_parent_errors env cmd :
  (forall c, exit_code (main env cmd) = Some c ->
             (c = 0 \/ c = 1) /\
             (c = 1 <-> has_fatal (p_events (main env cmd)) = true)) /\
  (In OptBad (options cmd) -> exit_code (main env cmd) = Some 1) /\
  (operands cmd < 2 -> exit_code (main env cmd) = Some 1) /\
  (In OptO (options cmd) -> euid env <> 0 -> exit_code (main env cmd) = Some 1) /\
  (forall size,
      forallb plain (options cmd) = true ->
      2 <= operands cmd ->
      block_size_of_shift (resolved_shift (options cmd)) = Some size ->
      (stat_size (the_copy env) = None -> exit_code (main env cmd) = Some 1) /\
      (create_dest_ok (the_copy env) = false -> exit_code (main env cmd) = Some 1) /\
      (forall fs j,
          stat_size (the_copy env) = Some fs -> create_dest_ok (the_copy env) = true ->
          0 <= j < resolved_count env (options cmd) -> fork_ok (the_copy env) j = false ->
          exit_code (main env cmd) = Some 1) /\
      (parent_calls_succeed (the_copy env) (resolved_count env (options cmd)) size ->
       exit_code (main env cmd) = Some 0 /\ stderr_of (p_events (main env cmd)) = [])).
Proof.
  split; [| split; [| split; [| split]]].
  - intros c Hc. pose proof (good_main env cmd) as Hgood.
    unfold good in Hgood. unfold exit_code in Hc.
    destruct (p_out (main env cmd)); inversion Hc; subst; exact Hgood.
  - intros Hbad. apply main_parse_exits. apply parse_options_bad. exact Hbad.
  - intros Hops.
    destruct (parse_options_ends env (options cmd) initial_state) as [[st Hst] | Hexit];
      [| apply main_parse_exits; exact Hexit].
    unfold main. rewrite exit_code_bind_emit. unfold exit_code.
    rewrite (bind_returned _ _ Hst). cbn [p_out].
    apply Z.ltb_lt in Hops. rewrite Hops. reflexivity.
  - intros Ho Hroot. apply main_parse_exits. apply parse_options_not_root; assumption.
  - intros size Hplain Hops Hsize. split; [| split; [| split]].
    + intros Hstat. apply (main_copy_fails env cmd size Hplain Hops Hsize).
      unfold perform_copy. rewrite Hstat. reflexivity.
    + intros Hcreate. apply (main_copy_fails env cmd size Hplain Hops Hsize).
      unfold perform_copy. destruct (stat_size (the_copy env)); [| reflexivity].
      rewrite Hcreate. reflexivity.
    + intros fs j Hstat Hcreate Hj Hfail.
      apply (main_copy_fails env cmd size Hplain Hops Hsize).
      apply (perform_copy_fork_fails _ _ _ _ fs j Hstat Hcreate Hj Hfail).
    + intros (fs & Hstat & Hcreate & Hfork & Hterm).
      rewrite (main_copy_mode env cmd size Hplain Hops Hsize).
      rewrite !bind_emit. cbn [p_events p_out].
      pose proof (perform_copy_run _ _ _ zero_result _ Hstat Hcreate Hfork Hterm) as Hrun.
      pose proof (perform_copy_quiet _ _ _ zero_result _ Hstat Hcreate Hfork Hterm) as Hquiet.
      assert (Hout : p_out (perform_copy (the_copy env) (resolved_count env (options cmd))
                                         size zero_result)
                     = Returned {| num_processes := resolved_count env (options cmd);
                                   block_size := size;
                                   elapsed_time := elapsed (start_time (the_copy env))
                                                           (end_time (the_copy env));
                                   shift_value := shift_value zero_result |})
        by (rewrite Hrun; reflexivity).
      rewrite (bind_returned _ _ Hout). cbn [p_events p_out ret]. split; [reflexivity |].
      rewrite app_nil_r.
      change (stderr_of (p_events (perform_copy (the_copy env)
                                     (resolved_count env (options cmd)) size zero_result))
              = []).
      exact Hquiet.
Qed.

(** One worker, whose [sendfile] fails with [EIO]: the worker exits with
    status 1 and the process with code 0. *)
Lemma failed_transfer_exit_code_0 :
  let run := main (sample_main_env (sample_copy_env (Some 8) (fun _ => failing_env)))
                  {| options := [OptP 1]; operands := 2 |} in
  children (p_events run)
    = [(0, ([EvOpen SourceFd true; EvOpen DestFd true; EvSeek 0 0 true;
             EvSendfile 0 0 1048576 (-1) EIO; EvPerror ErrSendfile;
             EvClose SourceFd; EvClose DestFd],
            WExited 1))] /\
  worker_failed (p_events run) = true /\
  exit_code run = Some 0.
Proof. vm_compute. repeat split. Qed.

Lemma exit_code_reports_parent_errors_witness :
  exit_code (main (sample_main_env (sample_copy_env None (fun _ => ideal_env)))
                  {| options := [OptP 2; OptS 6]; operands := 2 |}) = Some 1 /\
  exit_code (main (sample_main_env (sample_copy_env (Some 8) (fun _ => failing_env)))
                  {| options := [OptP 1]; operands := 2 |}) = Some 0.
Proof.
  assert (Hops : 2 <= 2) by lia.
  split.
  - destruct (exit_code_reports_parent_errors
                (sample_main_env (sample_copy_env None (fun _ => ideal_env)))
                {| options := [OptP 2; OptS 6]; operands := 2 |})
      as (_ & _ & _ & _ & Hcopy).
    destruct (Hcopy 65536 eq_refl Hops eq_refl) as (Hstat & _).
    apply Hstat. reflexivity.
  - destruct (exit_code_reports_parent_errors
                (sample_main_env (sample_copy_env (Some 8) (fun _ => failing_env)))
                {| options := [OptP 1]; operands := 2 |})
      as (_ & _ & _ & _ & Hcopy).
    destruct (Hcopy 1048576 eq_refl Hops eq_refl) as (_ & _ & _ & Hok).
    apply Hok. exists 8. split; [reflexivity |]. split; [reflexivity |]. split.
    + intros i _. reflexivity.
    + intros i Hi. change (0 <= i < 1) in Hi. assert (Hi0 : i = 0) by lia.
      subst i. vm_compute. reflexivity.
Defined.

(* ================================================================= *)
(** ** The sweep *)

Lemma bind_inv {A B : Type} (m : proc A) (f : A -> proc B) b :
  p_out (bind m f) = Returned b ->
  exists a, p_out m = Returned a /\ p_out (f a) = Returned b.
Proof.
  unfold bind. destruct (p_out m) as [a | c | |]; simpl; intros H; try discriminate.
  exists a. split; [reflexivity | exact H].
Qed.

Lemma p_out_bind {A B : Type} (m : proc A) (f : A -> proc B) a :
  p_out m = Returned a -> p_out (bind m f) = p_out (f a).
Proof. intros H. rewrite (bind_returned _ _ H). reflexivity. Qed.

(** Whatever happens, the result of a [perform_copy] that returns carries
    the worker count and the block size it was called with, and the shift
    value the caller stored. *)
Lemma perform_copy_result env n bs r r' :
  p_out (perform_copy env n bs r) = Returned r' ->
  num_processes r' = n /\ block_size r' = bs /\ shift_value r' = shift_value r.
Proof.
  unfold perform_copy. destruct (stat_size env) as [fs |]; [| discriminate].
  intros H.
  repeat (apply bind_inv in H; destruct H as (? & _ & H)).
  simpl in H. inversion H; subst. simpl. auto.
Qed.

Lemma sweep_sizes_shape env np :
  forall indices results results',
    Z.of_nat (length results + length indices) <= MAX_RUNS ->
    p_out (sweep_sizes env np indices results) = Returned results' ->
    exists new, results' = results ++ new /\ map run_key new = map (grid_cell np) indices.
Proof.
  induction indices as [| i indices IH]; intros results results' Hcap H; simpl in H.
  - inversion H; subst. exists []. rewrite app_nil_r. auto.
  - destruct (MAX_RUNS <=? Z.of_nat (length results)) eqn:E.
    { apply Z.leb_le in E. simpl in Hcap. lia. }
    apply bind_inv in H. destruct H as (? & _ & H).
    apply bind_inv in H. destruct H as (? & _ & H).
    apply bind_inv in H. destruct H as (r & Hr & H).
    apply bind_inv in H. destruct H as (? & _ & H).
    apply perform_copy_result in Hr. simpl in Hr. destruct Hr as (Hn & Hb & Hs).
    apply IH in H; [| rewrite length_app; simpl in *; lia].
    destruct H as (new & -> & Hnew).
    exists (r :: new). rewrite <- app_assoc. split; [reflexivity |].
    simpl. rewrite Hnew. f_equal.
    unfold run_key, grid_cell. rewrite Hn, Hb, Hs. reflexivity.
Qed.

Lemma sweep_counts_shape env cpus :
  forall per_cpu results results',
    Z.of_nat (length results + 5 * length per_cpu) <= MAX_RUNS ->
    p_out (sweep_counts env cpus per_cpu results) = Returned results' ->
    exists new,
      results' = results ++ new /\
      map run_key new =
      flat_map (fun p => map (grid_cell (int_mul p cpus)) [0; 1; 2; 3; 4]) per_cpu.
Proof.
  induction per_cpu as [| p per_cpu IH]; intros results results' Hcap H;
    cbn [sweep_counts] in H.
  - inversion H; subst. exists []. rewrite app_nil_r. auto.
  - apply bind_inv in H. destruct H as (mid & Hmid & H).
    apply sweep_sizes_shape in Hmid; [| simpl in *; lia].
    destruct Hmid as (new1 & -> & Hnew1).
    assert (Hlen : length new1 = 5%nat).
    { rewrite <- (length_map run_key), Hnew1. reflexivity. }
    apply IH in H; [| rewrite length_app; simpl in *; lia].
    destruct H as (new2 & -> & Hnew2).
    exists (new1 ++ new2). rewrite <- app_assoc. split; [reflexivity |].
    rewrite map_app, Hnew1, Hnew2. reflexivity.
Qed.

Lemma perform_copy_returns env n bs r :
  parent_calls_succeed env n bs -> exists r', p_out (perform_copy env n bs r) = Returned r'.
Proof.
  intros (fs & Hstat & Hcreate & Hfork & Hterm).
  rewrite (perform_copy_run env n bs r fs Hstat Hcreate Hfork Hterm).
  eexists. reflexivity.
Qed.

Lemma sweep_sizes_returns env np :
  forall indices results,
    Z.of_nat (length results + length indices) <= MAX_RUNS ->
    (forall (j : nat) i,
        nth_error indices j = Some i ->
        run_ok (env (length results + j)%nat) np (nth (Z.to_nat i) block_sizes 0)) ->
    exists results', p_out (sweep_sizes env np indices results) = Returned results'.
Proof.
  induction indices as [| i indices IH]; intros results Hcap Hok; cbn [sweep_sizes].
  - eexists. reflexivity.
  - destruct (MAX_RUNS <=? Z.of_nat (length results)) eqn:E.
    { apply Z.leb_le in E. simpl in Hcap. lia. }
    destruct (Hok O i eq_refl) as (Hdrop & Hunlink & Hcopy).
    rewrite Nat.add_0_r in Hdrop, Hunlink, Hcopy.
    rewrite Hdrop, Hunlink. unfold drop_caches.
    rewrite !p_out_bind with (a := tt) by reflexivity.
    destruct (@perform_copy_returns _ _ _
                {| num_processes := 0; block_size := 0; elapsed_time := 0%Q;
                   shift_value := to_int (6 + i) |} Hcopy) as (r & Hr).
    rewrite (p_out_bind _ _ _ Hr).
    rewrite p_out_bind with (a := tt) by reflexivity.
    apply IH.
    + rewrite length_app. simpl in *. lia.
    + intros j i' Hj. rewrite length_app. simpl.
      replace (length results + 1 + j)%nat with (length results + S j)%nat by lia.
      apply Hok. exact Hj.
Qed.

Lemma sweep_counts_returns env cpus :
  forall per_cpu results,
    Z.of_nat (length results + 5 * length per_cpu) <= MAX_RUNS ->
    (forall (a : nat) p (j : nat) i,
        nth_error per_cpu a = Some p -> nth_error [0; 1; 2; 3; 4] j = Some i ->
        run_ok (env (length results + 5 * a + j)%nat) (int_mul p cpus)
               (nth (Z.to_nat i) block_sizes 0)) ->
    exists results', p_out (sweep_counts env cpus per_cpu results) = Returned results'.
Proof.
  induction per_cpu as [| p per_cpu IH]; intros results Hcap Hok; cbn [sweep_counts].
  - eexists. reflexivity.
  - destruct (@sweep_sizes_returns env (int_mul p cpus) [0; 1; 2; 3; 4] results)
      as (mid & Hmid).
    + simpl in *. lia.
    + intros j i Hj. specialize (Hok O p j i eq_refl Hj).
      replace (length results + 5 * 0 + j)%nat with (length results + j)%nat in Hok by lia.
      exact Hok.
    + rewrite (p_out_bind _ _ _ Hmid).
      apply sweep_sizes_shape in Hmid; [| simpl in *; lia].
      destruct Hmid as (new1 & -> & Hnew1).
      assert (Hlen : length new1 = 5%nat).
      { rewrite <- (length_map run_key), Hnew1. reflexivity. }
      apply IH.
      * rewrite length_app. simpl in *. lia.
      * intros a p' j i Ha Hj. rewrite length_app, Hlen.
        replace (length results + 5 + 5 * a + j)%nat
          with (length results + 5 * S a + j)%nat by lia.
        apply Hok; assumption.
Qed.

Lemma grid_row np :
  map (grid_cell np) [0; 1; 2; 3; 4] =
  [(np, 6, 65536); (np, 7, 131072); (np, 8, 262144); (np, 9, 524288); (np, 10, 1048576)].
Proof. reflexivity. Qed.

Lemma small_multiple k cpus :
  1 <= cpus -> 6 * cpus <= INT_MAX -> 1 <= k <= 6 -> int_mul k cpus = k * cpus.
Proof.
  intros H1 H6 Hk. unfold int_mul. apply to_int_small.
  unfold INT_MIN, INT_MAX in *. nia.
Qed.

Lemma rounds_events_app env cells1 :
  forall k cells2,
    rounds_events env k (cells1 ++ cells2) =
    rounds_events env k cells1 ++ rounds_events env (k + length cells1) cells2.
Proof.
  induction cells1 as [| c cells1 IH]; intros k cells2;
    cbn [rounds_events app length].
  - rewrite Nat.add_0_r. reflexivity.
  - rewrite IH, <- app_assoc, Nat.add_succ_r. reflexivity.
Qed.

(** The inner loop, when it gets through, has done one round for each
    index, in order. *)
Lemma sweep_sizes_events env np :
  forall indices results results',
    Z.of_nat (length results + length indices) <= MAX_RUNS ->
    p_out (sweep_sizes env np indices results) = Returned results' ->
    p_events (sweep_sizes env np indices results) =
    rounds_events env (length results) (map (grid_cell np) indices).
Proof.
  induction indices as [| i indices IH]; intros results results' Hcap H;
    cbn [sweep_sizes] in *; [reflexivity |].
  destruct (MAX_RUNS <=? Z.of_nat (length results)) eqn:E.
  { apply Z.leb_le in E. simpl in Hcap. lia. }
  pose proof H as H0.
  apply bind_inv in H0. destruct H0 as (a1 & H1 & H0). rewrite (bind_returned _ _ H1).
  apply bind_inv in H0. destruct H0 as (a2 & H2 & H0). rewrite (bind_returned _ _ H2).
  apply bind_inv in H0. destruct H0 as (r & H3 & H0). rewrite (bind_returned _ _ H3).
  apply bind_inv in H0. destruct H0 as (a4 & H4 & H0). rewrite (bind_returned _ _ H4).
  cbn [p_events].
  unfold drop_caches in *.
  destruct (drop_caches_ok (env (length results))); [| discriminate].
  destruct (unlink_ok (env (length results))); [| discriminate].
  assert (Hcap' : Z.of_nat (length (results ++ [r]) + length indices) <= MAX_RUNS)
    by (rewrite length_app; simpl in *; lia).
  rewrite (IH _ _ Hcap' H0).
  rewrite length_app, Nat.add_1_r.
  cbn [map rounds_events round_events grid_cell fst snd emit p_events app].
  rewrite <- app_assoc. reflexivity.
Qed.

Lemma sweep_counts_events env cpus :
  forall per_cpu results results',
    Z.of_nat (length results + 5 * length per_cpu) <= MAX_RUNS ->
    p_out (sweep_counts env cpus per_cpu results) = Returned results' ->
    p_events (sweep_counts env cpus per_cpu results) =
    rounds_events env (length results)
      (flat_map (fun p => map (grid_cell (int_mul p cpus)) [0; 1; 2; 3; 4]) per_cpu).
Proof.
  induction per_cpu as [| p per_cpu IH]; intros results results' Hcap H;
    cbn [sweep_counts] in *; [reflexivity |].
  pose proof H as H0.
  apply bind_inv in H0. destruct H0 as (mid & Hmid & H0).
  rewrite (bind_returned _ _ Hmid). cbn [p_events].
  assert (Hcap1 : Z.of_nat (length results + length [0; 1; 2; 3; 4]) <= MAX_RUNS)
    by (simpl in *; lia).
  rewrite (sweep_sizes_events env _ _ _ _ Hcap1 Hmid).
  pose proof (sweep_sizes_shape env _ _ _ _ Hcap1 Hmid) as (new1 & Heq & Hnew1).
  assert (Hlen : length new1 = 5%nat).
  { rewrite <- (length_map run_key), Hnew1. reflexivity. }
  subst mid.
  assert (Hcap2 : Z.of_nat (length (results ++ new1) + 5 * length per_cpu) <= MAX_RUNS)
    by (rewrite length_app; simpl in *; lia).
  rewrite (IH _ _ Hcap2 H0).
  cbn [flat_map]. rewrite rounds_events_app.
  rewrite length_app, Hlen, length_map. reflexivity.
Qed.

Lemma count_events_app P l1 l2 :
  count_events P (l1 ++ l2) = (count_events P l1 + count_events P l2)%nat.
Proof. unfold count_events. rewrite filter_app, length_app. reflexivity. Qed.

Lemma count_events_bind {A B : Type} P (m : proc A) (f : A -> proc B) (a b : nat) :
  (count_events P (p_events m) <= a)%nat ->
  (forall x, p_out m = Returned x -> (count_events P (p_events (f x)) <= b)%nat) ->
  (count_events P (p_events (bind m f)) <= a + b)%nat.
Proof.
  intros Hm Hf. destruct (p_out m) as [x | c | |] eqn:E.
  - rewrite (bind_returned m f E). cbn [p_events]. rewrite count_events_app.
    specialize (Hf x eq_refl). lia.
  - unfold bind. rewrite E. cbn [p_events]. lia.
  - unfold bind. rewrite E. cbn [p_events]. lia.
  - unfold bind. rewrite E. cbn [p_events]. lia.
Qed.

Ltac count_now := unfold count_events; simpl; lia.

Lemma fork_loop_no_drop env fs n bs :
  forall count i, count_events is_drop (p_events (fork_loop count env fs i n bs)) = O.
Proof.
  induction count as [| count IH]; intros i; cbn [fork_loop]; [reflexivity |].
  destruct (fork_ok env i); [| reflexivity].
  rewrite bind_emit. cbn [p_events]. apply (IH (i + 1)).
Qed.

(** A copy drops no cache. *)
Lemma perform_copy_no_drop env n bs r :
  count_events is_drop (p_events (perform_copy env n bs r)) = O.
Proof.
  unfold perform_copy. destruct (stat_size env) as [fs |]; [| reflexivity].
  rewrite bind_emit. cbn [p_events].
  change (count_events is_drop (PStat fs :: ?l)) with (count_events is_drop l).
  apply Nat.le_0_r.
  apply (count_events_bind is_drop _ _ 0 0); [destruct (create_dest_ok env); count_now |].
  intros _ _. rewrite bind_emit. cbn [p_events].
  change (count_events is_drop (PTime ?t :: ?l)) with (count_events is_drop l).
  apply (count_events_bind is_drop _ _ 0 0); [rewrite fork_loop_no_drop; lia |].
  intros _ _.
  apply (count_events_bind is_drop _ _ 0 0).
  - unfold wait_all. destruct (forallb _ _); [| count_now].
    rewrite wait_loop_run. cbn [p_events]. unfold count_events.
    induction (Z.to_nat n) as [| k IHk]; simpl; lia.
  - intros _ _. count_now.
Qed.

(** The inner loop begins one round for each index at most, whatever its
    calls do. *)
Lemma sweep_sizes_rounds env np :
  forall indices results,
    (count_events is_drop (p_events (sweep_sizes env np indices results))
     <= length indices)%nat.
Proof.
  induction indices as [| i indices IH]; intros results; cbn [sweep_sizes];
    [count_now |].
  destruct (MAX_RUNS <=? Z.of_nat (length results)); [count_now |].
  change (length (i :: indices)) with (1 + (0 + (0 + (0 + length indices))))%nat.
  apply count_events_bind.
  { unfold drop_caches. destruct (drop_caches_ok _); count_now. }
  intros _ _. apply count_events_bind; [count_now |].
  intros _ _. apply count_events_bind; [rewrite perform_copy_no_drop; lia |].
  intros r _. apply count_events_bind; [destruct (unlink_ok _); count_now |].
  intros _ _. apply IH.
Qed.

Lemma sweep_counts_rounds env cpus :
  forall per_cpu results,
    (count_events is_drop (p_events (sweep_counts env cpus per_cpu results))
     <= 5 * length per_cpu)%nat.
Proof.
  induction per_cpu as [| p per_cpu IH]; intros results; cbn [sweep_counts];
    [count_now |].
  replace (5 * length (p :: per_cpu))%nat with (5 + 5 * length per_cpu)%nat
    by (count_now).
  apply count_events_bind; [apply sweep_sizes_rounds | intros mid _; apply IH].
Qed.

(** C5.  On a machine with [cpus] processors the sweep, when it gets to
    its end, has done exactly 30 rounds, in this order: for each worker
    count [cpus * 1 .. cpus * 6] (outer loop) the block sizes of 64, 128,
    256, 512 and 1024 KiB with the shift values 6 to 10 (inner loop).  Each
    round is a cache drop, the line "Testing with ...", one [perform_copy]
    with the worker count and the block size of its cell, and the unlink of
    the destination; the sweep does nothing else, and the table holds the
    30 runs in that order.  Whatever the calls do, no sweep begins more
    than 30 rounds, which is below the cap of 1000.  The sweep gets to its
    end when the table can be allocated and the calls of every round
    succeed. *)
Theorem sweep_runs_the_grid env cpus :
  1 <= cpus -> 6 * cpus <= INT_MAX ->
  let grid := flat_map (fun k => [(k * cpus, 6, 65536); (k * cpus, 7, 131072);
                                  (k * cpus, 8, 262144); (k * cpus, 9, 524288);
                                  (k * cpus, 10, 1048576)])
                       [1; 2; 3; 4; 5; 6] in
  (forall results,
      p_out (sweep (rounds env) cpus) = Returned results ->
      p_events (sweep (rounds env) cpus) = rounds_events (rounds env) 0 grid /\
      map run_key results = grid /\
      length results = 30%nat /\
      Z.of_nat (length results) <= MAX_RUNS) /\
  ((count_events is_drop (p_events (find_optimal_settings env cpus)) <= 30)%nat /\
   30 <= MAX_RUNS) /\
  (malloc_ok env = true ->
   (forall a j : nat,
       (a < 6)%nat -> (j < 5)%nat ->
       run_ok (rounds env (5 * a + j)%nat) ((Z.of_nat a + 1) * cpus) (nth j block_sizes 0)) ->
   exists results,
     p_out (sweep (rounds env) cpus) = Returned results /\
     p_out (find_optimal_settings env cpus) = Returned tt).
Proof.
  intros H1 H6 grid.
  assert (Hgrid : flat_map (fun p => map (grid_cell (int_mul p cpus)) [0; 1; 2; 3; 4])
                           [1; 2; 3; 4; 5; 6] = grid).
  { unfold grid. cbn [flat_map]. rewrite !grid_row.
    rewrite !small_multiple by lia. reflexivity. }
  split; [| split].
  - intros results H. unfold sweep in *.
    pose proof (sweep_counts_events (rounds env) cpus [1; 2; 3; 4; 5; 6] [] results) as Hev.
    rewrite Hgrid in Hev. split; [apply Hev; [vm_compute; discriminate | exact H] |].
    apply sweep_counts_shape in H; [| vm_compute; discriminate].
    destruct H as (new & -> & Hnew). cbn [app].
    rewrite Hgrid in Hnew.
    split; [exact Hnew |].
    assert (Hlen : length new = 30%nat).
    { rewrite <- (length_map run_key), Hnew. reflexivity. }
    rewrite Hlen. split; [reflexivity | vm_compute; discriminate].
  - split; [| vm_compute; discriminate].
    unfold find_optimal_settings. destruct (malloc_ok env); [| count_now].
    change 30%nat with (30 + 0)%nat. apply count_events_bind.
    + apply (sweep_counts_rounds (rounds env) cpus [1; 2; 3; 4; 5; 6] []).
    + intros results _. count_now.
  - intros Hmalloc Hok.
    destruct (@sweep_counts_returns (rounds env) cpus [1; 2; 3; 4; 5; 6] [])
      as (results & Hres).
    + vm_compute. discriminate.
    + intros a p j i Ha Hj.
      assert (Ha6 : (a < 6)%nat).
      { change 6%nat with (length [1; 2; 3; 4; 5; 6]).
        apply (proj1 (nth_error_Some _ _)). rewrite Ha. discriminate. }
      assert (Hj5 : (j < 5)%nat).
      { change 5%nat with (length [0; 1; 2; 3; 4]).
        apply (proj1 (nth_error_Some _ _)). rewrite Hj. discriminate. }
      assert (Hp : p = Z.of_nat a + 1).
      { do 6 (destruct a as [| a]; [inversion Ha; reflexivity |]). simpl in Ha6. lia. }
      assert (Hi : Z.to_nat i = j).
      { do 5 (destruct j as [| j]; [inversion Hj; reflexivity |]). simpl in Hj5. lia. }
      rewrite Hi. subst p.
      rewrite small_multiple by lia.
      apply (Hok a j Ha6 Hj5).
    + exists results. split; [exact Hres |].
      unfold find_optimal_settings, sweep. rewrite Hmalloc.
      rewrite (p_out_bind _ _ _ Hres). reflexivity.
Qed.

(** The sample sweep on two processors: 30 rounds, the first one with 2
    workers and blocks of 64 KiB, the last one with 12 workers and blocks
    of 1024 KiB. *)
Lemma sweep_runs_the_grid_witness :
  exists results,
    p_out (sweep (rounds sample_sweep) 2) = Returned results /\
    length results = 30%nat /\
    count_events is_unlink (p_events (sweep (rounds sample_sweep) 2)) = 30%nat /\
    nth_error (p_events (sweep (rounds sample_sweep) 2)) 1 = Some (PTesting 2 6 64) /\
    nth_error (map run_key results) 29 = Some (12, 10, 1048576).
Proof.
  assert (H1 : 1 <= 2) by lia.
  assert (H6 : 6 * 2 <= INT_MAX) by (unfold INT_MAX; lia).
  destruct (sweep_runs_the_grid sample_sweep 2 H1 H6) as (Hshape & _ & Hret).
  destruct Hret as (results & Hres & _).
  - reflexivity.
  - intros a j Ha Hj. split; [reflexivity |]. split; [reflexivity |].
    exists 0. split; [reflexivity |]. split; [reflexivity |].
    split; [intros i _; reflexivity |].
    intros i _. apply copy_blocks_empty_file. simpl. lia.
  - exists results. split; [exact Hres |].
    destruct (Hshape results Hres) as (Hev & Hkeys & Hlen & _).
    split; [exact Hlen |]. rewrite Hev, Hkeys.
    split; [vm_compute; reflexivity |]. split; reflexivity.
Defined.

(* ================================================================= *)
(** ** The report *)

Lemma compare_le x y :
  (compare_run_results x y <=? 0) = true <-> no_slower x y.
Proof.
  unfold compare_run_results, Qlt_bool, no_slower.
  destruct (Qle_bool (elapsed_time x) (elapsed_time y)) eqn:Exy;
    destruct (Qle_bool (elapsed_time y) (elapsed_time x)) eqn:Eyx; simpl.
  - apply Qle_bool_iff in Exy. split; [intros _; exact Exy | reflexivity].
  - apply Qle_bool_iff in Exy. split; [intros _; exact Exy | reflexivity].
  - split; [discriminate |]. intros H. apply Qle_bool_iff in H. congruence.
  - exfalso.
    destruct (Qlt_le_dec (elapsed_time y) (elapsed_time x)) as [Hlt | Hle].
    + apply Qlt_le_weak in Hlt. apply Qle_bool_iff in Hlt. congruence.
    + apply Qle_bool_iff in Hle. congruence.
Qed.

Lemma no_slower_total x y : no_slower x y \/ no_slower y x.
Proof.
  unfold no_slower.
  destruct (Qlt_le_dec (elapsed_time y) (elapsed_time x)) as [Hlt | Hle];
    [right; apply Qlt_le_weak; exact Hlt | left; exact Hle].
Qed.

Lemma no_slower_trans x y z : no_slower x y -> no_slower y z -> no_slower x z.
Proof. unfold no_slower. apply Qle_trans. Qed.

Lemma qsort_insert_perm x l : Permutation (x :: l) (qsort_insert x l).
Proof.
  induction l as [| y l IH]; simpl; [reflexivity |].
  destruct (compare_run_results x y <=? 0); [reflexivity |].
  rewrite perm_swap. apply perm_skip. exact IH.
Qed.

Lemma qsort_perm l : Permutation l (qsort l).
Proof.
  induction l as [| x l IH]; simpl; [reflexivity |].
  rewrite <- qsort_insert_perm. apply perm_skip. exact IH.
Qed.

Lemma qsort_insert_sorted x l :
  StronglySorted no_slower l -> StronglySorted no_slower (qsort_insert x l).
Proof.
  induction 1 as [| y l Hs IH Hy]; simpl.
  - constructor; constructor.
  - destruct (compare_run_results x y <=? 0) eqn:E.
    + apply compare_le in E. constructor; [constructor; assumption |].
      constructor; [exact E |].
      eapply Forall_impl; [| exact Hy]. intros z Hz. eapply no_slower_trans; eassumption.
    + constructor; [exact IH |].
      assert (Hyx : no_slower y x).
      { destruct (no_slower_total x y) as [Hxy | Hyx]; [| exact Hyx].
        apply compare_le in Hxy. congruence. }
      eapply Permutation_Forall; [apply qsort_insert_perm |].
      constructor; assumption.
Qed.

Lemma qsort_sorted l : StronglySorted no_slower (qsort l).
Proof.
  induction l as [| x l IH]; simpl; [constructor |].
  apply qsort_insert_sorted. exact IH.
Qed.

Lemma skipn_nth (l : list RunResult) :
  forall j, (j < length l)%nat -> skipn j l = nth j l zero_result :: skipn (S j) l.
Proof.
  induction l as [| x l IH]; intros j Hj; simpl in Hj; [lia |].
  destruct j as [| j]; [reflexivity |].
  simpl. apply IH. lia.
Qed.

(** The first loop prints the entries [j, j + 1, ...] below 5 and below
    [run_index]. *)
Lemma fastest_loop_entries l :
  forall fuel (j : nat),
    map snd (fastest_loop fuel (Z.of_nat j) (Z.of_nat (length l)) l) =
    firstn (Nat.min fuel (5 - j)) (skipn j l).
Proof.
  induction fuel as [| fuel IH]; intros j; [reflexivity |].
  cbn [fastest_loop].
  destruct ((Z.of_nat j <? 5) && (Z.of_nat j <? Z.of_nat (length l))) eqn:E.
  - apply andb_true_iff in E. destruct E as [E1 E2].
    apply Z.ltb_lt in E1. apply Z.ltb_lt in E2.
    rewrite (skipn_nth l j) by lia.
    replace (5 - j)%nat with (S (5 - S j)) by lia.
    change (Nat.min (S fuel) (S (5 - S j))) with (S (Nat.min fuel (5 - S j))).
    rewrite firstn_cons. cbn [map snd].
    unfold result_at. rewrite Nat2Z.id. f_equal.
    replace (Z.of_nat j + 1) with (Z.of_nat (S j)) by lia.
    apply IH.
  - apply andb_false_iff in E. cbn [map].
    destruct E as [E | E]; apply Z.ltb_ge in E.
    + replace (5 - j)%nat with O by lia. rewrite Nat.min_0_r. reflexivity.
    + rewrite skipn_all2 by lia. rewrite firstn_nil. reflexivity.
Qed.

Lemma firstn_succ_rev (l : list RunResult) :
  forall c, (c < length l)%nat ->
            rev (firstn (S c) l) = nth c l zero_result :: rev (firstn c l).
Proof.
  induction l as [| x l IH]; intros c Hc; simpl in Hc; [lia |].
  destruct c as [| c]; [reflexivity |].
  change (firstn (S (S c)) (x :: l)) with (x :: firstn (S c) l).
  change (firstn (S c) (x :: l)) with (x :: firstn c l).
  cbn [rev nth]. rewrite IH by lia. reflexivity.
Qed.

Lemma nth_skipn (l : list RunResult) :
  forall lo c, nth c (skipn lo l) zero_result = nth (lo + c) l zero_result.
Proof.
  induction l as [| x l IH]; intros lo c.
  - rewrite skipn_nil. destruct c, lo; reflexivity.
  - destruct lo as [| lo]; [reflexivity |]. simpl. apply IH.
Qed.

(** The second loop, started [c] entries above the lower end [lo] of the
    last five, prints these [c] entries from the top down. *)
Lemma slowest_loop_entries l :
  let n := length l in
  let lo := (n - 5)%nat in
  forall fuel c,
    (c <= fuel)%nat -> (lo + c <= n)%nat ->
    map snd (slowest_loop fuel (Z.of_nat lo + Z.of_nat c - 1) (Z.of_nat n) l) =
    rev (firstn c (skipn lo l)).
Proof.
  intros n lo. induction fuel as [| fuel IH]; intros c Hc Hn.
  - replace c with O by lia. reflexivity.
  - simpl. destruct c as [| c].
    + assert (E : (Z.of_nat n - 5 <=? Z.of_nat lo + Z.of_nat 0 - 1)
                  && (0 <=? Z.of_nat lo + Z.of_nat 0 - 1) = false).
      { apply andb_false_iff.
        destruct (Nat.eq_dec lo 0) as [H0 | H0].
        - right. apply Z.leb_gt. lia.
        - left. apply Z.leb_gt. subst lo. lia. }
      rewrite E. reflexivity.
    + assert (E : (Z.of_nat n - 5 <=? Z.of_nat lo + Z.of_nat (S c) - 1)
                  && (0 <=? Z.of_nat lo + Z.of_nat (S c) - 1) = true).
      { apply andb_true_iff. split; apply Z.leb_le; subst lo; lia. }
      rewrite E. cbn [map snd].
      rewrite firstn_succ_rev by (rewrite length_skipn; subst lo n; lia).
      rewrite nth_skipn. unfold result_at.
      replace (Z.to_nat (Z.of_nat lo + Z.of_nat (S c) - 1)) with (lo + c)%nat by lia.
      f_equal.
      replace (Z.of_nat lo + Z.of_nat (S c) - 1 - 1) with (Z.of_nat lo + Z.of_nat c - 1) by lia.
      apply IH; lia.
Qed.

(** C6.  After the sweep the collected runs are sorted by elapsed time,
    ascending: the sorted sequence is a rearrangement of the runs and each
    entry is no slower than all later ones.  The report lists the first 5
    entries of the sorted sequence as the fastest and the last 5 entries,
    from the last one down, as the slowest; with fewer than 5 runs each
    list holds all of them.  [find_optimal_settings] prints this report of
    the runs the sweep collected (when the table of the runs cannot be
    allocated there is no sweep, and the error message is all it
    prints). *)
Theorem report_lists_fastest_and_slowest :
  (forall results,
      Permutation results (qsort results) /\
      StronglySorted no_slower (qsort results) /\
      exists fastest slowest,
        p_events (report results) = [PFastest fastest; PSlowest slowest] /\
        map snd fastest = firstn 5 (qsort results) /\
        map snd slowest = rev (skipn (length results - 5) (qsort results)) /\
        ((length results < 5)%nat ->
         map snd fastest = qsort results /\ map snd slowest = rev (qsort results))) /\
  (forall env cpus results,
      p_out (sweep (rounds env) cpus) = Returned results ->
      p_events (find_optimal_settings env cpus) =
      if malloc_ok env
      then p_events (sweep (rounds env) cpus) ++ p_events (report results)
      else [PStderr ErrMalloc]).
Proof.
  split.
  - intros results.
    pose proof (qsort_perm results) as Hperm.
    pose proof (Permutation_length Hperm) as Hlen.
    split; [exact Hperm |]. split; [apply qsort_sorted |].
    exists (fastest_loop 5 0 (Z.of_nat (length results)) (qsort results)).
    exists (slowest_loop 5 (Z.of_nat (length results) - 1) (Z.of_nat (length results))
                         (qsort results)).
    split; [reflexivity |].
    assert (Hfast : map snd (fastest_loop 5 0 (Z.of_nat (length results)) (qsort results))
                    = firstn 5 (qsort results)).
    { rewrite Hlen. apply (fastest_loop_entries (qsort results) 5 0). }
    assert (Hslow : map snd (slowest_loop 5 (Z.of_nat (length results) - 1)
                                          (Z.of_nat (length results)) (qsort results))
                    = rev (skipn (length results - 5) (qsort results))).
    { rewrite Hlen.
      pose proof (slowest_loop_entries (qsort results) 5
                    (length (qsort results) - (length (qsort results) - 5))) as H.
      cbv zeta in H.
      replace (Z.of_nat (length (qsort results) - 5)
               + Z.of_nat (length (qsort results) - (length (qsort results) - 5)) - 1)
        with (Z.of_nat (length (qsort results)) - 1) in H by lia.
      rewrite H by lia.
      rewrite firstn_all2 by (rewrite length_skipn; lia). reflexivity. }
    split; [exact Hfast |]. split; [exact Hslow |].
    intros Hfew. rewrite Hfast, Hslow. split.
    + apply firstn_all2. lia.
    + replace (length results - 5)%nat with O by lia. reflexivity.
  - intros env cpus results H. unfold find_optimal_settings.
    destruct (malloc_ok env); [| reflexivity].
    rewrite (bind_returned _ _ H). reflexivity.
Qed.

Lemma report_lists_fastest_and_slowest_witness :
  exists fastest slowest,
    p_events (report [sample_result 4 (5 # 2); sample_result 8 (3 # 2);
                      sample_result 12 (2 # 1)])
      = [PFastest fastest; PSlowest slowest] /\
    map snd fastest = [sample_result 8 (3 # 2); sample_result 12 (2 # 1);
                       sample_result 4 (5 # 2)] /\
    map snd slowest = [sample_result 4 (5 # 2); sample_result 12 (2 # 1);
                       sample_result 8 (3 # 2)].
Proof.
  destruct report_lists_fastest_and_slowest as [Hreport _].
  destruct (Hreport [sample_result 4 (5 # 2); sample_result 8 (3 # 2);
                     sample_result 12 (2 # 1)])
    as (_ & _ & fastest & slowest & Hev & _ & _ & Hfew).
  destruct Hfew as [Hf Hs]; [simpl; lia |].
  exists fastest, slowest. split; [exact Hev |].
  rewrite Hf, Hs. split; vm_compute; reflexivity.
Defined.

(* ================================================================= *)
(** ** What ends up in the destination *)

Lemma faithful_weaken lo lo' hi hi' e :
  lo' <= lo -> hi <= hi' -> faithful lo hi e -> faithful lo' hi' e.
Proof.
  intros Hlo Hhi. destruct e; simpl; auto. intros H Hn. specialize (H Hn). lia.
Qed.

(** The calls of one block read inside the block and write where they
    read, whatever the loop ends with. *)
Lemma sendfile_loop_faithful fuel fs :
  forall oracle off ts,
    0 <= ts <= OFF_MAX -> off <= fs ->
    Forall (faithful off (off + Z.min ts (fs - off)))
           (fst (sendfile_loop fuel fs oracle off off ts)).
Proof.
  induction fuel as [| fuel IH]; intros oracle off ts Hts Hoff; simpl.
  - destruct ((0 <? ts) && (off <? fs)); constructor.
  - destruct ((0 <? ts) && (off <? fs)) eqn:Hc; [| constructor].
    apply andb_true_iff in Hc. destruct Hc as [Hc1 Hc2].
    apply Z.ltb_lt in Hc1. apply Z.ltb_lt in Hc2.
    set (b := sendfile_ret fs off (to_size ts) (oracle O)).
    destruct (b <=? 0) eqn:Hb.
    + apply Z.leb_le in Hb.
      destruct (is_transient (sendfile_errno (oracle O))); simpl.
      * constructor; [simpl; intros; lia | apply IH; assumption].
      * constructor; [simpl; intros; lia | constructor].
    + apply Z.leb_gt in Hb.
      destruct (@sendfile_ret_bounds fs off ts (oracle O) ltac:(lia) Hc2 Hb) as [Hb1 Hb2].
      fold b in Hb1, Hb2.
      rewrite to_off_small by (unfold OFF_MAX in *; lia).
      simpl. constructor; [simpl; intros; lia |].
      assert (Hts' : 0 <= ts - b <= OFF_MAX) by lia.
      assert (Hoff' : off + b <= fs) by lia.
      pose proof (IH (oracle_tail oracle) (off + b) (ts - b) Hts' Hoff') as Hrest.
      eapply Forall_impl; [| exact Hrest].
      intros e He. eapply faithful_weaken; [| | exact He]; lia.
Qed.

(** When the loop of a block ends normally, every byte of the block has
    been written. *)
Lemma sendfile_loop_covers fuel fs :
  forall oracle off ts tr oracle' dp' off' ts',
    0 <= ts <= OFF_MAX -> off <= fs ->
    sendfile_loop fuel fs oracle off off ts = (tr, SendDone oracle' dp' off' ts') ->
    forall b, off <= b < off + Z.min ts (fs - off) -> Exists (covers b) tr.
Proof.
  induction fuel as [| fuel IH];
    intros oracle off ts tr oracle' dp' off' ts' Hts Hoff H b Hb; simpl in H.
  - destruct ((0 <? ts) && (off <? fs)) eqn:Hc; [discriminate |].
    apply andb_false_iff in Hc. destruct Hc as [Hc | Hc]; apply Z.ltb_ge in Hc; lia.
  - destruct ((0 <? ts) && (off <? fs)) eqn:Hc.
    + apply andb_true_iff in Hc. destruct Hc as [Hc1 Hc2].
      apply Z.ltb_lt in Hc1. apply Z.ltb_lt in Hc2.
      set (n := sendfile_ret fs off (to_size ts) (oracle O)) in *.
      destruct (n <=? 0) eqn:Hn.
      * destruct (is_transient (sendfile_errno (oracle O))); [| discriminate].
        destruct (sendfile_loop fuel fs (oracle_tail oracle) off off ts) as [tr0 res] eqn:Hs.
        unfold with_event in H; simpl in H. inversion H; subst; clear H.
        apply Exists_cons_tl. eapply IH; eassumption.
      * apply Z.leb_gt in Hn.
        destruct (@sendfile_ret_bounds fs off ts (oracle O) ltac:(lia) Hc2 Hn) as [Hn1 Hn2].
        fold n in Hn1, Hn2.
        rewrite to_off_small in H by (unfold OFF_MAX in *; lia).
        destruct (sendfile_loop fuel fs (oracle_tail oracle) (off + n) (off + n) (ts - n))
          as [tr0 res] eqn:Hs.
        unfold with_event in H; simpl in H. inversion H; subst; clear H.
        destruct (Z_lt_ge_dec b (off + n)) as [Hlt | Hge].
        -- apply Exists_cons_hd. simpl. lia.
        -- apply Exists_cons_tl.
           assert (Hts' : 0 <= ts - n <= OFF_MAX) by lia.
           assert (Hoff' : off + n <= fs) by lia.
           eapply (IH _ _ _ _ _ _ _ _ Hts' Hoff' Hs). lia.
    + apply andb_false_iff in Hc. destruct Hc as [Hc | Hc]; apply Z.ltb_ge in Hc; lia.
Qed.

Lemma owned_first fs bs stride off e :
  off < fs -> faithful off (off + Z.min bs (fs - off)) e -> owned fs bs stride off e.
Proof.
  intros Hoff. destruct e; simpl; auto. intros H Hn. destruct (H Hn) as (Hp & Hlo & Hhi).
  split; [exact Hp |]. exists O. simpl. rewrite Z.add_0_r. auto.
Qed.

Lemma owned_next fs bs stride off e :
  owned fs bs stride (off + stride) e -> owned fs bs stride off e.
Proof.
  destruct e; simpl; auto. intros H Hn. destruct (H Hn) as (Hp & k & Hk).
  split; [exact Hp |]. exists (S k).
  replace (off + Z.of_nat (S k) * stride) with (off + stride + Z.of_nat k * stride) by lia.
  exact Hk.
Qed.

Section Contents.

Variables (fs n bs : Z).
Hypothesis Hfs : 0 <= fs.
Hypothesis Hbs : 0 < bs.
Hypothesis Hn : 0 < n <= INT_MAX.
Hypothesis Hfit : fs + n * bs <= OFF_MAX.

(** In every run, each [sendfile] that moves data stays in a block of the
    worker and writes where it reads. *)
Lemma block_loop_owned seekable fuel :
  forall oracle off doff,
    0 <= off -> (off < fs -> off = doff) ->
    Forall (owned fs bs (n * bs) off)
           (fst (block_loop fuel seekable fs n bs oracle off doff)).
Proof.
  induction fuel as [| fuel IH]; intros oracle off doff Hoff Heq; simpl.
  - destruct (off <? fs); simpl; repeat constructor.
  - destruct (off <? fs) eqn:E; [| simpl; repeat constructor].
    apply Z.ltb_lt in E. rewrite <- (Heq E).
    destruct (lseek_ok seekable off); [| simpl; repeat constructor].
    pose proof (stride_ge _ _ Hbs Hn) as Hst.
    assert (Hts : 0 <= bs <= OFF_MAX) by lia.
    assert (Hle : off <= fs) by lia.
    pose proof (@sendfile_loop_faithful fuel fs oracle off bs Hts Hle) as Hin.
    rewrite (block_size_off _ _ _ Hfs Hbs Hn Hfit).
    destruct (sendfile_loop fuel fs oracle off off bs) as [tr res] eqn:Hs.
    simpl in Hin.
    assert (Hown : Forall (owned fs bs (n * bs) off) tr).
    { eapply Forall_impl; [| exact Hin]. intros e. apply owned_first. exact E. }
    destruct res as [oracle' dp' off' ts' | |]; simpl.
    + constructor; [exact I |]. apply Forall_app. split; [exact Hown |].
      eapply sendfile_loop_done in Hs; [| lia | lia].
      destruct Hs as (Hm & Ho & _ & _).
      destruct (@next_offsets fs n bs Hfs Hbs Hn Hfit off off' (block_moved tr))
        as (E1 & E2 & E3 & E4); [lia | lia | lia |].
      rewrite E1, E2.
      destruct (Z_lt_ge_dec (off' + (n * bs - bs)) fs) as [Hlt | Hge].
      * rewrite (E4 Hlt).
        eapply Forall_impl; [intros e; apply owned_next |].
        apply IH; [lia | reflexivity].
      * rewrite block_loop_past by lia. simpl. repeat constructor.
    + constructor; [exact I |]. apply Forall_app. split; [exact Hown |].
      repeat constructor.
    + constructor; [exact I | exact Hown].
Qed.

(** In a run that returns, every byte of every block of the worker has
    been written. *)
Lemma block_loop_complete seekable fuel :
  forall oracle off doff tr,
    0 <= off -> (off < fs -> off = doff) ->
    block_loop fuel seekable fs n bs oracle off doff = (tr, WReturned) ->
    forall (k : nat) b,
      off + Z.of_nat k * (n * bs) < fs ->
      off + Z.of_nat k * (n * bs) <= b
        < off + Z.of_nat k * (n * bs) + Z.min bs (fs - (off + Z.of_nat k * (n * bs))) ->
      Exists (covers b) tr.
Proof.
  induction fuel as [| fuel IH]; intros oracle off doff tr Hoff Heq H k b Hk Hb;
    simpl in H.
  - destruct (off <? fs) eqn:E; [discriminate |]. apply Z.ltb_ge in E.
    pose proof (stride_ge _ _ Hbs Hn). nia.
  - pose proof (stride_ge _ _ Hbs Hn) as Hst.
    destruct (off <? fs) eqn:E; [| apply Z.ltb_ge in E; nia].
    apply Z.ltb_lt in E. rewrite <- (Heq E) in H.
    destruct (lseek_ok seekable off); [| discriminate].
    rewrite (block_size_off _ _ _ Hfs Hbs Hn Hfit) in H.
    destruct (sendfile_loop fuel fs oracle off off bs) as [tr1 res] eqn:Hs.
    destruct res as [oracle' dp' off' ts' | |]; try discriminate.
    assert (Hts : 0 <= bs <= OFF_MAX) by lia.
    assert (Hle : off <= fs) by lia.
    pose proof (sendfile_loop_covers _ _ _ _ _ _ _ _ _ _ Hts Hle Hs) as Hcov.
    eapply sendfile_loop_done in Hs; [| lia | lia].
    destruct Hs as (Hm & Ho & _ & _).
    destruct (@next_offsets fs n bs Hfs Hbs Hn Hfit off off' (block_moved tr1))
      as (E1 & E2 & E3 & E4); [lia | lia | lia |].
    rewrite E1, E2 in H.
    destruct (block_loop fuel seekable fs n bs oracle'
                (off' + (n * bs - bs)) (off + n * bs)) as [tr2 st2] eqn:Hr.
    simpl in H. inversion H; subst tr st2; clear H.
    apply Exists_cons_tl. apply Exists_app.
    destruct k as [| k].
    + left. apply Hcov. simpl in Hb. rewrite Z.add_0_r in Hb. exact Hb.
    + right.
      assert (Hnext : off' + (n * bs - bs) = off + n * bs) by (apply E4; nia).
      rewrite Hnext in Hr.
      assert (Hoff2 : 0 <= off + n * bs) by lia.
      apply (IH _ _ _ _ Hoff2 (fun _ => eq_refl) Hr k b); [nia |].
      replace (off + n * bs + Z.of_nat k * (n * bs))
        with (off + Z.of_nat (S k) * (n * bs)) by lia.
      exact Hb.
Qed.

Variable i : Z.
Hypothesis Hi : 0 <= i < n.

Lemma copy_blocks_owned fuel env :
  Forall (owned fs bs (n * bs) (i * bs)) (fst (copy_blocks fuel env fs i n bs)).
Proof.
  unfold copy_blocks. rewrite (first_offset _ _ _ Hfs Hbs Hn Hfit _ Hi).
  destruct (open_source_ok env); [| repeat constructor].
  destruct (open_dest_ok env); [| repeat constructor].
  simpl. do 2 (constructor; [exact I |]).
  apply block_loop_owned; [nia | reflexivity].
Qed.

Lemma copy_blocks_complete fuel env tr :
  copy_blocks fuel env fs i n bs = (tr, WReturned) ->
  forall r b, In r (planner fs bs n i) -> in_range b r -> Exists (covers b) tr.
Proof.
  unfold copy_blocks. rewrite (first_offset _ _ _ Hfs Hbs Hn Hfit _ Hi).
  destruct (open_source_ok env); [| discriminate].
  destruct (open_dest_ok env); [| discriminate].
  destruct (block_loop fuel (dest_seekable env) fs n bs (sendfile_oracle env)
                       (i * bs) (i * bs)) as [tr' st] eqn:Hr.
  simpl. intros H r b Hin Hb. inversion H; subst. clear H.
  destruct r as [o l].
  apply planner_In in Hin; [| lia | lia | lia].
  destruct Hin as (k & Hk & Ho & Hlt & Hl). unfold in_range in Hb. simpl in Hb.
  do 2 apply Exists_cons_tl.
  assert (Hoff : 0 <= i * bs) by nia.
  apply (block_loop_complete _ _ _ _ _ _ Hoff (fun _ => eq_refl) Hr (Z.to_nat k) b);
    rewrite Z2Nat.id by lia;
    replace (i * bs + k * (n * bs)) with ((i + k * n) * bs) by lia; subst; lia.
Qed.

End Contents.

Lemma owned_faithful fs bs stride off e :
  0 <= off -> 0 <= stride -> owned fs bs stride off e -> faithful 0 fs e.
Proof.
  intros Hoff Hst. destruct e; simpl; auto.
  intros H Hn. destruct (H Hn) as (Hp & k & Hk1 & Hk2 & Hk3).
  split; [exact Hp |]. nia.
Qed.

(** The destination after a list of faithful calls: the source byte where
    some call wrote, the old content elsewhere. *)
Lemma apply_trace_faithful src fs tr :
  Forall (faithful 0 fs) tr ->
  forall dst b,
    (Exists (covers b) tr /\ 0 <= b < fs /\ apply_trace src tr dst b = Some (src b)) \/
    (~ Exists (covers b) tr /\ apply_trace src tr dst b = dst b).
Proof.
  induction 1 as [| e tr He _ IH]; intros dst b.
  - right. split; [intros H; inversion H | reflexivity].
  - destruct e as [f ok | o d ok | p o c n er | f | msg];
      try (destruct (IH dst b) as [(Hex & Hb & Hv) | (Hno & Hv)];
           [left; split; [apply Exists_cons_tl; exact Hex | split; assumption]
           | right; split; [intros Hex; inversion Hex; subst; [contradiction | auto]
                           | exact Hv]]).
    cbn [apply_trace]. simpl in He.
    destruct (IH (if 0 <? n then write_bytes src p o n dst else dst) b)
      as [(Hex & Hb & Hv) | (Hno & Hv)].
    + left. split; [apply Exists_cons_tl; exact Hex | split; assumption].
    + destruct (0 <? n) eqn:En.
      * apply Z.ltb_lt in En. destruct (He En) as (Hp & Hlo & Hhi). subst p.
        assert (Hw : write_bytes src o o n dst b
                     = if (o <=? b) && (b <? o + n) then Some (src b) else dst b).
        { unfold write_bytes.
          destruct ((o <=? b) && (b <? o + n)); [f_equal; f_equal; lia | reflexivity]. }
        rewrite Hw in Hv.
        destruct ((o <=? b) && (b <? o + n)) eqn:Ein.
        -- apply andb_true_iff in Ein. destruct Ein as [E1 E2].
           apply Z.leb_le in E1. apply Z.ltb_lt in E2.
           left. split; [apply Exists_cons_hd; simpl; lia |]. split; [lia |].
           exact Hv.
        -- right. split; [| exact Hv].
           intros Hex. inversion Hex; subst; [| contradiction].
           simpl in *. apply andb_false_iff in Ein.
           destruct Ein as [E1 | E1]; [apply Z.leb_gt in E1 | apply Z.ltb_ge in E1]; lia.
      * apply Z.ltb_ge in En. right. split; [| exact Hv].
        intros Hex. inversion Hex; subst; [simpl in *; lia | contradiction].
Qed.

Lemma In_zrange j :
  forall count i, i <= j < i + Z.of_nat count -> In j (zrange i count).
Proof.
  induction count as [| count IH]; intros i Hj; [lia |].
  simpl. destruct (Z.eq_dec i j) as [-> | Hne]; [left; reflexivity |].
  right. apply IH. lia.
Qed.

Section AllWorkers.

Variables (fs n bs : Z).
Hypothesis Hfs : 0 <= fs.
Hypothesis Hbs : 0 < bs.
Hypothesis Hn : 0 < n <= INT_MAX.
Hypothesis Hfit : fs + n * bs <= OFF_MAX.

Lemma all_events_faithful fuel envs :
  Forall (faithful 0 fs) (all_events fuel envs fs n bs).
Proof.
  unfold all_events. apply Forall_flat_map. apply Forall_forall.
  intros i Hin. apply zrange_In in Hin.
  assert (Hi : 0 <= i < n) by lia.
  eapply Forall_impl; [| apply (copy_blocks_owned _ _ _ Hfs Hbs Hn Hfit _ Hi fuel (envs i))].
  intros e. apply owned_faithful; nia.
Qed.

Lemma all_events_cover fuel envs i r b :
  0 <= i < n ->
  snd (copy_blocks fuel (envs i) fs i n bs) = WReturned ->
  In r (planner fs bs n i) -> in_range b r ->
  Exists (covers b) (all_events fuel envs fs n bs).
Proof.
  intros Hi Hret Hin Hb.
  assert (Hrun : copy_blocks fuel (envs i) fs i n bs
                 = (fst (copy_blocks fuel (envs i) fs i n bs), WReturned)).
  { destruct (copy_blocks fuel (envs i) fs i n bs); simpl in *; subst; reflexivity. }
  pose proof (copy_blocks_complete _ _ _ Hfs Hbs Hn Hfit _ Hi _ _ _ Hrun _ _ Hin Hb) as Hex.
  apply Exists_exists in Hex. destruct Hex as (e & He & Hc).
  apply Exists_exists. exists e. split; [| exact Hc].
  unfold all_events. apply in_flat_map. exists i. split; [| exact He].
  apply In_zrange. lia.
Qed.

End AllWorkers.

(** X1.  When every worker returns, the destination is the source, byte for
    byte, and ends where the source ends; this holds for every order in
    which the [sendfile] calls of the workers take effect. *)
Theorem destination_equals_source fs bs n fuel envs src tr :
  0 <= fs -> 0 < bs -> 0 < n <= INT_MAX -> fs + n * bs <= OFF_MAX ->
  (forall i, 0 <= i < n -> snd (copy_blocks fuel (envs i) fs i n bs) = WReturned) ->
  Permutation tr (all_events fuel envs fs n bs) ->
  forall b,
    apply_trace src tr created b =
    if (0 <=? b) && (b <? fs) then Some (src b) else None.
Proof.
  intros Hfs Hbs Hn Hfit Hret Hperm b.
  assert (Hall : Forall (faithful 0 fs) tr).
  { eapply Permutation_Forall; [symmetry; exact Hperm |].
    apply all_events_faithful; assumption. }
  destruct (apply_trace_faithful src fs tr Hall created b) as [(Hex & Hb & Hv) | (Hno & Hv)].
  - rewrite Hv.
    destruct (0 <=? b) eqn:E1; [| apply Z.leb_gt in E1; lia].
    destruct (b <? fs) eqn:E2; [reflexivity | apply Z.ltb_ge in E2; lia].
  - rewrite Hv. unfold created.
    destruct ((0 <=? b) && (b <? fs)) eqn:E; [| reflexivity].
    apply andb_true_iff in E. destruct E as [E1 E2].
    apply Z.leb_le in E1. apply Z.ltb_lt in E2.
    exfalso. apply Hno.
    assert (Hn0 : 0 < n) by lia.
    destruct (@plan_covers fs bs Hbs n Hn0 b (conj E1 E2)) as (i & r & Hi & Hin & Hr).
    eapply Permutation_Exists; [symmetry; exact Hperm |].
    apply (all_events_cover _ _ _ Hfs Hbs Hn Hfit fuel envs _ _ _ Hi (Hret i Hi) Hin Hr).
Qed.

Lemma destination_equals_source_witness :
  apply_trace sample_source (rev (all_events 11 (fun _ => bytewise_env) 10 2 3)) created 7
    = Some (sample_source 7) /\
  apply_trace sample_source (rev (all_events 11 (fun _ => bytewise_env) 10 2 3)) created 10
    = None.
Proof.
  assert (H0 : 0 <= 10) by lia.
  assert (H1 : 0 < 3) by lia.
  assert (H2 : 0 < 2 <= INT_MAX) by (unfold INT_MAX; lia).
  assert (H3 : 10 + 2 * 3 <= OFF_MAX) by (unfold OFF_MAX; lia).
  assert (Hret : forall i, 0 <= i < 2 ->
                           snd (copy_blocks 11 bytewise_env 10 i 2 3) = WReturned).
  { intros i Hi. assert (Hc : i = 0 \/ i = 1) by lia.
    destruct Hc as [-> | ->]; vm_compute; reflexivity. }
  pose proof (@destination_equals_source 10 3 2 11%nat (fun _ => bytewise_env) sample_source
                (rev (all_events 11 (fun _ => bytewise_env) 10 2 3))
                H0 H1 H2 H3 Hret (Permutation_sym (Permutation_rev _))) as Hdst.
  split; [exact (Hdst 7) | exact (Hdst 10)].
Defined.

(** X2.  Whatever the workers do (return, fail, or still run), in every
    order of their [sendfile] calls: a position of the destination either
    keeps its content or holds the byte of the source at the same position
    (inside the file), so a failed run leaves gaps and no wrong byte; and
    the bytes of the ranges of a worker that returned are all there, also
    when other workers failed. *)
Theorem failed_workers_leave_gaps_only fs bs n fuel envs src tr dst :
  0 <= fs -> 0 < bs -> 0 < n <= INT_MAX -> fs + n * bs <= OFF_MAX ->
  Permutation tr (all_events fuel envs fs n bs) ->
  (forall b, apply_trace src tr dst b = dst b \/
             (0 <= b < fs /\ apply_trace src tr dst b = Some (src b))) /\
  (forall i r b,
      0 <= i < n -> snd (copy_blocks fuel (envs i) fs i n bs) = WReturned ->
      In r (planner fs bs n i) -> in_range b r ->
      apply_trace src tr dst b = Some (src b)).
Proof.
  intros Hfs Hbs Hn Hfit Hperm.
  assert (Hall : Forall (faithful 0 fs) tr).
  { eapply Permutation_Forall; [symmetry; exact Hperm |].
    apply all_events_faithful; assumption. }
  split.
  - intros b.
    destruct (apply_trace_faithful src fs tr Hall dst b) as [(_ & Hb & Hv) | (_ & Hv)]; auto.
  - intros i r b Hi Hret Hin Hr.
    destruct (apply_trace_faithful src fs tr Hall dst b) as [(_ & _ & Hv) | (Hno & _)];
      [exact Hv |].
    exfalso. apply Hno.
    eapply Permutation_Exists; [symmetry; exact Hperm |].
    apply (all_events_cover _ _ _ Hfs Hbs Hn Hfit fuel envs _ _ _ Hi Hret Hin Hr).
Qed.

(** Worker 0 fails with [EIO] at its first call, worker 1 copies its
    blocks: byte 4 (of worker 1) is there, byte 1 (of worker 0) is not. *)
Lemma failed_workers_leave_gaps_only_witness :
  apply_trace sample_source
    (all_events 11 (fun i => if i =? 0 then failing_env else bytewise_env) 10 2 3)
    created 4 = Some (sample_source 4) /\
  apply_trace sample_source
    (all_events 11 (fun i => if i =? 0 then failing_env else bytewise_env) 10 2 3)
    created 1 = None.
Proof.
  assert (H0 : 0 <= 10) by lia.
  assert (H1 : 0 < 3) by lia.
  assert (H2 : 0 < 2 <= INT_MAX) by (unfold INT_MAX; lia).
  assert (H3 : 10 + 2 * 3 <= OFF_MAX) by (unfold OFF_MAX; lia).
  destruct (@failed_workers_leave_gaps_only 10 3 2 11%nat
              (fun i => if i =? 0 then failing_env else bytewise_env) sample_source
              (all_events 11 (fun i => if i =? 0 then failing_env else bytewise_env) 10 2 3)
              created H0 H1 H2 H3 (Permutation_refl _)) as [_ Hdone].
  split.
  - apply (Hdone 1 (3, 3) 4); [lia | vm_compute; reflexivity | vm_compute; auto |].
    unfold in_range. simpl. lia.
  - vm_compute. reflexivity.
Defined.

(** X3.  Two different workers never transfer the same byte, whatever
    their runs are (returned, failed, still running, with short counts or
    retries). *)
Theorem workers_never_collide fs bs n i j fuel fuel' env env' e e' b :
  0 <= fs -> 0 < bs -> 0 < n <= INT_MAX -> fs + n * bs <= OFF_MAX ->
  0 <= i < n -> 0 <= j < n -> i <> j ->
  In e (fst (copy_blocks fuel env fs i n bs)) ->
  In e' (fst (copy_blocks fuel' env' fs j n bs)) ->
  covers b e -> ~ covers b e'.
Proof.
  intros Hfs Hbs Hn Hfit Hi Hj Hne He He' Hc Hc'.
  pose proof (copy_blocks_owned _ _ _ Hfs Hbs Hn Hfit _ Hi fuel env) as Ho.
  pose proof (copy_blocks_owned _ _ _ Hfs Hbs Hn Hfit _ Hj fuel' env') as Ho'.
  rewrite Forall_forall in Ho, Ho'.
  apply Ho in He. apply Ho' in He'.
  destruct e as [| | p o c r er | |]; simpl in Hc; try contradiction.
  destruct e' as [| | p' o' c' r' er' | |]; simpl in Hc'; try contradiction.
  simpl in He, He'.
  destruct He as (-> & k & Hk1 & Hk2 & Hk3); [lia |].
  destruct He' as (-> & k' & Hk1' & Hk2' & Hk3'); [lia |].
  assert (Hq : i + Z.of_nat k * n = j + Z.of_nat k' * n).
  { apply (@block_unique bs Hbs _ _ b); nia. }
  assert (Hn0 : 0 < n) by lia.
  apply Hne. apply (@owner_unique n Hn0 i j _ _ Hi Hj Hq).
Qed.

Lemma workers_never_collide_witness :
  In (EvSendfile 1 1 2 1 0) (fst (copy_blocks 11 bytewise_env 10 0 2 3)) /\
  In (EvSendfile 3 3 3 2 0) (fst (copy_blocks 4 interrupted_env 10 1 2 3)) /\
  (covers 1 (EvSendfile 3 3 3 2 0) -> False).
Proof.
  assert (H0 : 0 <= 10) by lia.
  assert (H1 : 0 < 3) by lia.
  assert (H2 : 0 < 2 <= INT_MAX) by (unfold INT_MAX; lia).
  assert (H3 : 10 + 2 * 3 <= OFF_MAX) by (unfold OFF_MAX; lia).
  assert (Hi : 0 <= 0 < 2) by lia.
  assert (Hj : 0 <= 1 < 2) by lia.
  assert (Hne : 0 <> 1) by lia.
  assert (Hin : In (EvSendfile 1 1 2 1 0) (fst (copy_blocks 11 bytewise_env 10 0 2 3))).
  { vm_compute. right. right. right. right. left. reflexivity. }
  assert (Hin' : In (EvSendfile 3 3 3 2 0) (fst (copy_blocks 4 interrupted_env 10 1 2 3))).
  { vm_compute. right. right. right. right. left. reflexivity. }
  assert (Hc : covers 1 (EvSendfile 1 1 2 1 0)) by (simpl; lia).
  split; [exact Hin |]. split; [exact Hin' |].
  exact (@workers_never_collide 10 3 2 0 1 11%nat 4%nat bytewise_env interrupted_env
           (EvSendfile 1 1 2 1 0) (EvSendfile 3 3 3 2 0) 1
           H0 H1 H2 H3 Hi Hj Hne Hin Hin' Hc).
Defined.

(* ================================================================= *)
(** ** Descriptors *)

Lemma fd_run_app st tr rest :
  fd_run st (tr ++ rest) =
  match fd_run st tr with
  | Some st' => fd_run st' rest
  | None => None
  end.
Proof.
  revert st. induction tr as [| e tr IH]; intros st; simpl; [reflexivity |].
  destruct (fd_step st e); [apply IH | reflexivity].
Qed.

Lemma fd_run_transfers delta tr :
  Forall (is_transfer_from delta) tr -> fd_run (true, true) tr = Some (true, true).
Proof.
  induction 1 as [| e tr He _ IH]; simpl; [reflexivity |].
  destruct e; simpl in He; try contradiction. exact IH.
Qed.

Lemma block_loop_descriptors fuel seekable fs n bs :
  forall oracle off doff,
    fd_run (true, true) (fst (block_loop fuel seekable fs n bs oracle off doff)) =
    Some (if terminated (snd (block_loop fuel seekable fs n bs oracle off doff))
          then (false, false) else (true, true)).
Proof.
  induction fuel as [| fuel IH]; intros oracle off doff; simpl.
  - destruct (off <? fs); reflexivity.
  - destruct (off <? fs); [| reflexivity].
    destruct (lseek_ok seekable doff); [| reflexivity].
    pose proof (sendfile_loop_events fuel fs oracle doff off (to_off bs)) as Hev.
    destruct (sendfile_loop fuel fs oracle doff off (to_off bs)) as [tr res].
    simpl in Hev. apply fd_run_transfers in Hev.
    destruct res as [oracle' dp' off' ts' | |]; cbn [fst snd fd_run fd_step].
    + rewrite fd_run_app, Hev. apply IH.
    + rewrite fd_run_app, Hev. reflexivity.
    + rewrite Hev. reflexivity.
Qed.

(** X4.  In every run of a worker, for all arguments: [lseek] and
    [sendfile] are only called while both descriptors are open, no
    descriptor is opened or closed twice, and a worker that has ended
    (returned or exited) has closed every descriptor it opened. *)
Theorem worker_closes_what_it_opens fuel env fs i n bs :
  exists st,
    fd_run (false, false) (fst (copy_blocks fuel env fs i n bs)) = Some st /\
    (terminated (snd (copy_blocks fuel env fs i n bs)) = true -> st = (false, false)) /\
    (snd (copy_blocks fuel env fs i n bs) = WRunning -> st = (true, true)).
Proof.
  unfold copy_blocks.
  destruct (open_source_ok env); [| exists (false, false); simpl; auto; repeat split; discriminate].
  destruct (open_dest_ok env);
    [| exists (false, false); simpl; repeat split; auto; discriminate].
  cbn [fst snd fd_run fd_step].
  rewrite block_loop_descriptors.
  eexists. split; [reflexivity |].
  destruct (snd (block_loop fuel (dest_seekable env) fs n bs (sendfile_oracle env)
                            (to_off (size_mul i bs)) (to_off (size_mul i bs))));
    simpl; split; auto; discriminate.
Qed.

(* ================================================================= *)
(** ** A block size of zero *)

Lemma size_mul_zero a : size_mul a 0 = 0.
Proof.
  unfold size_mul. change (to_size 0) with 0. rewrite Z.mul_0_r. reflexivity.
Qed.

Lemma block_loop_zero_block fuel fs n :
  0 < fs ->
  forall oracle,
    block_loop fuel true fs n 0 oracle 0 0 = (repeat (EvSeek 0 0 true) fuel, WRunning).
Proof.
  intros Hfs. induction fuel as [| fuel IH]; intros oracle; simpl.
  - destruct (0 <? fs) eqn:E; [reflexivity | apply Z.ltb_ge in E; lia].
  - destruct (0 <? fs) eqn:E; [| apply Z.ltb_ge in E; lia].
    change (lseek_ok true 0) with true. cbv iota.
    change (to_off 0) with 0.
    assert (Hin : sendfile_loop fuel fs oracle 0 0 0 = ([], SendDone oracle 0 0 0)).
    { destruct fuel; reflexivity. }
    rewrite Hin. rewrite !size_mul_zero.
    change (off_add_size 0 0) with 0.
    rewrite IH. reflexivity.
Qed.

(** X5.  With a block size of 0 and a source that is not empty, a worker
    whose [open] and [lseek] calls succeed never ends and never calls
    [sendfile]: however long it runs, it only repeats the [lseek] to
    offset 0.  The parent then never gets out of [wait]. *)
Theorem zero_block_size_never_ends fs :
  0 < fs ->
  (forall fuel env i n,
      open_source_ok env = true -> open_dest_ok env = true -> dest_seekable env = true ->
      copy_blocks fuel env fs i n 0 =
      (EvOpen SourceFd true :: EvOpen DestFd true :: repeat (EvSeek 0 0 true) fuel,
       WRunning)) /\
  (forall env n r,
      0 < n -> stat_size env = Some fs -> create_dest_ok env = true ->
      (forall i, 0 <= i < n -> fork_ok env i = true) ->
      (forall i, 0 <= i < n ->
                 open_source_ok (worker env i) = true /\
                 open_dest_ok (worker env i) = true /\
                 dest_seekable (worker env i) = true) ->
      p_out (perform_copy env n 0 r) = Blocked).
Proof.
  intros Hfs.
  assert (Hworker : forall fuel env i n,
             open_source_ok env = true -> open_dest_ok env = true ->
             dest_seekable env = true ->
             copy_blocks fuel env fs i n 0 =
             (EvOpen SourceFd true :: EvOpen DestFd true :: repeat (EvSeek 0 0 true) fuel,
              WRunning)).
  { intros fuel env i n Hs Hd Hseek. unfold copy_blocks.
    rewrite Hs, Hd, Hseek, size_mul_zero. change (to_off 0) with 0.
    rewrite (block_loop_zero_block fuel fs n Hfs). reflexivity. }
  split; [exact Hworker |].
  intros env n r Hn Hstat Hcreate Hfork Hopen.
  unfold perform_copy. rewrite Hstat, Hcreate.
  rewrite fork_loop_run by (intros j Hj; apply Hfork; lia).
  rewrite !bind_emit. cbn [p_out p_events].
  unfold wait_all. cbn [p_events]. rewrite children_forks.
  assert (Hsome : forallb (fun c : Z * (list event * wstatus) => terminated (snd (snd c)))
                    (map (fun j => (j, copy_blocks (worker_fuel env) (worker env j) fs j n 0))
                         (zrange 0 (Z.to_nat n))) = false).
  { destruct (Z.to_nat n) as [| m] eqn:En; [lia |].
    cbn [zrange map forallb].
    destruct (Hopen 0 ltac:(lia)) as (Hs & Hd & Hseek).
    rewrite (Hworker _ _ _ _ Hs Hd Hseek). reflexivity. }
  rewrite Hsome. reflexivity.
Qed.

Lemma zero_block_size_never_ends_witness :
  snd (copy_blocks 50 ideal_env 4096 0 2 0) = WRunning /\
  p_out (perform_copy (sample_copy_env (Some 4096) (fun _ => ideal_env)) 2 0 zero_result)
    = Blocked.
Proof.
  assert (Hfs : 0 < 4096) by lia.
  destruct (zero_block_size_never_ends 4096 Hfs) as [Hworker Hparent].
  split.
  - rewrite (Hworker 50%nat ideal_env 0 2 eq_refl eq_refl eq_refl). reflexivity.
  - apply Hparent.
    + lia.
    + reflexivity.
    + reflexivity.
    + intros i _. reflexivity.
    + intros i _. repeat split.
Defined.

(* ================================================================= *)
(** ** The comparison of two runs *)

Lemma compare_cases a b :
  ((elapsed_time a < elapsed_time b)%Q /\ compare_run_results a b = -1) \/
  ((elapsed_time a == elapsed_time b)%Q /\ compare_run_results a b = 0) \/
  ((elapsed_time b < elapsed_time a)%Q /\ compare_run_results a b = 1).
Proof.
  unfold compare_run_results, Qlt_bool.
  destruct (Qle_bool (elapsed_time a) (elapsed_time b)) eqn:Eab;
    destruct (Qle_bool (elapsed_time b) (elapsed_time a)) eqn:Eba; simpl.
  - apply Qle_bool_iff in Eab. apply Qle_bool_iff in Eba.
    right. left. split; [apply Qle_antisym; assumption | reflexivity].
  - left. split; [| reflexivity]. apply Qnot_le_lt. intros H.
    apply Qle_bool_iff in H. congruence.
  - right. right. split; [| reflexivity]. apply Qnot_le_lt. intros H.
    apply Qle_bool_iff in H. congruence.
  - exfalso.
    destruct (Qlt_le_dec (elapsed_time b) (elapsed_time a)) as [Hlt | Hle].
    + apply Qlt_le_weak in Hlt. apply Qle_bool_iff in Hlt. congruence.
    + apply Qle_bool_iff in Hle. congruence.
Qed.

(** X6.  [compare_run_results] is a comparison [qsort] can work with: its
    value is -1, 0 or 1; it is negative exactly when the first run was
    faster, zero exactly when both took the same time; swapping the
    arguments negates it; and "not greater" is transitive. *)
Theorem compare_run_results_orders_by_time :
  (forall a b, compare_run_results a b = -1 \/ compare_run_results a b = 0
               \/ compare_run_results a b = 1) /\
  (forall a b, compare_run_results a b < 0 <-> (elapsed_time a < elapsed_time b)%Q) /\
  (forall a b, compare_run_results a b = 0 <-> (elapsed_time a == elapsed_time b)%Q) /\
  (forall a b, compare_run_results b a = - compare_run_results a b) /\
  (forall a b c, compare_run_results a b <= 0 -> compare_run_results b c <= 0 ->
                 compare_run_results a c <= 0).
Proof.
  split; [| split; [| split; [| split]]].
  - intros a b. destruct (compare_cases a b) as [[_ H] | [[_ H] | [_ H]]]; auto.
  - intros a b. destruct (compare_cases a b) as [[Hq H] | [[Hq H] | [Hq H]]]; rewrite H.
    + split; [intros _; exact Hq | lia].
    + split; [lia |]. intros Hlt. rewrite Hq in Hlt. exfalso. apply (Qlt_irrefl _ Hlt).
    + split; [lia |]. intros Hlt. exfalso.
      apply (Qlt_irrefl (elapsed_time a)). eapply Qlt_trans; eassumption.
  - intros a b. destruct (compare_cases a b) as [[Hq H] | [[Hq H] | [Hq H]]]; rewrite H.
    + split; [lia |]. intros Heq. rewrite Heq in Hq. exfalso. apply (Qlt_irrefl _ Hq).
    + split; [intros _; exact Hq | reflexivity].
    + split; [lia |]. intros Heq. rewrite Heq in Hq. exfalso. apply (Qlt_irrefl _ Hq).
  - intros a b.
    destruct (compare_cases a b) as [[Hq H] | [[Hq H] | [Hq H]]];
      destruct (compare_cases b a) as [[Hq' H'] | [[Hq' H'] | [Hq' H']]];
      rewrite H, H'; try reflexivity; exfalso.
    + apply (Qlt_irrefl (elapsed_time a)). eapply Qlt_trans; eassumption.
    + rewrite Hq' in Hq. apply (Qlt_irrefl _ Hq).
    + rewrite Hq in Hq'. apply (Qlt_irrefl _ Hq').
    + rewrite Hq in Hq'. apply (Qlt_irrefl _ Hq').
    + rewrite Hq' in Hq. apply (Qlt_irrefl _ Hq).
    + apply (Qlt_irrefl (elapsed_time a)). eapply Qlt_trans; eassumption.
  - intros a b c Hab Hbc.
    assert (H1 : (compare_run_results a b <=? 0) = true) by (apply Z.leb_le; exact Hab).
    assert (H2 : (compare_run_results b c <=? 0) = true) by (apply Z.leb_le; exact Hbc).
    apply compare_le in H1. apply compare_le in H2.
    apply Z.leb_le. apply compare_le. eapply no_slower_trans; eassumption.
Qed.

(* ================================================================= *)
(** ** What the sweep prints and leaves behind *)

Lemma absent_app P l1 l2 : absent P (l1 ++ l2) <-> absent P l1 /\ absent P l2.
Proof. unfold absent. rewrite forallb_app. apply andb_true_iff. Qed.

Lemma absent_bind {A B : Type} P (m : proc A) (f : A -> proc B) :
  absent P (p_events m) ->
  (forall a, p_out m = Returned a -> absent P (p_events (f a))) ->
  absent P (p_events (bind m f)).
Proof.
  intros Hm Hf. unfold bind.
  destruct (p_out m) as [a | c | |] eqn:E; simpl; try exact Hm.
  apply absent_app. split; [exact Hm | apply Hf; reflexivity].
Qed.

Lemma absent_fork_loop P env fs n bs :
  (forall i c, P (PFork i c) = false) -> P (PStderr ErrFork) = false ->
  forall count i, absent P (p_events (fork_loop count env fs i n bs)).
Proof.
  intros Hfork Herr. induction count as [| count IH]; intros i; cbn [fork_loop];
    [reflexivity |].
  destruct (fork_ok env i).
  - apply absent_bind; [unfold absent; simpl; rewrite Hfork; reflexivity | intros _ _; apply IH].
  - unfold absent. simpl. rewrite Hfork, Herr. reflexivity.
Qed.

Lemma absent_wait_loop P count :
  P PWait = false -> absent P (p_events (wait_loop count)).
Proof.
  intros Hw. induction count as [| count IH]; cbn [wait_loop]; [reflexivity |].
  apply absent_bind; [unfold absent; simpl; rewrite Hw; reflexivity | intros _ _; exact IH].
Qed.

(** [perform_copy] neither prints the report nor the warning about the
    cap. *)
Lemma absent_perform_copy env n bs r :
  absent cap_or_report (p_events (perform_copy env n bs r)).
Proof.
  unfold perform_copy. destruct (stat_size env) as [fs |]; [| reflexivity].
  apply absent_bind; [reflexivity | intros _ _].
  apply absent_bind; [destruct (create_dest_ok env); reflexivity | intros _ _].
  apply absent_bind; [reflexivity | intros _ _].
  apply absent_bind; [apply absent_fork_loop; reflexivity | intros _ _].
  apply absent_bind.
  - unfold wait_all. destruct (forallb _ _); [apply absent_wait_loop |]; reflexivity.
  - intros _ _. reflexivity.
Qed.

Lemma absent_sweep_sizes env np :
  forall indices results,
    Z.of_nat (length results + length indices) <= MAX_RUNS ->
    absent cap_or_report (p_events (sweep_sizes env np indices results)).
Proof.
  induction indices as [| i indices IH]; intros results Hcap; cbn [sweep_sizes];
    [reflexivity |].
  destruct (MAX_RUNS <=? Z.of_nat (length results)) eqn:E.
  { apply Z.leb_le in E. simpl in Hcap. lia. }
  apply absent_bind;
    [unfold drop_caches; destruct (drop_caches_ok _); reflexivity | intros _ _].
  apply absent_bind; [reflexivity | intros _ _].
  apply absent_bind; [apply absent_perform_copy | intros r _].
  apply absent_bind; [destruct (unlink_ok _); reflexivity | intros _ _].
  apply IH. rewrite length_app. simpl in *. lia.
Qed.

Lemma absent_sweep_counts env cpus :
  forall per_cpu results,
    Z.of_nat (length results + 5 * length per_cpu) <= MAX_RUNS ->
    absent cap_or_report (p_events (sweep_counts env cpus per_cpu results)).
Proof.
  induction per_cpu as [| p per_cpu IH]; intros results Hcap; cbn [sweep_counts];
    [reflexivity |].
  apply absent_bind; [apply absent_sweep_sizes; simpl in *; lia |].
  intros mid Hmid.
  apply sweep_sizes_shape in Hmid; [| simpl in *; lia].
  destruct Hmid as (new1 & -> & Hnew1).
  assert (Hlen : length new1 = 5%nat).
  { rewrite <- (length_map run_key), Hnew1. reflexivity. }
  apply IH. rewrite length_app. simpl in *. lia.
Qed.

Lemma absent_sweep env cpus : absent cap_or_report (p_events (sweep env cpus)).
Proof. apply absent_sweep_counts. vm_compute. discriminate. Qed.

Lemma absent_weaken (P Q : pevent -> bool) evs :
  (forall e, Q e = true -> P e = true) -> absent P evs -> absent Q evs.
Proof.
  intros Himp. unfold absent. rewrite !forallb_forall. intros H e Hin.
  specialize (H e Hin). destruct (Q e) eqn:EQ; [| reflexivity].
  rewrite (Himp e EQ) in H. discriminate.
Qed.

Lemma absent_not_In P evs e : absent P evs -> P e = true -> ~ In e evs.
Proof.
  unfold absent. rewrite forallb_forall. intros H HP Hin.
  specialize (H e Hin). rewrite HP in H. discriminate.
Qed.

(** X7.  The warning "Exceeded maximum runs." is never printed, whatever
    the calls of the sweep do; and the two lists of the report are printed
    only after a sweep that got through all its 30 runs: a sweep that is cut
    short prints no ranking. *)
Theorem report_only_after_full_sweep env cpus :
  ~ In ErrMaxRuns (stderr_of (p_events (find_optimal_settings env cpus))) /\
  (forall e, In e (p_events (find_optimal_settings env cpus)) -> is_report e = true ->
             exists results,
               p_out (sweep (rounds env) cpus) = Returned results /\
               length results = 30%nat).
Proof.
  pose proof (absent_sweep (rounds env) cpus) as Hsweep.
  unfold find_optimal_settings. destruct (malloc_ok env).
  2: { split.
       - simpl. intros [H | []]. discriminate.
       - intros e [<- | []] H. discriminate. }
  split.
  - intros Hin. unfold stderr_of in Hin. apply in_flat_map in Hin.
    destruct Hin as (e & He & Hx).
    destruct e; simpl in Hx; try contradiction.
    destruct Hx as [-> | []].
    revert He. apply absent_not_In with (P := is_cap_warning); [| reflexivity].
    apply absent_bind; [| intros results _; reflexivity].
    apply (absent_weaken cap_or_report); [| exact Hsweep].
    intros e. destruct e as [| x | | | | | | | | | | | | |]; try discriminate.
    destruct x; try discriminate. reflexivity.
  - intros e He Hrep. unfold bind in He.
    destruct (p_out (sweep (rounds env) cpus)) as [results | c | |] eqn:E; simpl in He.
    + exists results. split; [reflexivity |].
      unfold sweep in E. apply sweep_counts_shape in E; [| vm_compute; discriminate].
      destruct E as (new & -> & Hnew). simpl.
      rewrite <- (length_map run_key), Hnew. reflexivity.
    + exfalso. revert He. apply absent_not_In with (P := cap_or_report); [exact Hsweep |].
      destruct e; try discriminate; reflexivity.
    + exfalso. revert He. apply absent_not_In with (P := cap_or_report); [exact Hsweep |].
      destruct e; try discriminate; reflexivity.
    + exfalso. revert He. apply absent_not_In with (P := cap_or_report); [exact Hsweep |].
      destruct e; try discriminate; reflexivity.
Qed.

Lemma dest_after_app st l1 l2 :
  dest_after st (l1 ++ l2) = dest_after (dest_after st l1) l2.
Proof.
  revert st. induction l1 as [| e l1 IH]; intros st; simpl; [reflexivity |].
  destruct e; try apply IH. destruct child; apply IH.
Qed.

Lemma sweep_sizes_dest env np :
  forall indices results results' st,
    Z.of_nat (length results + length indices) <= MAX_RUNS ->
    p_out (sweep_sizes env np indices results) = Returned results' ->
    dest_after st (p_events (sweep_sizes env np indices results)) =
    match indices with
    | [] => st
    | _ => None
    end.
Proof.
  induction indices as [| i indices IH]; intros results results' st Hcap H;
    cbn [sweep_sizes] in *; [reflexivity |].
  destruct (MAX_RUNS <=? Z.of_nat (length results)) eqn:E.
  { apply Z.leb_le in E. simpl in Hcap. lia. }
  pose proof H as H0.
  apply bind_inv in H0. destruct H0 as (a1 & H1 & H0). rewrite (bind_returned _ _ H1).
  apply bind_inv in H0. destruct H0 as (a2 & H2 & H0). rewrite (bind_returned _ _ H2).
  apply bind_inv in H0. destruct H0 as (r & H3 & H0). rewrite (bind_returned _ _ H3).
  apply bind_inv in H0. destruct H0 as (a4 & H4 & H0). rewrite (bind_returned _ _ H4).
  cbn [p_events]. rewrite !dest_after_app.
  destruct (unlink_ok (env (length results))); [| discriminate].
  cbn [emit p_events dest_after].
  assert (Hcap' : Z.of_nat (length (results ++ [r]) + length indices) <= MAX_RUNS)
    by (rewrite length_app; simpl in *; lia).
  rewrite (IH _ _ None Hcap' H0).
  destruct indices; reflexivity.
Qed.

Lemma sweep_counts_dest env cpus :
  forall per_cpu results results' st,
    Z.of_nat (length results + 5 * length per_cpu) <= MAX_RUNS ->
    p_out (sweep_counts env cpus per_cpu results) = Returned results' ->
    dest_after st (p_events (sweep_counts env cpus per_cpu results)) =
    match per_cpu with
    | [] => st
    | _ => None
    end.
Proof.
  induction per_cpu as [| p per_cpu IH]; intros results results' st Hcap H;
    cbn [sweep_counts] in *; [reflexivity |].
  pose proof H as H0.
  apply bind_inv in H0. destruct H0 as (mid & Hmid & H0).
  rewrite (bind_returned _ _ Hmid). cbn [p_events]. rewrite dest_after_app.
  assert (Hcap1 : Z.of_nat (length results + length [0; 1; 2; 3; 4]) <= MAX_RUNS)
    by (simpl in *; lia).
  rewrite (sweep_sizes_dest env _ _ _ _ st Hcap1 Hmid).
  pose proof (sweep_sizes_shape env _ _ _ _ Hcap1 Hmid) as (new1 & Heq & Hnew1).
  assert (Hlen : length new1 = 5%nat).
  { rewrite <- (length_map run_key), Hnew1. reflexivity. }
  subst mid.
  assert (Hcap2 : Z.of_nat (length (results ++ new1) + 5 * length per_cpu) <= MAX_RUNS)
    by (rewrite length_app; simpl in *; lia).
  rewrite (IH _ _ None Hcap2 H0).
  destruct per_cpu; reflexivity.
Qed.

(** X8.  A sweep that gets to its end leaves no destination file behind:
    the file is unlinked after every run, the last one included, whatever
    existed under that name before. *)
Theorem sweep_leaves_no_destination env cpus st :
  p_out (find_optimal_settings env cpus) = Returned tt ->
  dest_after st (p_events (find_optimal_settings env cpus)) = None.
Proof.
  unfold find_optimal_settings. intros H.
  destruct (malloc_ok env); [| discriminate].
  pose proof H as H0. apply bind_inv in H0. destruct H0 as (results & Hres & _).
  rewrite (bind_returned _ _ Hres). cbn [p_events]. rewrite dest_after_app.
  unfold sweep in *.
  assert (Hcap : Z.of_nat (length (@nil RunResult) + 5 * length [1; 2; 3; 4; 5; 6])
                 <= MAX_RUNS) by (vm_compute; discriminate).
  rewrite (sweep_counts_dest (rounds env) cpus _ _ _ st Hcap Hres).
  reflexivity.
Qed.

Lemma sweep_leaves_no_destination_witness :
  dest_after (Some 123) (p_events (find_optimal_settings sample_sweep 2)) = None.
Proof.
  apply sweep_leaves_no_destination. vm_compute. reflexivity.
Defined.

(* ================================================================= *)
(** ** More on [main] and [perform_copy] *)

Lemma parse_options_root env :
  euid env = 0 ->
  forall opts st,
    ~ In OptBad opts ->
    exists st',
      parse_options env opts st = ret st' /\
      (In OptO opts \/ m_optimize st = 1 -> m_optimize st' = 1).
Proof.
  intros Hroot. apply Z.eqb_eq in Hroot.
  induction opts as [| o opts IH]; intros st Hbad.
  - exists st. split; [destruct st; reflexivity |].
    intros [[] | H]; exact H.
  - assert (Hbad' : ~ In OptBad opts) by (intros H; apply Hbad; right; exact H).
    destruct o as [m | m | |]; cbn [parse_options].
    + destruct (IH {| m_num_processes := m; m_shift_value := m_shift_value st;
                      m_optimize := m_optimize st; m_block_size := m_block_size st |} Hbad')
        as (st' & Hp & Ho).
      exists st'. split; [exact Hp |]. intros [[Hx | Hin] | Hm];
        [discriminate | apply Ho; left; exact Hin | apply Ho; right; exact Hm].
    + destruct (IH {| m_num_processes := m_num_processes st; m_shift_value := m;
                      m_optimize := m_optimize st;
                      m_block_size := block_size_of_shift m |} Hbad')
        as (st' & Hp & Ho).
      exists st'. split; [exact Hp |]. intros [[Hx | Hin] | Hm];
        [discriminate | apply Ho; left; exact Hin | apply Ho; right; exact Hm].
    + rewrite Hroot.
      destruct (IH {| m_num_processes := m_num_processes st;
                      m_shift_value := m_shift_value st;
                      m_optimize := 1; m_block_size := m_block_size st |} Hbad')
        as (st' & Hp & Ho).
      exists st'. split; [exact Hp |]. intros _. apply Ho. right. reflexivity.
    + exfalso. apply Hbad. left. reflexivity.
Qed.

(** X9.  With [-o], as root and with two operands, [main] runs the sweep
    and nothing else: what [-p] and [-s] say, before or after [-o], has no
    effect (the worker count and the block size they set are never read in
    this mode). *)
Theorem optimize_ignores_count_and_shift env cmd :
  euid env = 0 -> In OptO (options cmd) -> ~ In OptBad (options cmd) ->
  2 <= operands cmd ->
  main env cmd =
  (emit PBanner ;;; find_optimal_settings (the_sweep env) (nprocs env) ;;; ret 0).
Proof.
  intros Hroot Ho Hbad Hops. unfold main.
  destruct (parse_options_root env Hroot (options cmd) initial_state Hbad)
    as (st & Hparse & Hopt).
  rewrite Hparse, bind_ret.
  destruct (operands cmd <? 2) eqn:E; [apply Z.ltb_lt in E; lia |].
  assert (Hst : p_out (parse_options env (options cmd) initial_state) = Returned st)
    by (rewrite Hparse; reflexivity).
  destruct (settled_values env (options cmd) st Hst) as (_ & _ & _ & Hkeep).
  rewrite Hkeep, (Hopt (or_introl Ho)). reflexivity.
Qed.

Lemma optimize_ignores_count_and_shift_witness :
  main (root_env sample_sweep_env) {| options := [OptP (-7); OptO; OptS 7]; operands := 2 |}
  = main (root_env sample_sweep_env) {| options := [OptO]; operands := 2 |}.
Proof.
  assert (Hops : 2 <= 2) by lia.
  assert (Hbad1 : ~ In OptBad [OptP (-7); OptO; OptS 7])
    by (intros [H | [H | [H | []]]]; discriminate).
  assert (Hbad2 : ~ In OptBad [OptO]) by (intros [H | []]; discriminate).
  rewrite (@optimize_ignores_count_and_shift (root_env sample_sweep_env)
             {| options := [OptP (-7); OptO; OptS 7]; operands := 2 |}
             eq_refl (or_intror (or_introl eq_refl)) Hbad1 Hops).
  rewrite (@optimize_ignores_count_and_shift (root_env sample_sweep_env)
             {| options := [OptO]; operands := 2 |}
             eq_refl (or_introl eq_refl) Hbad2 Hops).
  reflexivity.
Defined.

Lemma fork_loop_first_failure env fs n bs j :
  fork_ok env j = false ->
  forall count i,
    i <= j < i + Z.of_nat count ->
    (forall k, i <= k < j -> fork_ok env k = true) ->
    fork_loop count env fs i n bs =
    {| p_events := map (fork_event env fs n bs) (zrange i (Z.to_nat (j - i)))
                     ++ [PFork j None; PStderr ErrFork];
       p_out := Exited 1 |}.
Proof.
  intros Hfail. induction count as [| count IH]; intros i Hj Hok; [lia |].
  cbn [fork_loop].
  destruct (Z.eq_dec i j) as [-> | Hne].
  - rewrite Hfail, Z.sub_diag. reflexivity.
  - rewrite Hok by lia. rewrite bind_emit.
    rewrite (IH (i + 1)) by (try lia; intros k Hk; apply Hok; lia).
    replace (Z.to_nat (j - i)) with (S (Z.to_nat (j - (i + 1)))) by lia.
    reflexivity.
Qed.

(** X10.  When the fork of worker [j] fails after the workers [0 .. j-1]
    were forked, the parent prints the error and exits with code 1 at once:
    it waits for none of the [j] workers it started and does not stop them,
    and the destination stays as it was truncated. *)
Theorem fork_failure_abandons_workers env n bs r fs j :
  stat_size env = Some fs -> create_dest_ok env = true ->
  0 <= j < n -> fork_ok env j = false ->
  (forall i, 0 <= i < j -> fork_ok env i = true) ->
  perform_copy env n bs r =
  {| p_events := PStat fs :: PCreateDest :: PTime (start_time env)
                   :: map (fork_event env fs n bs) (zrange 0 (Z.to_nat j))
                   ++ [PFork j None; PStderr ErrFork];
     p_out := Exited 1 |}.
Proof.
  intros Hstat Hcreate Hj Hfail Hok.
  unfold perform_copy. rewrite Hstat, Hcreate.
  rewrite (@fork_loop_first_failure env fs n bs j Hfail (Z.to_nat n) 0)
    by (try lia; intros k Hk; apply Hok; lia).
  rewrite Z.sub_0_r. reflexivity.
Qed.

Lemma fork_failure_abandons_workers_witness :
  map fst (children (p_events (perform_copy (fork_limited_env 2) 4 65536 zero_result)))
    = [0; 1] /\
  absent is_wait (p_events (perform_copy (fork_limited_env 2) 4 65536 zero_result)) /\
  p_out (perform_copy (fork_limited_env 2) 4 65536 zero_result) = Exited 1.
Proof.
  assert (Hj : 0 <= 2 < 4) by lia.
  assert (Hok : forall i, 0 <= i < 2 -> fork_ok (fork_limited_env 2) i = true).
  { intros i Hi. simpl. apply Z.ltb_lt. lia. }
  rewrite (@fork_failure_abandons_workers (fork_limited_env 2) 4 65536 zero_result 4096 2
             eq_refl eq_refl Hj eq_refl Hok).
  split; [vm_compute; reflexivity |]. split; vm_compute; reflexivity.
Defined.

(** X11.  Without [-p], or with a count of 0 (which is also what a count
    that is no number yields), a copy forks [4 * get_nprocs()] workers,
    numbered from 0, announces that count and, when the calls of the
    parent succeed, ends with code 0. *)
Theorem default_worker_count env cmd size :
  forallb plain (options cmd) = true ->
  last_count (options cmd) 0 = 0 ->
  2 <= operands cmd ->
  block_size_of_shift (resolved_shift (options cmd)) = Some size ->
  1 <= nprocs env -> 4 * nprocs env <= INT_MAX ->
  parent_calls_succeed (the_copy env) (4 * nprocs env) size ->
  map fst (children (p_events (main env cmd))) = zrange 0 (Z.to_nat (4 * nprocs env)) /\
  In (PStarting (4 * nprocs env) (size / 1024)) (p_events (main env cmd)) /\
  exit_code (main env cmd) = Some 0.
Proof.
  intros Hplain Hzero Hops Hsize Hcpu Hmax (fs & Hstat & Hcreate & Hfork & Hterm).
  rewrite (main_copy_mode env cmd size Hplain Hops Hsize).
  assert (Hcount : resolved_count env (options cmd) = 4 * nprocs env).
  { unfold resolved_count. rewrite Hzero, Z.eqb_refl. unfold int_mul.
    rewrite to_int_small by (unfold INT_MIN, INT_MAX in *; lia). lia. }
  rewrite Hcount.
  pose proof (perform_copy_run _ _ _ zero_result _ Hstat Hcreate Hfork Hterm) as Hrun.
  pose proof (perform_copy_children _ _ _ zero_result _ Hstat Hcreate Hfork Hterm) as Hch.
  assert (Hout : p_out (perform_copy (the_copy env) (4 * nprocs env) size zero_result)
                 = Returned {| num_processes := 4 * nprocs env; block_size := size;
                               elapsed_time := elapsed (start_time (the_copy env))
                                                       (end_time (the_copy env));
                               shift_value := shift_value zero_result |})
    by (rewrite Hrun; reflexivity).
  assert (Hcopy : (perform_copy (the_copy env) (4 * nprocs env) size zero_result ;;; ret 0)
                  = {| p_events := p_events (perform_copy (the_copy env) (4 * nprocs env)
                                                          size zero_result);
                       p_out := Returned 0 |}).
  { rewrite (bind_returned _ _ Hout). cbn [p_events p_out ret].
    rewrite app_nil_r. reflexivity. }
  rewrite Hcopy, !bind_emit. unfold exit_code. cbn [p_events p_out].
  split; [| split; [right; left; reflexivity | reflexivity]].
  cbn [children]. rewrite Hch, map_map. simpl. apply map_id.
Qed.

Lemma default_worker_count_witness :
  map fst (children (p_events
                       (main (sample_main_env (sample_copy_env (Some 0) (fun _ => ideal_env)))
                             {| options := [OptS 6; OptP 0]; operands := 2 |})))
    = zrange 0 16 /\
  exit_code (main (sample_main_env (sample_copy_env (Some 0) (fun _ => ideal_env)))
                  {| options := [OptS 6; OptP 0]; operands := 2 |}) = Some 0.
Proof.
  assert (Hops : 2 <= 2) by lia.
  assert (Hcpu : 1 <= 4) by lia.
  assert (Hmax : 4 * 4 <= INT_MAX) by (unfold INT_MAX; lia).
  destruct (@default_worker_count
              (sample_main_env (sample_copy_env (Some 0) (fun _ => ideal_env)))
              {| options := [OptS 6; OptP 0]; operands := 2 |} 65536
              eq_refl eq_refl Hops eq_refl Hcpu Hmax) as (Hch & _ & Hcode).
  - exists 0. split; [reflexivity |]. split; [reflexivity |].
    split; [intros i _; reflexivity |].
    intros i _. apply copy_blocks_empty_file. simpl. lia.
  - split; [exact Hch | exact Hcode].
Defined.

(* ================================================================= *)
(** ** Retrying for ever *)

Lemma sendfile_loop_stuck fuel fs :
  forall oracle dp off ts,
    always_transient oracle -> 0 < ts -> off < fs ->
    snd (sendfile_loop fuel fs oracle dp off ts) = SendRunning /\
    transfer_calls (fst (sendfile_loop fuel fs oracle dp off ts)) = fuel /\
    block_moved (fst (sendfile_loop fuel fs oracle dp off ts)) = 0.
Proof.
  induction fuel as [| fuel IH]; intros oracle dp off ts Hor Hts Hoff; simpl;
    assert (Hc : (0 <? ts) && (off <? fs) = true)
      by (apply andb_true_iff; split; apply Z.ltb_lt; assumption);
    rewrite Hc; [auto |].
  destruct (Hor O) as (e & He & Hresp).
  assert (Hret : (sendfile_ret fs off (to_size ts) (oracle O) <=? 0) = true)
    by (destruct Hresp as [-> | ->]; reflexivity).
  assert (Herr : sendfile_errno (oracle O) = e)
    by (destruct Hresp as [-> | ->]; reflexivity).
  rewrite Hret, Herr, He.
  assert (Htail : always_transient (oracle_tail oracle)) by (intros k; apply (Hor (S k))).
  destruct (IH (oracle_tail oracle) dp off ts Htail Hts Hoff) as (H1 & H2 & H3).
  unfold with_event. cbn [fst snd transfer_calls block_moved].
  rewrite H1, H2, H3. repeat split.
  apply Z.leb_le in Hret. lia.
Qed.

(** X12.  The retry has no way out: a worker with work to do whose
    [sendfile] keeps failing with [EINTR] or [EAGAIN] never ends and never
    moves a byte, however long it runs; every further step is one more
    call of [sendfile]. *)
Theorem transient_failures_for_ever fs bs n i env :
  0 <= fs -> 0 < bs -> 0 < n <= INT_MAX -> 0 <= i < n -> fs + n * bs <= OFF_MAX ->
  i * bs < fs ->
  open_source_ok env = true -> open_dest_ok env = true -> dest_seekable env = true ->
  always_transient (sendfile_oracle env) ->
  forall fuel,
    snd (copy_blocks (S fuel) env fs i n bs) = WRunning /\
    transfer_calls (fst (copy_blocks (S fuel) env fs i n bs)) = fuel /\
    ranges_of (fst (copy_blocks (S fuel) env fs i n bs)) = [(i * bs, 0)].
Proof.
  intros Hfs Hbs Hn Hi Hfit Hwork Hs Hd Hseek Hor fuel.
  unfold copy_blocks.
  rewrite (first_offset _ _ _ Hfs Hbs Hn Hfit _ Hi), Hs, Hd, Hseek.
  cbn [block_loop].
  assert (Hlt : (i * bs <? fs) = true) by (apply Z.ltb_lt; exact Hwork).
  assert (Hl : lseek_ok true (i * bs) = true) by (apply Z.leb_le; nia).
  rewrite Hlt, Hl, (block_size_off _ _ _ Hfs Hbs Hn Hfit).
  destruct (@sendfile_loop_stuck fuel fs (sendfile_oracle env) (i * bs) (i * bs) bs
              Hor Hbs Hwork) as (H1 & H2 & H3).
  pose proof (sendfile_loop_events fuel fs (sendfile_oracle env) (i * bs) (i * bs) bs) as Hev.
  destruct (sendfile_loop fuel fs (sendfile_oracle env) (i * bs) (i * bs) bs) as [tr res].
  simpl in H1, H2, H3, Hev. subst res.
  cbn [fst snd transfer_calls ranges_of]. rewrite H2, H3.
  repeat split. f_equal.
  rewrite <- (app_nil_r tr). rewrite (ranges_of_app [] Hev). reflexivity.
Qed.

Lemma transient_failures_for_ever_witness :
  snd (copy_blocks 1000 blocking_env 4096 1 2 1024) = WRunning /\
  transfer_calls (fst (copy_blocks 1000 blocking_env 4096 1 2 1024)) = 999%nat.
Proof.
  assert (H0 : 0 <= 4096) by lia.
  assert (H1 : 0 < 1024) by lia.
  assert (H2 : 0 < 2 <= INT_MAX) by (unfold INT_MAX; lia).
  assert (H3 : 0 <= 1 < 2) by lia.
  assert (H4 : 4096 + 2 * 1024 <= OFF_MAX) by (unfold OFF_MAX; lia).
  assert (H5 : 1 * 1024 < 4096) by lia.
  assert (Hor : always_transient (sendfile_oracle blocking_env)).
  { intros k. exists EAGAIN. split; [reflexivity | left; reflexivity]. }
  destruct (@transient_failures_for_ever 4096 1024 2 1 blocking_env
              H0 H1 H2 H3 H4 H5 eq_refl eq_refl eq_refl Hor 999%nat) as (Hst & Hcalls & _).
  split; assumption.
Defined.

(* ================================================================= *)
(** ** The rounds of the sweep, one after the other *)

Lemma round_run_app ph l1 l2 :
  round_run ph (l1 ++ l2) =
  match round_run ph l1 with
  | Some ph' => round_run ph' l2
  | None => None
  end.
Proof.
  revert ph. induction l1 as [| e l1 IH]; intros ph; simpl; [reflexivity |].
  destruct (round_step ph e); [apply IH | reflexivity].
Qed.

Lemma keeps_rounds_bind {A B : Type} ph mid ph' (m : proc A) (f : A -> proc B) :
  keeps_rounds ph m mid ->
  (forall a, p_out m = Returned a -> keeps_rounds mid (f a) ph') ->
  keeps_rounds ph (bind m f) ph'.
Proof.
  intros (last & Hrun & Hlast) Hf.
  destruct (p_out m) as [a | c | |] eqn:E.
  - destruct (Hf a eq_refl) as (last' & Hrun' & Hlast').
    exists last'. rewrite (bind_returned m f E). cbn [p_events p_out]. split.
    + rewrite round_run_app, Hrun, (Hlast a eq_refl). exact Hrun'.
    + exact Hlast'.
  - exists last. unfold bind. rewrite E. split; [exact Hrun | intros ? ?; discriminate].
  - exists last. unfold bind. rewrite E. split; [exact Hrun | intros ? ?; discriminate].
  - exists last. unfold bind. rewrite E. split; [exact Hrun | intros ? ?; discriminate].
Qed.

Lemma keeps_rounds_emit ph ph' e :
  round_step ph e = Some ph' -> keeps_rounds ph (emit e) ph'.
Proof.
  intros H. exists ph'. split; [simpl; rewrite H; reflexivity | intros _ _; reflexivity].
Qed.

Lemma keeps_rounds_die {A : Type} ph ph' e : keeps_rounds ph (@die A e) ph'.
Proof. exists ph. split; [reflexivity | intros ? ?; discriminate]. Qed.

Lemma keeps_rounds_ret {A : Type} ph (a : A) : keeps_rounds ph (ret a) ph.
Proof. exists ph. split; [reflexivity | intros _ _; reflexivity]. Qed.

Lemma keeps_rounds_fork_loop env fs n bs :
  forall count i, keeps_rounds Copying (fork_loop count env fs i n bs) Copying.
Proof.
  induction count as [| count IH]; intros i; cbn [fork_loop]; [apply keeps_rounds_ret |].
  destruct (fork_ok env i).
  - apply keeps_rounds_bind with (mid := Copying);
      [apply keeps_rounds_emit; reflexivity | intros _ _; apply IH].
  - apply keeps_rounds_bind with (mid := Copying);
      [apply keeps_rounds_emit; reflexivity | intros _ _; apply keeps_rounds_die].
Qed.

Lemma keeps_rounds_wait_loop count : keeps_rounds Copying (wait_loop count) Copying.
Proof.
  induction count as [| count IH]; cbn [wait_loop]; [apply keeps_rounds_ret |].
  apply keeps_rounds_bind with (mid := Copying);
    [apply keeps_rounds_emit; reflexivity | intros _ _; exact IH].
Qed.

(** One [perform_copy] is one copy of a round: from the [stat] of the
    source to the line with the throughput. *)
Lemma keeps_rounds_perform_copy env n bs r :
  keeps_rounds CacheDropped (perform_copy env n bs r) Timed.
Proof.
  unfold perform_copy. destruct (stat_size env) as [fs |]; [| apply keeps_rounds_die].
  apply keeps_rounds_bind with (mid := Copying);
    [apply keeps_rounds_emit; reflexivity | intros _ _].
  apply keeps_rounds_bind with (mid := Copying).
  { destruct (create_dest_ok env);
      [apply keeps_rounds_emit; reflexivity | apply keeps_rounds_die]. }
  intros _ _.
  apply keeps_rounds_bind with (mid := Copying);
    [apply keeps_rounds_emit; reflexivity | intros _ _].
  apply keeps_rounds_bind with (mid := Copying);
    [apply keeps_rounds_fork_loop | intros _ _].
  apply keeps_rounds_bind with (mid := Copying).
  { unfold wait_all. destruct (forallb _ _); [apply keeps_rounds_wait_loop |].
    exists Copying. split; [reflexivity | intros ? ?; discriminate]. }
  intros _ _.
  apply keeps_rounds_bind with (mid := Copying);
    [apply keeps_rounds_emit; reflexivity | intros _ _].
  apply keeps_rounds_bind with (mid := Copying);
    [apply keeps_rounds_emit; reflexivity | intros _ _].
  apply keeps_rounds_bind with (mid := Timed);
    [apply keeps_rounds_emit; reflexivity | intros _ _].
  apply keeps_rounds_ret.
Qed.

Lemma keeps_rounds_sweep_sizes env np :
  forall indices results, keeps_rounds Idle (sweep_sizes env np indices results) Idle.
Proof.
  induction indices as [| i indices IH]; intros results; cbn [sweep_sizes];
    [apply keeps_rounds_ret |].
  destruct (MAX_RUNS <=? Z.of_nat (length results)).
  { apply keeps_rounds_bind with (mid := Idle);
      [apply keeps_rounds_emit; reflexivity | intros _ _; apply keeps_rounds_ret]. }
  apply keeps_rounds_bind with (mid := CacheDropped).
  { unfold drop_caches. destruct (drop_caches_ok _);
      [apply keeps_rounds_emit; reflexivity | apply keeps_rounds_die]. }
  intros _ _.
  apply keeps_rounds_bind with (mid := CacheDropped);
    [apply keeps_rounds_emit; reflexivity | intros _ _].
  apply keeps_rounds_bind with (mid := Timed);
    [apply keeps_rounds_perform_copy | intros r _].
  apply keeps_rounds_bind with (mid := Idle).
  { destruct (unlink_ok _); [apply keeps_rounds_emit; reflexivity | apply keeps_rounds_die]. }
  intros _ _. apply IH.
Qed.

Lemma keeps_rounds_sweep_counts env cpus :
  forall per_cpu results, keeps_rounds Idle (sweep_counts env cpus per_cpu results) Idle.
Proof.
  induction per_cpu as [| p per_cpu IH]; intros results; cbn [sweep_counts];
    [apply keeps_rounds_ret |].
  apply keeps_rounds_bind with (mid := Idle);
    [apply keeps_rounds_sweep_sizes | intros mid _; apply IH].
Qed.

(** What the order of the rounds means in numbers: the drops, the copies
    begun and the unlinks so far, by the place in the round. *)
Lemma round_run_counts :
  forall evs ph last d s u,
    round_run ph evs = Some last ->
    match ph with
    | Idle => d = u /\ s = u
    | CacheDropped => d = S u /\ s = u
    | Copying | Timed => d = S u /\ s = S u
    end ->
    let d' := (d + count_events is_drop evs)%nat in
    let s' := (s + count_events is_stat evs)%nat in
    let u' := (u + count_events is_unlink evs)%nat in
    match last with
    | Idle => d' = u' /\ s' = u'
    | CacheDropped => d' = S u' /\ s' = u'
    | Copying | Timed => d' = S u' /\ s' = S u'
    end.
Proof.
  unfold count_events.
  induction evs as [| e evs IH]; intros ph last d s u Hrun Hinv; simpl in *.
  - inversion Hrun; subst. rewrite !Nat.add_0_r. exact Hinv.
  - destruct (round_step ph e) as [ph' |] eqn:E; [| discriminate].
    destruct e, ph; simpl in E; inversion E; subst; simpl;
      try (apply (IH _ _ d s u Hrun Hinv)).
    + specialize (IH _ _ (S d) s u Hrun). simpl in IH.
      rewrite <- !plus_n_Sm. apply IH. lia.
    + specialize (IH _ _ d (S s) u Hrun). simpl in IH.
      rewrite <- !plus_n_Sm. apply IH. lia.
    + specialize (IH _ _ d s (S u) Hrun). simpl in IH.
      rewrite <- !plus_n_Sm. apply IH. lia.
Qed.

(** X13.  The sweep does its rounds one after the other and each in the
    same order: the page cache is dropped, then the copy is made, from the
    [stat] of the source to the line with the throughput, then the
    destination is unlinked; the report comes between rounds only.  So, at
    every moment of a sweep, whatever its calls do: no copy has begun
    without a drop of the cache of its own, and no round has begun before
    the destination of the one before was unlinked. *)
Theorem sweep_round_by_round env cpus :
  keeps_rounds Idle (find_optimal_settings env cpus) Idle /\
  (forall pre post,
      p_events (find_optimal_settings env cpus) = pre ++ post ->
      (count_events is_unlink pre <= count_events is_stat pre)%nat /\
      (count_events is_stat pre <= count_events is_drop pre)%nat /\
      (count_events is_drop pre <= S (count_events is_unlink pre))%nat).
Proof.
  assert (Hkeeps : keeps_rounds Idle (find_optimal_settings env cpus) Idle).
  { unfold find_optimal_settings.
    destruct (malloc_ok env); [| apply keeps_rounds_die].
    apply keeps_rounds_bind with (mid := Idle);
      [apply keeps_rounds_sweep_counts | intros results _].
    unfold report.
    apply keeps_rounds_bind with (mid := Idle);
      [apply keeps_rounds_emit; reflexivity | intros _ _].
    apply keeps_rounds_emit; reflexivity. }
  split; [exact Hkeeps |].
  intros pre post Heq. destruct Hkeeps as (last & Hrun & _).
  rewrite Heq, round_run_app in Hrun.
  destruct (round_run Idle pre) as [mid |] eqn:Epre; [| discriminate].
  pose proof (round_run_counts pre Idle mid O O O Epre (conj eq_refl eq_refl)) as H.
  simpl in H. destruct mid; lia.
Qed.

(* ================================================================= *)
(** ** Errors found before the destination is opened *)

Lemma parse_options_dest env st :
  forall opts st0, dest_after st (p_events (parse_options env opts st0)) = st.
Proof.
  induction opts as [| o opts IH]; intros st0; simpl; [reflexivity |].
  destruct o; try apply IH; [| reflexivity].
  destruct (euid env =? 0); [apply IH | reflexivity].
Qed.

Lemma parse_options_keeps_mode env :
  forall opts st0 st',
    ~ In OptO opts ->
    p_out (parse_options env opts st0) = Returned st' ->
    m_optimize st' = m_optimize st0.
Proof.
  induction opts as [| o opts IH]; intros st0 st' Hno H; simpl in *.
  - inversion H; reflexivity.
  - destruct o.
    + rewrite (IH _ _ (fun Hin => Hno (or_intror Hin)) H). reflexivity.
    + rewrite (IH _ _ (fun Hin => Hno (or_intror Hin)) H). reflexivity.
    + exfalso. apply Hno. left. reflexivity.
    + discriminate.
Qed.

Lemma stderr_of_In evs x : In (PStderr x) evs -> In x (stderr_of evs).
Proof.
  intros Hin. unfold stderr_of. apply in_flat_map.
  exists (PStderr x). split; [exact Hin | left; reflexivity].
Qed.

Lemma fork_loop_exit env fs n bs :
  forall count i c,
    p_out (fork_loop count env fs i n bs) = Exited c ->
    In (PStderr ErrFork) (p_events (fork_loop count env fs i n bs)).
Proof.
  induction count as [| count IH]; intros i c H; cbn [fork_loop] in *; [discriminate |].
  destruct (fork_ok env i).
  - rewrite bind_emit in *. cbn [p_events p_out] in *. right. apply (IH _ _ H).
  - simpl. right. left. reflexivity.
Qed.

(** A [perform_copy] that calls [exit] without a failed [fork] has not
    opened the destination. *)
Lemma perform_copy_spares env n bs r st c :
  p_out (perform_copy env n bs r) = Exited c ->
  ~ In ErrFork (stderr_of (p_events (perform_copy env n bs r))) ->
  dest_after st (p_events (perform_copy env n bs r)) = st.
Proof.
  unfold perform_copy. destruct (stat_size env) as [fs |]; [| reflexivity].
  rewrite bind_emit. destruct (create_dest_ok env); [| reflexivity].
  rewrite bind_emit, bind_emit. cbn [p_events p_out].
  set (forks := fork_loop (Z.to_nat n) env fs 0 n bs).
  destruct (p_out forks) as [[] | c' | |] eqn:E.
  - rewrite (bind_returned forks _ E). cbn [p_events p_out].
    unfold wait_all. destruct (forallb _ _).
    + rewrite wait_loop_run. intros H. exfalso. revert H.
      unfold bind. simpl. discriminate.
    + intros H. exfalso. revert H. unfold bind. simpl. discriminate.
  - intros _ Hno. exfalso. apply Hno. apply stderr_of_In.
    rewrite (bind_exited forks _ E). cbn [p_events].
    right. right. right. apply (fork_loop_exit _ _ _ _ _ _ _ E).
  - unfold bind at 1. rewrite E. simpl. discriminate.
  - unfold bind at 1. rewrite E. simpl. discriminate.
Qed.

(** X14.  A plain copy (no [-o]) that ends with code 1 for any reason but
    a failed [fork] has not truncated the destination: the options, the
    number of operands and the [stat] of the source are all checked before
    the destination is opened with [O_TRUNC] (and an [open] that fails
    opens nothing), so a file that was there is still there, with its
    length. *)
Theorem early_errors_spare_the_destination env cmd st :
  ~ In OptO (options cmd) ->
  exit_code (main env cmd) = Some 1 ->
  ~ In ErrFork (stderr_of (p_events (main env cmd))) ->
  dest_after st (p_events (main env cmd)) = st.
Proof.
  intros Hno. unfold main. rewrite bind_emit.
  set (parsed := parse_options env (options cmd) initial_state).
  pose proof (parse_options_dest env st (options cmd) initial_state) as Hdest.
  fold parsed in Hdest.
  destruct (p_out parsed) as [st' | c | |] eqn:E.
  - pose proof (parse_options_keeps_mode env _ _ _ Hno E) as Hmode.
    rewrite (bind_returned parsed _ E). cbn [p_events p_out].
    destruct (operands cmd <? 2).
    { intros _ _. cbn [dest_after]. rewrite dest_after_app, Hdest. reflexivity. }
    assert (Hopt : m_optimize (apply_defaults env st') = 0).
    { unfold apply_defaults. destruct (m_shift_value st' =? 0); exact Hmode. }
    rewrite Hopt. cbn [Z.eqb negb].
    destruct (m_block_size (apply_defaults env st')) as [size |].
    + rewrite bind_emit.
      set (run := perform_copy (the_copy env) (m_num_processes (apply_defaults env st'))
                    size zero_result).
      pose proof (perform_copy_spares (the_copy env)
                    (m_num_processes (apply_defaults env st')) size zero_result st) as Hrun.
      fold run in Hrun.
      destruct (p_out run) as [r | c | |] eqn:Erun.
      * rewrite (bind_returned run _ Erun). unfold exit_code. cbn [p_events p_out ret].
        discriminate.
      * rewrite (bind_exited run _ Erun). cbn [p_events p_out].
        intros _ Herr. cbn [dest_after]. rewrite dest_after_app, Hdest.
        cbn [dest_after]. apply (Hrun c eq_refl).
        intros Hin. apply Herr. unfold stderr_of in *.
        cbn [flat_map app]. rewrite flat_map_app. apply in_or_app. right. exact Hin.
      * intros H. exfalso. revert H. unfold exit_code, bind. cbn [p_out].
        rewrite Erun. cbn [p_out]. discriminate.
      * intros H. exfalso. revert H. unfold exit_code, bind. cbn [p_out].
        rewrite Erun. cbn [p_out]. discriminate.
    + unfold exit_code. simpl. discriminate.
  - rewrite (bind_exited parsed _ E). cbn [p_events p_out dest_after].
    intros _ _. exact Hdest.
  - intros H. exfalso. revert H. unfold exit_code, bind. cbn [p_out].
    rewrite E. cbn [p_out]. discriminate.
  - intros H. exfalso. revert H. unfold exit_code, bind. cbn [p_out].
    rewrite E. cbn [p_out]. discriminate.
Qed.

Lemma early_errors_spare_the_destination_witness :
  exit_code (main (sample_main_env missing_source)
                  {| options := [OptP 3]; operands := 2 |}) = Some 1 /\
  dest_after (Some 4096)
    (p_events (main (sample_main_env missing_source)
                    {| options := [OptP 3]; operands := 2 |})) = Some 4096.
Proof.
  assert (Hno : ~ In OptO (options {| options := [OptP 3]; operands := 2 |})).
  { simpl. intros [H | []]. discriminate. }
  assert (Hcode : exit_code (main (sample_main_env missing_source)
                                  {| options := [OptP 3]; operands := 2 |}) = Some 1)
    by (vm_compute; reflexivity).
  assert (Herr : ~ In ErrFork (stderr_of (p_events (main (sample_main_env missing_source)
                                  {| options := [OptP 3]; operands := 2 |})))).
  { vm_compute. intros [H | []]. discriminate. }
  split; [exact Hcode |].
  exact (early_errors_spare_the_destination (sample_main_env missing_source)
           {| options := [OptP 3]; operands := 2 |} (Some 4096) Hno Hcode Herr).
Defined.
